(** * Raindrop bookmark sync: link registry, operation queue and pull pass

    A shallow embedding of the synchronisation core of the extension:
    - [utils/hash.ts]            (module [Hash]):    normalizeUrl, hashString
    - [types/storage.ts]         (module [Types]):   records and defaults
    - [background/storage.ts]    (module [Storage]): registry, queue, stats
    - [background/queue.ts]      (module [Queue]):   lock, dispatch, handlers
    - [background/syncManager.ts] (module [Sync]):   pullSyncForMapping

    Conventions.
    - A JavaScript string is a [string]: a sequence of code units below 256.
    - A JavaScript number holding an id, a counter or a timestamp is a [Z].
    - An optional field [f?: T] is an [option T]; truthiness tests ([!x],
      [if (x)], [a || b]) are written out with [truthy_str], [truthy_num].
    - [browser.storage.local] is a record of optional values, one field per
      key; its [get], [set] and [remove] are taken to succeed.
    - The remote service and the local bookmark store are an environment
      [Env] that answers every call, by returning or by throwing, as a
      function of the calls made so far; the calls are logged in [trace].
      For the synchronisation core the functions of
      background/raindropApi.ts are such calls: nothing is assumed about
      their answers.  Their own logic is the subject of module [Api].
    - [storageLock.run] serialises the read-modify-write cycles; each such
      cycle is one atomic function on the world. *)

From Stdlib Require Import ZArith List String Ascii Bool Lia.
From stdpp Require Import gmap strings list.
Import ListNotations.

Local Open Scope string_scope.
Local Open Scope Z_scope.

(* ================================================================== *)
(** * JavaScript string primitives *)
(* ================================================================== *)

Module Js.

Definition code (c : ascii) : Z := Z.of_N (N_of_ascii c).
Definition chr (z : Z) : ascii := ascii_of_N (Z.to_N z).

Definition chars (s : string) : list ascii := list_ascii_of_string s.
Definition str (l : list ascii) : string := string_of_list_ascii l.

Definition between (lo hi : Z) (c : ascii) : bool :=
  (lo <=? code c) && (code c <=? hi).

Definition is_upper (c : ascii) : bool := between 65 90 c.
Definition is_lower (c : ascii) : bool := between 97 122 c.
Definition is_digit (c : ascii) : bool := between 48 57 c.
Definition is_alpha (c : ascii) : bool := is_upper c || is_lower c.
Definition is_alnum (c : ascii) : bool := is_alpha c || is_digit c.

(** [String.prototype.toLowerCase] on code units below 256: A-Z, and
    U+00C0..U+00DE except the multiplication sign U+00D7. *)
Definition lower_char (c : ascii) : ascii :=
  if is_upper c || (between 192 222 c && negb (code c =? 215))
  then chr (code c + 32) else c.

Definition toLowerCase (s : string) : string := str (map lower_char (chars s)).

(** [s.replace(/\/+$/, '')]: every trailing slash goes. *)
Fixpoint drop_leading_slashes (l : list ascii) : list ascii :=
  match l with
  | c :: l' => if Ascii.eqb c "/" then drop_leading_slashes l' else l
  | [] => []
  end.

Definition stripTrailingSlashes (s : string) : string :=
  str (rev (drop_leading_slashes (rev (chars s)))).

(** White space removed by [String.prototype.trim], below 256. *)
Definition is_space (c : ascii) : bool :=
  between 9 13 c || (code c =? 32) || (code c =? 160).

Fixpoint drop_leading_space (l : list ascii) : list ascii :=
  match l with
  | c :: l' => if is_space c then drop_leading_space l' else l
  | [] => []
  end.

Definition trim (s : string) : string :=
  str (rev (drop_leading_space (rev (drop_leading_space (chars s))))).

Definition endsWith (s : string) (c : ascii) : bool :=
  match rev (chars s) with
  | d :: _ => Ascii.eqb d c
  | [] => false
  end.

(** [s.slice(0, -1)] *)
Definition dropLast (s : string) : string := str (removelast (chars s)).

(** Split at the first occurrence of [c]: the part before it, and the part
    after it when [c] occurs. *)
Fixpoint cut (c : ascii) (l : list ascii) : list ascii * option (list ascii) :=
  match l with
  | [] => ([], None)
  | d :: l' =>
      if Ascii.eqb d c then ([], Some l')
      else let '(a, b) := cut c l' in (d :: a, b)
  end.

(** [s.split(c)] *)
Fixpoint split (c : ascii) (l : list ascii) : list (list ascii) :=
  match l with
  | [] => [[]]
  | d :: l' =>
      if Ascii.eqb d c then [] :: split c l'
      else match split c l' with
           | seg :: segs => (d :: seg) :: segs
           | [] => [[d]]
           end
  end.

Definition join (sep : string) (l : list string) : string :=
  match l with
  | [] => ""
  | x :: xs => fold_left (fun acc y => acc ++ sep ++ y) xs x
  end.

(** Truthiness of an optional string and of an optional number. *)
Definition truthy_str (o : option string) : bool :=
  match o with
  | Some s => negb (String.eqb s "")
  | None => false
  end.

Definition truthy_num (o : option Z) : bool :=
  match o with
  | Some n => negb (n =? 0)
  | None => false
  end.

(** [a || b] on strings. *)
Definition or_str (a : option string) (b : string) : string :=
  match a with
  | Some s => if String.eqb s "" then b else s
  | None => b
  end.

(** Strict equality [===] of optional fields. *)
Definition opt_str_eqb (a b : option string) : bool :=
  match a, b with
  | Some x, Some y => String.eqb x y
  | None, None => true
  | _, _ => false
  end.

Definition opt_num_eqb (a b : option Z) : bool :=
  match a, b with
  | Some x, Some y => x =? y
  | None, None => true
  | _, _ => false
  end.

(** Exceptions: an [Error] object with its message, or any other value. *)
Inductive exn : Type :=
  | JsError (message : string)
  | Thrown (rendering : string).

(** [error instanceof Error ? error.message : 'Unknown error'] *)
Definition message_of (e : exn) : string :=
  match e with
  | JsError m => m
  | Thrown _ => "Unknown error"
  end.

(** [`${error}`] *)
Definition render (e : exn) : string :=
  match e with
  | JsError m => "Error: " ++ m
  | Thrown r => r
  end.

Inductive Outcome (A : Type) : Type :=
  | Returned (a : A)
  | Throws (e : exn).
Arguments Returned {A} a.
Arguments Throws {A} e.

End Js.

Export Js.

(* ================================================================== *)
(** * utils/hash.ts *)
(* ================================================================== *)

Module Hash.

(** ** The platform's URL class

    [new URL(url)] is the browser's parser, not code of the extension.  It is
    modelled on the fragment

      (http|https) "://" host path? ("?" query)? ("#" fragment)?

    where the host is made of dot-separated, non-empty, alphanumeric labels
    whose last one starts with a letter, the path segments use
    [A-Za-z0-9._~-] and are neither "." nor "..", the query uses
    [A-Za-z0-9._*=&-] with keys over [a-z0-9_], and the fragment uses the
    printable characters that the parser leaves as they are.  On this
    fragment the platform parser only lower-cases the scheme and the host and
    supplies "/" for an empty path: the constructor returns
    ([Accepted]).  A string without a colon has no scheme, and the
    constructor throws ([Rejected]).  About every other string the model
    says nothing ([Unmodelled]): what the platform does with it is a
    parameter of the development, [try_beyond]. *)

Record URL : Type := mkURL {
  protocol : string;                        (* with its colon *)
  hostname : string;
  pathname : string;
  searchParams : list (string * string);    (* the live query list *)
  hash : string                             (* "" or "#..." *)
}.

Definition path_char (c : ascii) : bool :=
  is_alnum c || existsb (Ascii.eqb c) ["."; "_"; "~"; "-"]%char.

Definition key_char (c : ascii) : bool :=
  is_lower c || is_digit c || Ascii.eqb c "_".

Definition value_char (c : ascii) : bool :=
  is_alnum c || existsb (Ascii.eqb c) ["."; "_"; "*"; "-"]%char.

Definition label_ok (l : list ascii) : bool :=
  negb (Nat.eqb (length l) 0) && forallb is_alnum l.

Definition host_ok (h : list ascii) : bool :=
  let labels := split "." h in
  forallb label_ok labels &&
  match last labels with
  | Some (c :: _) => is_alpha c
  | _ => false
  end.

Definition segment_ok (s : list ascii) : bool :=
  forallb path_char s &&
  negb (String.eqb (str s) ".") && negb (String.eqb (str s) "..").

(** A path is empty or starts with a slash. *)
Definition path_ok (p : list ascii) : bool :=
  match p with
  | [] => true
  | c :: p' => Ascii.eqb c "/" && forallb segment_ok (split "/" p')
  end.

(** [new URLSearchParams(query)]: split on "&", skip empty pieces, split each
    piece at its first "=". *)
Definition parse_pair (piece : list ascii) : string * string :=
  let '(k, v) := cut "=" piece in
  (str k, match v with Some v' => str v' | None => "" end).

Definition parse_query (q : list ascii) : list (string * string) :=
  map parse_pair
      (List.filter (fun p => negb (Nat.eqb (length p) 0)) (split "&" q)).

Definition pair_ok (kv : string * string) : bool :=
  forallb key_char (chars (fst kv)) && forallb value_char (chars (snd kv)).

(** [URLSearchParams.prototype.toString] *)
Definition serialize_query (ps : list (string * string)) : string :=
  join "&" (map (fun kv => fst kv ++ "=" ++ snd kv) ps).

(** The characters of a fragment that the parser neither strips nor
    escapes: the printable ones but the double quote, <, > and the back
    quote. *)
Definition fragment_char (c : ascii) : bool :=
  between 33 126 c && negb (existsb (Z.eqb (code c)) [34; 60; 62; 96]).

Inductive Parse : Type :=
  | Accepted (u : URL)
  | Rejected
  | Unmodelled.

Definition URL_parse (url : string) : Parse :=
  if negb (existsb (Ascii.eqb ":") (chars url)) then Rejected
  else
    let '(s1, frag) := cut "#" (chars url) in
    let '(s2, query) := cut "?" s1 in
    let '(scheme, rest) := cut ":" s2 in
    let scheme' := toLowerCase (str scheme) in
    if negb (String.eqb scheme' "http" || String.eqb scheme' "https")
    then Unmodelled
    else
      match rest with
      | Some ("/" :: "/" :: auth)%char =>
          let '(host, path) := cut "/" auth in
          let path' := match path with Some p => ("/"%char :: p) | None => [] end in
          let params := match query with Some q => parse_query q | None => [] end in
          let frag' := match frag with Some f => f | None => [] end in
          if host_ok host && path_ok path' && forallb pair_ok params &&
             forallb fragment_char frag'
          then
            Accepted {| protocol := scheme' ++ ":";
                        hostname := toLowerCase (str host);
                        pathname := match path' with [] => "/" | _ => str path' end;
                        searchParams := params;
                        hash := match frag' with
                                | [] => ""
                                | f => "#" ++ str f
                                end |}
          else Unmodelled
      | _ => Unmodelled
      end.

(** The platform where the model of its URL class ends: [try_beyond url] is
    what the [try] block of [normalizeUrl] comes to on a string that the
    model does not cover, the string it returns or [None] when it throws.
    Nothing is assumed about it. *)
Class Platform : Type := { try_beyond : string -> option string }.

(** [URL.prototype.toString] *)
Definition URL_toString (u : URL) : string :=
  protocol u ++ "//" ++ hostname u ++ pathname u ++
  (match searchParams u with
   | [] => ""
   | ps => "?" ++ serialize_query ps
   end) ++ hash u.

(** [a.localeCompare(b) <= 0] on keys over [a-z0-9_]: the underscore sorts
    before the digits, the digits before the letters, a prefix first. *)
Definition rank (c : ascii) : Z :=
  if Ascii.eqb c "_" then 0
  else if is_digit c then 1 + (code c - 48)
  else 11 + code c.

Fixpoint locale_leb (a b : list ascii) : bool :=
  match a, b with
  | [], _ => true
  | _ :: _, [] => false
  | x :: a', y :: b' =>
      if rank x <? rank y then true
      else if rank y <? rank x then false
      else locale_leb a' b'
  end.

(** [params.sort((a, b) => a[0].localeCompare(b[0]))]: a stable sort. *)
Fixpoint insert_param (p : string * string) (l : list (string * string))
  : list (string * string) :=
  match l with
  | [] => [p]
  | q :: l' =>
      if locale_leb (chars (fst q)) (chars (fst p))
      then q :: insert_param p l'
      else p :: l
  end.

Definition sort_params (l : list (string * string)) : list (string * string) :=
  fold_left (fun acc p => insert_param p acc) l [].

Definition trackingParams : list string :=
  ["utm_source"; "utm_medium"; "utm_campaign"; "utm_term"; "utm_content";
   "fbclid"; "gclid"].

(** [searchParams.delete(param)] *)
Definition delete_param (param : string) (ps : list (string * string))
  : list (string * string) :=
  List.filter (fun kv => negb (String.eqb (fst kv) param)) ps.

Section NormalizeUrl.

Context {platform : Platform}.

(** The [try] block of [normalizeUrl]; [None] when it throws. *)
Definition normalizeUrl_try (url : string) : option string :=
  match URL_parse url with
  | Rejected => None
  | Unmodelled => try_beyond url
  | Accepted parsed =>
      let parsed := {| protocol := protocol parsed;
                       hostname := toLowerCase (hostname parsed);
                       pathname := pathname parsed;
                       searchParams := searchParams parsed;
                       hash := hash parsed |} in
      let parsed := {| protocol := toLowerCase (protocol parsed);
                       hostname := hostname parsed;
                       pathname := pathname parsed;
                       searchParams := searchParams parsed;
                       hash := hash parsed |} in
      let pathname' :=
        if endsWith (pathname parsed) "/" &&
           (1 <? Z.of_nat (String.length (pathname parsed)))
        then dropLast (pathname parsed)
        else pathname parsed in
      let kept :=
        fold_left (fun ps param => delete_param param ps)
                  trackingParams (searchParams parsed) in
      let sortedParams := sort_params kept in
      Some (URL_toString {| protocol := protocol parsed;
                            hostname := hostname parsed;
                            pathname := pathname';
                            searchParams := sortedParams;
                            hash := "" |})
  end.

Definition normalizeUrl (url : string) : string :=
  match normalizeUrl_try url with
  | Some s => s
  | None => stripTrailingSlashes (toLowerCase url)
  end.

Definition urlsMatch (url1 url2 : string) : bool :=
  String.eqb (normalizeUrl url1) (normalizeUrl url2).

End NormalizeUrl.

(** ** DJB2 content hash *)

(** [ToInt32] *)
Definition int32 (z : Z) : Z := (z + 2 ^ 31) mod 2 ^ 32 - 2 ^ 31.

(** [hash = ((hash << 5) + hash) ^ str.charCodeAt(i)] *)
Definition hash_step (hash : Z) (c : ascii) : Z :=
  Z.lxor (int32 (int32 (Z.shiftl (int32 hash) 5) + hash)) (code c).

Definition hex_digit (d : Z) : ascii :=
  if d <? 10 then chr (48 + d) else chr (87 + d).

Fixpoint to_hex (fuel : nat) (z : Z) (acc : list ascii) : list ascii :=
  match fuel with
  | O => acc
  | S fuel' =>
      let acc' := hex_digit (z mod 16) :: acc in
      if z / 16 =? 0 then acc' else to_hex fuel' (z / 16) acc'
  end.

(** [(hash >>> 0).toString(16)] *)
Definition hashString (s : string) : string :=
  let h := fold_left hash_step (chars s) 5381 in
  str (to_hex 8 (h mod 2 ^ 32) []).

Section ContentHash.

Context {platform : Platform}.

Definition computeBookmarkHash (url title : string) : string :=
  hashString (normalizeUrl url ++ "|" ++ trim title).

Definition computeRaindropHash (link title : string) : string :=
  hashString (normalizeUrl link ++ "|" ++ trim title).

End ContentHash.

End Hash.

Export Hash.

(* ================================================================== *)
(** * types/storage.ts and types/raindrop.ts *)
(* ================================================================== *)

Local Open Scope list_scope.

Module Types.

Inductive SyncStatus : Type := synced | pending_status | conflict | error_status.

Record FolderMapping : Type := mkFolderMapping {
  fm_id : string;
  firefoxFolderId : string;
  raindropCollectionId : Z;
  folderName : string;
  raindropCollectionName : string;
  parentMappingId : option string;
  depth : Z;
  lastSync : Z;
  syncChildren : bool
}.

Record BookmarkLink : Type := mkBookmarkLink {
  bl_id : string;
  firefoxId : string;
  raindropId : Z;
  url : string;
  title : string;
  lastModified : Z;
  contentHash : string;
  syncStatus : SyncStatus;
  mappingId : string;
  errorMessage : option string
}.

(** [Partial<BookmarkLink>], for the fields the callers update. *)
Record LinkUpdates : Type := mkLinkUpdates {
  u_url : option string;
  u_title : option string;
  u_lastModified : option Z;
  u_contentHash : option string;
  u_syncStatus : option SyncStatus;
  u_mappingId : option string
}.

Inductive OpType : Type := create | update | delete | move.
Inductive OpSource : Type := firefox | raindrop.
Inductive EntityType : Type := bookmark | folder.

Record SyncOperationData : Type := mkData {
  d_firefoxId : option string;
  d_raindropId : option Z;
  d_url : option string;
  d_title : option string;
  d_collectionId : option Z;
  d_parentFolderId : option string;
  d_oldCollectionId : option Z;
  d_newCollectionId : option Z;
  d_mappingId : option string
}.

Record SyncOperation : Type := mkOp {
  op_id : string;
  op_type : OpType;
  op_source : OpSource;
  entityType : EntityType;
  data : SyncOperationData;
  timestamp : Z;
  retries : Z;
  maxRetries : Z;
  lastError : option string
}.

Record SyncQueue : Type := mkQueue {
  pending : list SyncOperation;
  failed : list SyncOperation
}.

Inductive LastSyncStatus : Type := success | partial | failed_status | never.

(** [details] is [JSON.stringify(operation.data)]; the record keeps the data
    that is rendered. *)
Record SyncError : Type := mkSyncError {
  e_timestamp : Z;
  e_operation : string;
  e_message : string;
  e_details : option SyncOperationData
}.

Record SyncStats : Type := mkStats {
  totalSynced : Z;
  pendingOperations : Z;
  failedOperations : Z;
  lastSyncTime : Z;
  lastSyncStatus : LastSyncStatus;
  errors : list SyncError
}.

(** [Partial<SyncStats>] *)
Record StatsUpdates : Type := mkStatsUpdates {
  s_totalSynced : option Z;
  s_pendingOperations : option Z;
  s_failedOperations : option Z;
  s_lastSyncTime : option Z;
  s_lastSyncStatus : option LastSyncStatus;
  s_errors : option (list SyncError)
}.

(** The fields of a remote item that the synchronisation core reads. *)
Record Raindrop : Type := mkRaindrop {
  _id : Z;
  link : string;
  r_title : string
}.

Definition OpType_eqb (a b : OpType) : bool :=
  match a, b with
  | create, create | update, update | delete, delete | move, move => true
  | _, _ => false
  end.

Definition OpSource_eqb (a b : OpSource) : bool :=
  match a, b with
  | firefox, firefox | raindrop, raindrop => true
  | _, _ => false
  end.

Definition OpType_string (t : OpType) : string :=
  match t with
  | create => "create" | update => "update"
  | delete => "delete" | move => "move"
  end.

Definition EntityType_string (t : EntityType) : string :=
  match t with bookmark => "bookmark" | folder => "folder" end.

(** The values of [DEFAULT_SYNC_STATS] and [DEFAULT_SYNC_QUEUE] when the
    module is loaded. *)
Definition initial_DEFAULT_SYNC_STATS : SyncStats := mkStats 0 0 0 0 never [].

Definition initial_DEFAULT_SYNC_QUEUE : SyncQueue := mkQueue [] [].

End Types.

Export Types.

(* ================================================================== *)
(** * The world: persistent storage, module objects, environment *)
(* ================================================================== *)

Module World.

(** [browser.storage.local], one optional value per key of [STORAGE_KEYS],
    and the processing lock of the queue (its time stamp). *)
Record LocalStorage : Type := mkLocal {
  folder_mappings : option (list FolderMapping);
  bookmark_links : option (list BookmarkLink);
  sync_queue : option SyncQueue;
  sync_stats : option SyncStats;
  queue_processing_lock : option Z
}.

(** Calls that leave the extension: the remote service (raindropApi) and the
    browser's bookmark store. *)
Inductive Call : Type :=
  | CreateRaindrop (link title : string) (collection : Z)
  | UpdateRaindrop (id : Z) (link title : option string) (collection : option Z)
  | DeleteRaindrop (id : Z)
  | GetRaindrop (id : Z)
  | GetAllRaindropsInCollection (collectionId : Z)
  | BookmarksCreate (parentId title url : string)
  | BookmarksUpdate (id title url : string)
  | BookmarksRemove (id : string).

(** The environment answers a call from the calls made before it. *)
Record Env : Type := mkEnv {
  on_raindrop : list Call -> Call -> Outcome Raindrop;
  on_raindrops : list Call -> Call -> Outcome (list Raindrop);
  on_bookmark : list Call -> Call -> Outcome string;
  on_void : list Call -> Call -> Outcome unit
}.

Record World : Type := mkWorld {
  local : LocalStorage;
  (** The module-level objects [DEFAULT_SYNC_QUEUE] and [DEFAULT_SYNC_STATS]:
      [getQueue] hands out the first itself and [getSyncStats] a shallow
      copy of the second, so callers can mutate them. *)
  DEFAULT_SYNC_QUEUE : SyncQueue;
  DEFAULT_SYNC_STATS : SyncStats;
  syncDepth : Z;
  clock : nat -> Z;
  ticks : nat;
  ids : nat -> string;
  next_id : nat;
  env : Env;
  trace : list Call
}.

Definition set_local (f : LocalStorage -> LocalStorage) (w : World) : World :=
  mkWorld (f (local w)) (DEFAULT_SYNC_QUEUE w) (DEFAULT_SYNC_STATS w)
          (syncDepth w) (clock w) (ticks w) (ids w) (next_id w) (env w) (trace w).

Definition set_DEFAULT_SYNC_QUEUE (q : SyncQueue) (w : World) : World :=
  mkWorld (local w) q (DEFAULT_SYNC_STATS w)
          (syncDepth w) (clock w) (ticks w) (ids w) (next_id w) (env w) (trace w).

Definition set_DEFAULT_SYNC_STATS (s : SyncStats) (w : World) : World :=
  mkWorld (local w) (DEFAULT_SYNC_QUEUE w) s
          (syncDepth w) (clock w) (ticks w) (ids w) (next_id w) (env w) (trace w).

Definition set_syncDepth (d : Z) (w : World) : World :=
  mkWorld (local w) (DEFAULT_SYNC_QUEUE w) (DEFAULT_SYNC_STATS w)
          d (clock w) (ticks w) (ids w) (next_id w) (env w) (trace w).

Definition set_ticks (n : nat) (w : World) : World :=
  mkWorld (local w) (DEFAULT_SYNC_QUEUE w) (DEFAULT_SYNC_STATS w)
          (syncDepth w) (clock w) n (ids w) (next_id w) (env w) (trace w).

Definition set_next_id (n : nat) (w : World) : World :=
  mkWorld (local w) (DEFAULT_SYNC_QUEUE w) (DEFAULT_SYNC_STATS w)
          (syncDepth w) (clock w) (ticks w) (ids w) n (env w) (trace w).

Definition set_trace (t : list Call) (w : World) : World :=
  mkWorld (local w) (DEFAULT_SYNC_QUEUE w) (DEFAULT_SYNC_STATS w)
          (syncDepth w) (clock w) (ticks w) (ids w) (next_id w) (env w) t.

Definition put_folder_mappings (v : list FolderMapping) (s : LocalStorage) :=
  mkLocal (Some v) (bookmark_links s) (sync_queue s) (sync_stats s)
          (queue_processing_lock s).

Definition put_bookmark_links (v : list BookmarkLink) (s : LocalStorage) :=
  mkLocal (folder_mappings s) (Some v) (sync_queue s) (sync_stats s)
          (queue_processing_lock s).

Definition put_sync_queue (v : SyncQueue) (s : LocalStorage) :=
  mkLocal (folder_mappings s) (bookmark_links s) (Some v) (sync_stats s)
          (queue_processing_lock s).

Definition put_sync_stats (v : SyncStats) (s : LocalStorage) :=
  mkLocal (folder_mappings s) (bookmark_links s) (sync_queue s) (Some v)
          (queue_processing_lock s).

Definition put_lock (v : option Z) (s : LocalStorage) :=
  mkLocal (folder_mappings s) (bookmark_links s) (sync_queue s) (sync_stats s) v.

(** ** Asynchronous functions: a state and exception monad *)

Definition M (A : Type) : Type := World -> Outcome A * World.

Definition ret {A} (a : A) : M A := fun w => (Returned a, w).

Definition throw {A} (e : exn) : M A := fun w => (Throws e, w).

Definition bind {A B} (m : M A) (k : A -> M B) : M B :=
  fun w =>
    match m w with
    | (Returned a, w') => k a w'
    | (Throws e, w') => (Throws e, w')
    end.

(** [try { m } catch (error) { h error }] *)
Definition try_catch {A} (m : M A) (h : exn -> M A) : M A :=
  fun w =>
    match m w with
    | (Returned a, w') => (Returned a, w')
    | (Throws e, w') => h e w'
    end.

(** [try { m } finally { f }] *)
Definition try_finally {A} (m : M A) (f : M unit) : M A :=
  fun w =>
    match m w with
    | (r, w') =>
        match f w' with
        | (Returned _, w'') => (r, w'')
        | (Throws e, w'') => (Throws e, w'')
        end
    end.

Definition modify (f : World -> World) : M unit := fun w => (Returned tt, f w).

Definition gets {A} (f : World -> A) : M A := fun w => (Returned (f w), w).

(** [Date.now()]: every reading may differ from the one before. *)
Definition Date_now : M Z :=
  fun w => (Returned (clock w (ticks w)), set_ticks (S (ticks w)) w).

(** [generateId()] *)
Definition generateId : M string :=
  fun w => (Returned (ids w (next_id w)), set_next_id (S (next_id w)) w).

Definition call_with {A} (answer : Env -> list Call -> Call -> Outcome A)
  (c : Call) : M A :=
  fun w => (answer (env w) (trace w) c, set_trace (trace w ++ [c]) w).

Definition createRaindrop (link title : string) (collection : Z) : M Raindrop :=
  call_with on_raindrop (CreateRaindrop link title collection).

Definition updateRaindrop (id : Z) (link title : option string)
  (collection : option Z) : M unit :=
  call_with on_void (UpdateRaindrop id link title collection).

Definition deleteRaindrop (id : Z) : M unit :=
  call_with on_void (DeleteRaindrop id).

Definition getRaindrop (id : Z) : M Raindrop :=
  call_with on_raindrop (GetRaindrop id).

Definition getAllRaindropsInCollection (collectionId : Z) : M (list Raindrop) :=
  call_with on_raindrops (GetAllRaindropsInCollection collectionId).

Definition bookmarks_create (parentId title url : string) : M string :=
  call_with on_bookmark (BookmarksCreate parentId title url).

Definition bookmarks_update (id title url : string) : M unit :=
  call_with on_void (BookmarksUpdate id title url).

Definition bookmarks_remove (id : string) : M unit :=
  call_with on_void (BookmarksRemove id).

(** [setSyncing] of background/bookmarkListeners.ts, on the module variable
    [syncDepth]: [syncDepth++] to start a pass, and
    [syncDepth = Math.max(0, syncDepth - 1)] to end one. *)
Definition setSyncing (value : bool) : M unit :=
  modify (fun w =>
    set_syncDepth (if value then syncDepth w + 1
                   else Z.max 0 (syncDepth w - 1)) w).

End World.

Export World.

Declare Scope js_scope.
Delimit Scope js_scope with js.
Notation "'let*' x ':=' c1 'in' c2" := (bind c1 (fun x => c2))
  (at level 10, x pattern, c1 at level 100, c2 at level 200) : js_scope.
Local Open Scope js_scope.

(* ================================================================== *)
(** * background/storage.ts *)
(* ================================================================== *)

Module Storage.

(** ** Folder mappings *)

Definition saveFolderMappings (mappings : list FolderMapping) : M unit :=
  modify (set_local (put_folder_mappings mappings)).

(** [result[STORAGE_KEYS.FOLDER_MAPPINGS] || []] *)
Definition mappings_of (w : World) : list FolderMapping :=
  default [] (folder_mappings (local w)).

Definition getFolderMappings : M (list FolderMapping) := gets mappings_of.

Definition mapping_conflict (mapping m : FolderMapping) : bool :=
  String.eqb (firefoxFolderId m) (firefoxFolderId mapping) ||
  (raindropCollectionId m =? raindropCollectionId mapping).

Definition addFolderMapping (mapping : FolderMapping) : M (list FolderMapping) :=
  let* mappings := getFolderMappings in
  match find (mapping_conflict mapping) mappings with
  | Some _ =>
      throw (JsError "Mapping already exists for this folder or collection")
  | None =>
      let mappings := mappings ++ [mapping] in
      let* _ := saveFolderMappings mappings in
      ret mappings
  end.

Definition with_lastSync (t : Z) (m : FolderMapping) : FolderMapping :=
  mkFolderMapping (fm_id m) (firefoxFolderId m) (raindropCollectionId m)
    (folderName m) (raindropCollectionName m) (parentMappingId m) (depth m)
    t (syncChildren m).

(** [mappings[index] = { ...mappings[index], ...updates }] at the first index
    whose mapping has the id. *)
Fixpoint update_first {A} (p : A -> bool) (f : A -> A) (l : list A) : list A :=
  match l with
  | [] => []
  | x :: l' => if p x then f x :: l' else x :: update_first p f l'
  end.

(** [updateFolderMapping(mappingId, { lastSync })], the one update that the
    passes make. *)
Definition updateFolderMapping (mappingId : string) (lastSync' : Z)
  : M (option FolderMapping) :=
  let* mappings := getFolderMappings in
  let same := fun m => String.eqb (fm_id m) mappingId in
  match find same mappings with
  | None => ret None
  | Some m =>
      let* _ := saveFolderMappings (update_first same (with_lastSync lastSync') mappings) in
      ret (Some (with_lastSync lastSync' m))
  end.

Definition findMappingByFirefoxId (firefoxFolderId' : string)
  : M (option FolderMapping) :=
  let* mappings := getFolderMappings in
  ret (find (fun m => String.eqb (firefoxFolderId m) firefoxFolderId') mappings).

(** ** Bookmark links *)

Definition _saveBookmarkLinks (links : list BookmarkLink) : M unit :=
  modify (set_local (put_bookmark_links links)).

(** [result[STORAGE_KEYS.BOOKMARK_LINKS] || []] *)
Definition links_of (w : World) : list BookmarkLink :=
  default [] (bookmark_links (local w)).

Definition getBookmarkLinks : M (list BookmarkLink) := gets links_of.

Definition link_conflict (link l : BookmarkLink) : bool :=
  String.eqb (firefoxId l) (firefoxId link) ||
  (raindropId l =? raindropId link).

Definition addBookmarkLink (link : BookmarkLink) : M unit :=
  let* links := getBookmarkLinks in
  let exists_ := existsb (link_conflict link) links in
  if negb exists_ then _saveBookmarkLinks (links ++ [link])
  else ret tt.

(** [{ ...link, ...updates }] *)
Definition apply_updates (u : LinkUpdates) (l : BookmarkLink) : BookmarkLink :=
  mkBookmarkLink (bl_id l) (firefoxId l) (raindropId l)
    (default (url l) (u_url u))
    (default (title l) (u_title u))
    (default (lastModified l) (u_lastModified u))
    (default (contentHash l) (u_contentHash u))
    (default (syncStatus l) (u_syncStatus u))
    (default (mappingId l) (u_mappingId u))
    (errorMessage l).

Definition updateBookmarkLink (linkId : string) (updates : LinkUpdates)
  : M (option BookmarkLink) :=
  let* links := getBookmarkLinks in
  let same := fun l => String.eqb (bl_id l) linkId in
  match find same links with
  | None => ret None
  | Some l =>
      let* _ := _saveBookmarkLinks (update_first same (apply_updates updates) links) in
      ret (Some (apply_updates updates l))
  end.

Definition removeBookmarkLink (linkId : string) : M unit :=
  let* links := getBookmarkLinks in
  let filtered := List.filter (fun l => negb (String.eqb (bl_id l) linkId)) links in
  _saveBookmarkLinks filtered.

(** The two lookups of [findBookmarkLink], on the links read. *)
Definition find_link (firefoxId' : option string) (raindropId' : option Z)
  (links : list BookmarkLink) : option BookmarkLink :=
  let byFirefox :=
    if truthy_str firefoxId'
    then find (fun l => opt_str_eqb (Some (firefoxId l)) firefoxId') links
    else None in
  match byFirefox with
  | Some l => Some l
  | None =>
      if truthy_num raindropId'
      then find (fun l => opt_num_eqb (Some (raindropId l)) raindropId') links
      else None
  end.

Definition findBookmarkLink (firefoxId' : option string) (raindropId' : option Z)
  : M (option BookmarkLink) :=
  let* links := getBookmarkLinks in
  ret (find_link firefoxId' raindropId' links).

Definition getBookmarkLinksForMapping (mappingId' : string) : M (list BookmarkLink) :=
  let* links := getBookmarkLinks in
  ret (List.filter (fun l => String.eqb (mappingId l) mappingId') links).

(** ** Sync queue *)

(** [getQueue] returns the stored queue, or the module object
    [DEFAULT_SYNC_QUEUE] itself when nothing is stored. *)
Definition queue_of (w : World) : SyncQueue :=
  default (DEFAULT_SYNC_QUEUE w) (sync_queue (local w)).

Definition getQueue : M SyncQueue := gets queue_of.

(** The object that [getQueue] returned is mutated into [queue] and then
    passed to [_saveQueue].  When it was [DEFAULT_SYNC_QUEUE], the module
    object has changed too. *)
Definition mutate_and_saveQueue (queue : SyncQueue) : M unit :=
  modify (fun w =>
    let w' := match sync_queue (local w) with
              | Some _ => w
              | None => set_DEFAULT_SYNC_QUEUE queue w
              end in
    set_local (put_sync_queue queue) w').

(** External save: [saveQueue(queue)] with an object of the caller. *)
Definition saveQueue (queue : SyncQueue) : M unit :=
  modify (set_local (put_sync_queue queue)).

Definition same_key (operation op : SyncOperation) : bool :=
  OpType_eqb (op_type op) (op_type operation) &&
  OpSource_eqb (op_source op) (op_source operation) &&
  opt_str_eqb (d_firefoxId (data op)) (d_firefoxId (data operation)) &&
  opt_num_eqb (d_raindropId (data op)) (d_raindropId (data operation)).

Definition addToQueue (operation : SyncOperation) : M unit :=
  let* queue := getQueue in
  match find (same_key operation) (pending queue) with
  | None =>
      mutate_and_saveQueue (mkQueue (pending queue ++ [operation]) (failed queue))
  | Some _ => ret tt
  end.

Definition removeFromQueue (operationId : string) : M unit :=
  let* queue := getQueue in
  let keep := fun op => negb (String.eqb (op_id op) operationId) in
  mutate_and_saveQueue
    (mkQueue (List.filter keep (pending queue)) (List.filter keep (failed queue))).

Definition MAX_FAILED_QUEUE : Z := 100.

(** [operation.retries += 1; operation.lastError = errorMessage] *)
Definition record_failure (errorMessage : string) (op : SyncOperation)
  : SyncOperation :=
  mkOp (op_id op) (op_type op) (op_source op) (entityType op) (data op)
       (timestamp op) (retries op + 1) (maxRetries op) (Some errorMessage).

(** [l.slice(-n)] *)
Definition slice_last (n : Z) {A} (l : list A) : list A :=
  drop (Z.to_nat (Z.of_nat (length l) - n)) l.

Definition moveToFailed (operationId : string) (errorMessage : string) : M unit :=
  let* queue := getQueue in
  let same := fun op => String.eqb (op_id op) operationId in
  match find same (pending queue) with
  | Some operation =>
      let operation' := record_failure errorMessage operation in
      (* the operation object is mutated inside the pending array *)
      let pending1 := update_first same (record_failure errorMessage) (pending queue) in
      if retries operation' >=? maxRetries operation' then
        let pending2 := List.filter (fun op => negb (same op)) pending1 in
        let failed1 := failed queue ++ [operation'] in
        let failed2 :=
          if Z.of_nat (length failed1) >? MAX_FAILED_QUEUE
          then slice_last MAX_FAILED_QUEUE failed1
          else failed1 in
        mutate_and_saveQueue (mkQueue pending2 failed2)
      else
        mutate_and_saveQueue (mkQueue pending1 (failed queue))
  | None => ret tt
  end.

(** ** Sync stats *)

(** [{ ...stats, totalSynced: links.length }], with [stats] the stored record
    or a shallow copy of [DEFAULT_SYNC_STATS]. *)
Definition getSyncStats : M SyncStats :=
  gets (fun w =>
    let stats := default (DEFAULT_SYNC_STATS w) (sync_stats (local w)) in
    let links := default [] (bookmark_links (local w)) in
    mkStats (Z.of_nat (length links)) (pendingOperations stats)
            (failedOperations stats) (lastSyncTime stats)
            (lastSyncStatus stats) (errors stats)).

(** [{ ...current, ...updates }] *)
Definition merge_stats (current : SyncStats) (u : StatsUpdates) : SyncStats :=
  mkStats (default (totalSynced current) (s_totalSynced u))
          (default (pendingOperations current) (s_pendingOperations u))
          (default (failedOperations current) (s_failedOperations u))
          (default (lastSyncTime current) (s_lastSyncTime u))
          (default (lastSyncStatus current) (s_lastSyncStatus u))
          (default (errors current) (s_errors u)).

Definition updateSyncStats (updates : StatsUpdates) : M SyncStats :=
  let* current := getSyncStats in
  let updated := merge_stats current updates in
  let* _ := modify (set_local (put_sync_stats updated)) in
  ret updated.

Definition all_fields (s : SyncStats) : StatsUpdates :=
  mkStatsUpdates (Some (totalSynced s)) (Some (pendingOperations s))
    (Some (failedOperations s)) (Some (lastSyncTime s))
    (Some (lastSyncStatus s)) (Some (errors s)).

Definition with_errors (es : list SyncError) (s : SyncStats) : SyncStats :=
  mkStats (totalSynced s) (pendingOperations s) (failedOperations s)
          (lastSyncTime s) (lastSyncStatus s) es.

(** [stats.errors.unshift(error)] changes the array in place; when the stats
    are the copy of [DEFAULT_SYNC_STATS], that array is the module's. *)
Definition addSyncError (error : SyncError) : M unit :=
  let* stats := getSyncStats in
  let unshifted := error :: errors stats in
  let* _ := modify (fun w =>
    match sync_stats (local w) with
    | Some _ => w
    | None => set_DEFAULT_SYNC_STATS (with_errors unshifted (DEFAULT_SYNC_STATS w)) w
    end) in
  let kept :=
    if Z.of_nat (length unshifted) >? 50 then take 50 unshifted else unshifted in
  let* _ := updateSyncStats (all_fields (with_errors kept stats)) in
  ret tt.

End Storage.

Export Storage.

(* ================================================================== *)
(** * background/queue.ts *)
(* ================================================================== *)

Module Queue.

Definition PROCESSING_LOCK_TIMEOUT : Z := 5 * 60 * 1000.

Definition acquireLock : M bool :=
  let* lock := gets (fun w => queue_processing_lock (local w)) in
  let* held :=
    match lock with
    | Some lock_timestamp =>
        let* now := Date_now in
        ret (now - lock_timestamp <? PROCESSING_LOCK_TIMEOUT)
    | None => ret false
    end in
  if held then ret false
  else
    let* now := Date_now in
    let* _ := modify (set_local (put_lock (Some now))) in
    ret true.

Definition releaseLock : M unit := modify (set_local (put_lock None)).

(** ** Push to Raindrop *)

Section OnPlatform.

Context {platform : Platform}.

Definition pushCreateToRaindrop (data : SyncOperationData) : M unit :=
  if negb (truthy_str (d_url data)) || negb (truthy_str (d_title data)) ||
     negb (truthy_num (d_collectionId data)) || negb (truthy_str (d_firefoxId data))
  then throw (JsError "Missing required data for create operation")
  else
    let url' := default "" (d_url data) in
    let title' := default "" (d_title data) in
    let firefoxId' := default "" (d_firefoxId data) in
    let* existingLink := findBookmarkLink (d_firefoxId data) None in
    match existingLink with
    | Some _ => ret tt
    | None =>
        let* item := createRaindrop url' title' (default 0 (d_collectionId data)) in
        let* id := generateId in
        let* now := Date_now in
        addBookmarkLink
          (mkBookmarkLink id firefoxId' (_id item) url' title' now
             (computeBookmarkHash url' title') synced
             (or_str (d_mappingId data) "") None)
    end.

Definition some_if_truthy (o : option string) : option string :=
  if truthy_str o then o else None.

Definition pushUpdateToRaindrop (data : SyncOperationData) : M unit :=
  if negb (truthy_num (d_raindropId data))
  then throw (JsError "Missing raindrop ID for update operation")
  else
    let* _ := updateRaindrop (default 0 (d_raindropId data))
                (some_if_truthy (d_url data)) (some_if_truthy (d_title data)) None in
    let* link := findBookmarkLink (d_firefoxId data) (d_raindropId data) in
    match link with
    | Some link =>
        let url' := or_str (d_url data) (url link) in
        let title' := or_str (d_title data) (title link) in
        let* now := Date_now in
        let* _ := updateBookmarkLink (bl_id link)
                    (mkLinkUpdates (Some url') (Some title') (Some now)
                       (Some (computeBookmarkHash url' title')) (Some synced) None) in
        ret tt
    | None => ret tt
    end.

Definition pushDeleteToRaindrop (data : SyncOperationData) : M unit :=
  if negb (truthy_num (d_raindropId data))
  then throw (JsError "Missing raindrop ID for delete operation")
  else
    let* _ := deleteRaindrop (default 0 (d_raindropId data)) in
    let* link := findBookmarkLink (d_firefoxId data) (d_raindropId data) in
    match link with
    | Some link => removeBookmarkLink (bl_id link)
    | None => ret tt
    end.

Definition pushMoveToRaindrop (data : SyncOperationData) : M unit :=
  if negb (truthy_num (d_raindropId data)) || negb (truthy_num (d_newCollectionId data))
  then throw (JsError "Missing data for move operation")
  else
    let* _ := updateRaindrop (default 0 (d_raindropId data)) None None
                (d_newCollectionId data) in
    let* link := findBookmarkLink (d_firefoxId data) (d_raindropId data) in
    match link with
    | Some link =>
        if truthy_str (d_mappingId data) then
          let* now := Date_now in
          let* _ := updateBookmarkLink (bl_id link)
                      (mkLinkUpdates None None (Some now) None (Some synced)
                         (d_mappingId data)) in
          ret tt
        else ret tt
    | None => ret tt
    end.

(** ** Pull from Raindrop *)

Definition pullCreateFromRaindrop (data : SyncOperationData) : M unit :=
  if negb (truthy_num (d_raindropId data)) || negb (truthy_str (d_parentFolderId data))
  then throw (JsError "Missing data for create from Raindrop")
  else
    let parentFolderId' := default "" (d_parentFolderId data) in
    let* existingLink := findBookmarkLink None (d_raindropId data) in
    match existingLink with
    | Some _ => ret tt
    | None =>
        let* item := getRaindrop (default 0 (d_raindropId data)) in
        let* bookmark_id :=
          bookmarks_create parentFolderId' (r_title item) (link item) in
        let* mapping := findMappingByFirefoxId parentFolderId' in
        let* id := generateId in
        let* now := Date_now in
        addBookmarkLink
          (mkBookmarkLink id bookmark_id (_id item) (link item)
             (r_title item) now
             (computeBookmarkHash (link item) (r_title item)) synced
             (match mapping with Some m => fm_id m | None => "" end) None)
    end.

Definition pullUpdateFromRaindrop (data : SyncOperationData) : M unit :=
  if negb (truthy_str (d_firefoxId data)) || negb (truthy_num (d_raindropId data))
  then throw (JsError "Missing data for update from Raindrop")
  else
    let* item := getRaindrop (default 0 (d_raindropId data)) in
    let* _ := bookmarks_update (default "" (d_firefoxId data))
                (r_title item) (link item) in
    let* link' := findBookmarkLink (d_firefoxId data) (d_raindropId data) in
    match link' with
    | Some l =>
        let* now := Date_now in
        let* _ := updateBookmarkLink (bl_id l)
                    (mkLinkUpdates (Some (link item)) (Some (r_title item))
                       (Some now)
                       (Some (computeBookmarkHash (link item) (r_title item)))
                       (Some synced) None) in
        ret tt
    | None => ret tt
    end.

Definition pullDeleteFromRaindrop (data : SyncOperationData) : M unit :=
  if negb (truthy_str (d_firefoxId data))
  then throw (JsError "Missing Firefox ID for delete from Raindrop")
  else
    let* _ := try_catch (bookmarks_remove (default "" (d_firefoxId data)))
                        (fun _ => ret tt) in
    let* link := findBookmarkLink (d_firefoxId data) (d_raindropId data) in
    match link with
    | Some link => removeBookmarkLink (bl_id link)
    | None => ret tt
    end.

(** ** Dispatch on (source, type) *)

Definition processFirefoxOperation (operation : SyncOperation) : M unit :=
  match op_type operation with
  | create => pushCreateToRaindrop (data operation)
  | update => pushUpdateToRaindrop (data operation)
  | delete => pushDeleteToRaindrop (data operation)
  | move => pushMoveToRaindrop (data operation)
  end.

Definition processRaindropOperation (operation : SyncOperation) : M unit :=
  match op_type operation with
  | create => pullCreateFromRaindrop (data operation)
  | update => pullUpdateFromRaindrop (data operation)
  | delete => pullDeleteFromRaindrop (data operation)
  | move => ret tt
  end.

Definition processOperation (operation : SyncOperation) : M unit :=
  match op_source operation with
  | firefox => processFirefoxOperation operation
  | raindrop => processRaindropOperation operation
  end.

(** ** The processing loop *)

(** The local variable [queue] of [processQueue] refers to a value read from
    storage, or to the module object [DEFAULT_SYNC_QUEUE]; in the second case
    the loop sees what [removeFromQueue] and [moveToFailed] do to it. *)
Inductive QueueRef : Type :=
  | Stored (q : SyncQueue)
  | TheDefault.

Definition getQueue_ref : M QueueRef :=
  gets (fun w =>
    match sync_queue (local w) with
    | Some q => Stored q
    | None => TheDefault
    end).

Definition deref (queue : QueueRef) (w : World) : SyncQueue :=
  match queue with
  | Stored q => q
  | TheDefault => DEFAULT_SYNC_QUEUE w
  end.

Definition operation_label (operation : SyncOperation) : string :=
  (OpType_string (op_type operation) ++ " " ++
   EntityType_string (entityType operation))%string.

(** The body of the [for] loop: the inner [try] and [catch]. *)
Definition iteration (queue : QueueRef) (i : nat) (operation : SyncOperation)
  : M unit :=
  try_catch
    (let* _ := processOperation operation in
     let* _ := removeFromQueue (op_id operation) in
     let* len := gets (fun w => Z.of_nat (length (pending (deref queue w)))) in
     let* now := Date_now in
     let* _ := updateSyncStats
                 (mkStatsUpdates None (Some (len - (Z.of_nat i + 1))) None
                                 (Some now) (Some success) None) in
     ret tt)
    (fun error =>
       let errorMessage := message_of error in
       let* _ := moveToFailed (op_id operation) errorMessage in
       let* now := Date_now in
       addSyncError
         (mkSyncError now (operation_label operation) errorMessage
                      (Some (data operation)))).

(** [for (let i = ...; i < queue.pending.length; i++)], with [fuel] a bound on
    the number of iterations. *)
Fixpoint process_from (fuel : nat) (queue : QueueRef) (i : nat) : M unit :=
  match fuel with
  | O => ret tt
  | S fuel' =>
      let* pending_now := gets (fun w => pending (deref queue w)) in
      match nth_error pending_now i with
      | None => ret tt
      | Some operation =>
          let* _ := iteration queue i operation in
          process_from fuel' queue (S i)
      end
  end.

(** What [processQueue] does once it holds the lock. *)
Definition process_pending : M unit :=
  let* _ := setSyncing true in
  try_finally
    (try_catch
       (let* queue := getQueue_ref in
        let* n := gets (fun w => length (pending (deref queue w))) in
        if Nat.eqb n 0 then ret tt
        else process_from n queue 0)
       (fun _ => ret tt))
    (let* _ := releaseLock in setSyncing false).

Definition processQueue : M unit :=
  let* acquired := acquireLock in
  if negb acquired then ret tt
  else process_pending.

Definition forceProcess : M unit :=
  let* _ := releaseLock in processQueue.

End OnPlatform.

End Queue.

Export Queue.

(* ================================================================== *)
(** * background/syncManager.ts: the incremental pull *)
(* ================================================================== *)

Module Sync.

Record PullSyncResult : Type := mkPull {
  created : Z;
  updated : Z;
  deleted : Z;
  pull_errors : list string
}.

(** The mutable locals of the pass: the set [linkedUrls] and [result]. *)
Record PullState : Type := mkPullState {
  linkedUrls : gset string;
  result : PullSyncResult
}.

Definition add_created (normalizedUrl : string) (st : PullState) : PullState :=
  let r := result st in
  mkPullState ({[ normalizedUrl ]} ∪ linkedUrls st)
    (mkPull (created r + 1) (updated r) (deleted r) (pull_errors r)).

Definition add_updated (st : PullState) : PullState :=
  let r := result st in
  mkPullState (linkedUrls st)
    (mkPull (created r) (updated r + 1) (deleted r) (pull_errors r)).

Definition add_deleted (st : PullState) : PullState :=
  let r := result st in
  mkPullState (linkedUrls st)
    (mkPull (created r) (updated r) (deleted r + 1) (pull_errors r)).

Definition add_error (msg : string) (st : PullState) : PullState :=
  let r := result st in
  mkPullState (linkedUrls st)
    (mkPull (created r) (updated r) (deleted r) (pull_errors r ++ [msg])).

(** [for (const x of l) { ... }] over mutable locals. *)
Fixpoint for_of {A S} (body : S -> A -> M S) (l : list A) (st : S) : M S :=
  match l with
  | [] => ret st
  | x :: l' => let* st' := body st x in for_of body l' st'
  end.

(** [for (const link of links) map.set(link.raindropId, link)] *)
Definition index_by_raindropId (links : list BookmarkLink) : gmap Z BookmarkLink :=
  fold_left (fun m l => <[ raindropId l := l ]> m) links ∅.

Definition index_by_id (raindrops : list Raindrop) : gmap Z Raindrop :=
  fold_left (fun m r => <[ _id r := r ]> m) raindrops ∅.

Section OnPlatform.

Context {platform : Platform}.

(** [for (const link of allLinks) if (link.url) linkedUrls.add(normalizeUrl(link.url))] *)
Definition initial_linkedUrls (allLinks : list BookmarkLink) : gset string :=
  fold_left
    (fun s l => if truthy_str (Some (url l)) then {[ normalizeUrl (url l) ]} ∪ s else s)
    allLinks ∅.

(** The body of the loop over the fetched items. *)
Definition pull_item (mapping : FolderMapping)
  (globalLinksByRaindropId localLinksByRaindropId : gmap Z BookmarkLink)
  (st : PullState) (item : Raindrop) : M PullState :=
  let globalLink := globalLinksByRaindropId !! _id item in
  let localLink := localLinksByRaindropId !! _id item in
  match globalLink with
  | None =>
      let normalizedUrl := normalizeUrl (link item) in
      if bool_decide (normalizedUrl ∈ linkedUrls st) then ret st
      else
        try_catch
          (let* bookmark_id :=
             bookmarks_create (firefoxFolderId mapping) (r_title item) (link item) in
           let* id := generateId in
           let* now := Date_now in
           let* _ := addBookmarkLink
                       (mkBookmarkLink id bookmark_id (_id item) (link item)
                          (r_title item) now
                          (computeRaindropHash (link item) (r_title item))
                          synced (fm_id mapping) None) in
           ret (add_created normalizedUrl st))
          (fun error =>
             ret (add_error ("Failed to create bookmark: " ++ render error)%string st))
  | Some _ =>
      match localLink with
      | Some localLink =>
          let currentHash := computeRaindropHash (link item) (r_title item) in
          if negb (String.eqb currentHash (contentHash localLink)) then
            try_catch
              (let* _ := bookmarks_update (firefoxId localLink)
                           (r_title item) (link item) in
               let* now := Date_now in
               let* _ := updateBookmarkLink (bl_id localLink)
                           (mkLinkUpdates (Some (link item)) (Some (r_title item))
                              (Some now) (Some currentHash) (Some synced) None) in
               ret (add_updated st))
              (fun error =>
                 ret (add_error ("Failed to update bookmark: " ++ render error)%string st))
          else ret st
      | None => ret st
      end
  end.

(** The body of the loop over the links of the mapping. *)
Definition pull_deleted (raindropById : gmap Z Raindrop)
  (st : PullState) (l : BookmarkLink) : M PullState :=
  match raindropById !! raindropId l with
  | Some _ => ret st
  | None =>
      try_catch
        (let* _ := bookmarks_remove (firefoxId l) in
         let* _ := removeBookmarkLink (bl_id l) in
         ret (add_deleted st))
        (fun _ =>
           let* _ := removeBookmarkLink (bl_id l) in
           ret (add_deleted st))
  end.

Definition pullSyncForMapping (mapping : FolderMapping) : M PullSyncResult :=
  let* raindrops := getAllRaindropsInCollection (raindropCollectionId mapping) in
  let* localLinks := getBookmarkLinksForMapping (fm_id mapping) in
  let* allLinks := getBookmarkLinks in
  let globalLinksByRaindropId := index_by_raindropId allLinks in
  let localLinksByRaindropId := index_by_raindropId localLinks in
  let raindropById := index_by_id raindrops in
  let st0 := mkPullState (initial_linkedUrls allLinks) (mkPull 0 0 0 []) in
  let* st1 := for_of (pull_item mapping globalLinksByRaindropId localLinksByRaindropId)
                     raindrops st0 in
  let* st2 := for_of (pull_deleted raindropById) localLinks st1 in
  let* now := Date_now in
  let* _ := updateFolderMapping (fm_id mapping) now in
  ret (result st2).

End OnPlatform.

End Sync.

Export Sync.

(* ================================================================== *)
(** * Vocabulary of the properties *)
(* ================================================================== *)

(** No two links share a local id, no two share a remote id. *)
Definition unique_ids (links : list BookmarkLink) : Prop :=
  NoDup (map firefoxId links) /\ NoDup (map raindropId links).

(** The add and remove operations of the registry, and their sequences. *)
Inductive LinkOp : Type :=
  | AddLink (link : BookmarkLink)
  | RemoveLink (linkId : string).

Definition run_op (o : LinkOp) : M unit :=
  match o with
  | AddLink link => addBookmarkLink link
  | RemoveLink linkId => removeBookmarkLink linkId
  end.

Fixpoint run_ops (os : list LinkOp) : M unit :=
  match os with
  | [] => ret tt
  | o :: os' => let* _ := run_op o in run_ops os'
  end.

(** The key on which [addToQueue] deduplicates. *)
Definition op_key (op : SyncOperation)
  : OpType * OpSource * option string * option Z :=
  (op_type op, op_source op, d_firefoxId (data op), d_raindropId (data op)).

Definition count_key (operation : SyncOperation) (l : list SyncOperation) : nat :=
  length (List.filter (same_key operation) l).

Definition has_id (operationId : string) (op : SyncOperation) : bool :=
  String.eqb (op_id op) operationId.

Definition with_totalSynced (n : Z) (s : SyncStats) : SyncStats :=
  mkStats n (pendingOperations s) (failedOperations s) (lastSyncTime s)
          (lastSyncStatus s) (errors s).

(** ** Frame conditions on the queue objects *)

(** The two objects a [getQueue] can return: the stored queue and the
    module's default. *)
Definition queue_objects (w : World) : option SyncQueue * SyncQueue :=
  (sync_queue (local w), DEFAULT_SYNC_QUEUE w).

Definition keeps_queue {A} (m : M A) : Prop :=
  forall w, queue_objects (snd (m w)) = queue_objects w.

(** The number of pending operations that the loop of [processQueue] reads
    through its local variable. *)
Definition seen_length (queue : QueueRef) (w : World) : nat :=
  length (pending (deref queue w)).

Definition never_grows {A} (queue : QueueRef) (m : M A) : Prop :=
  forall w, (seen_length queue (snd (m w)) <= seen_length queue w)%nat.

(** The world after [acquireLock] has read the clock twice and written a new
    lock. *)
Definition reclaimed (w : World) : World :=
  set_local (put_lock (Some (clock w (S (ticks w))))) (set_ticks (S (S (ticks w))) w).

(** ** Sample worlds *)

(** The platform of the sample runs: its URL class accepts the URLs of the
    model and throws on every other string. *)
Definition sample_platform : Platform := {| try_beyond := fun _ => None |}.

Module Sample.

Definition tag (n : nat) : string := str (repeat "i"%char n).

Definition sample_ids (n : nat) : string := ("link-" ++ tag n)%string.

Definition sample_clock (n : nat) : Z := 1000000 + Z.of_nat n.

(** An environment in which every call succeeds. *)
Definition quiet : Env :=
  mkEnv
    (fun history c =>
       match c with
       | CreateRaindrop l t _ =>
           Returned (mkRaindrop (1000 + Z.of_nat (length history)) l t)
       | GetRaindrop id => Returned (mkRaindrop id "https://example.com/item" "Item")
       | _ => Throws (Thrown "undefined")
       end)
    (fun _ _ => Returned [])
    (fun history _ => Returned ("bookmark-" ++ tag (length history))%string)
    (fun _ _ => Returned tt).

(** An environment in which the remote service and the bookmark store reject
    every call. *)
Definition rejecting : Env :=
  mkEnv (fun _ _ => Throws (JsError "404"))
        (fun _ _ => Throws (JsError "404"))
        (fun _ _ => Throws (JsError "404"))
        (fun _ _ => Throws (JsError "404")).

Definition empty_storage : LocalStorage := mkLocal None None None None None.

Definition world_with (s : LocalStorage) (e : Env) : World :=
  mkWorld s initial_DEFAULT_SYNC_QUEUE initial_DEFAULT_SYNC_STATS 0
          sample_clock 0 sample_ids 0 e [].

Definition delete_7 : SyncOperation :=
  mkOp "op-1" delete firefox bookmark
       (mkData (Some "ff-1") (Some 7) None None None None None None None)
       0 0 3 None.

Definition link_7 : BookmarkLink :=
  mkBookmarkLink "l-7" "ff-1" 7 "https://example.com/a" "A" 0 "0" synced "m-1" None.

End Sample.

(** ** The claims that the code does not satisfy as they are stated *)

(** The test that opens [pushCreateToRaindrop]. *)
Definition missing_create_fields (d : SyncOperationData) : bool :=
  negb (truthy_str (d_url d)) || negb (truthy_str (d_title d)) ||
  negb (truthy_num (d_collectionId d)) || negb (truthy_str (d_firefoxId d)).

Definition MISSING_CREATE_DATA : string :=
  "Missing required data for create operation".

(** The message with which the handler of an operation rejects its data, when
    a field it requires is missing: the tests that open the seven handlers. *)
Definition rejection (operation : SyncOperation) : option string :=
  let d := data operation in
  let unless (ok : bool) (message : string) :=
    if ok then None else Some message in
  match op_source operation, op_type operation with
  | firefox, create =>
      unless (negb (missing_create_fields d)) MISSING_CREATE_DATA
  | firefox, update =>
      unless (truthy_num (d_raindropId d)) "Missing raindrop ID for update operation"
  | firefox, delete =>
      unless (truthy_num (d_raindropId d)) "Missing raindrop ID for delete operation"
  | firefox, move =>
      unless (truthy_num (d_raindropId d) && truthy_num (d_newCollectionId d))
             "Missing data for move operation"
  | raindrop, create =>
      unless (truthy_num (d_raindropId d) && truthy_str (d_parentFolderId d))
             "Missing data for create from Raindrop"
  | raindrop, update =>
      unless (truthy_str (d_firefoxId d) && truthy_num (d_raindropId d))
             "Missing data for update from Raindrop"
  | raindrop, delete =>
      unless (truthy_str (d_firefoxId d)) "Missing Firefox ID for delete from Raindrop"
  | raindrop, move => None
  end.

(** The lock lets [processQueue] in: none is stored, or the stored one has
    reached the staleness threshold. *)
Definition lock_open (w : World) : Prop :=
  match queue_processing_lock (local w) with
  | None => True
  | Some lock_timestamp =>
      PROCESSING_LOCK_TIMEOUT <= clock w (ticks w) - lock_timestamp
  end.

(** What one iteration of the loop of [processQueue] does to the queue, for
    an operation with the id [operationId] whose handler has had the outcome
    [handled]: [removeFromQueue] after a return, [moveToFailed] after a
    throw. *)
Definition queue_step (operationId : string) (handled : Outcome unit)
  (q q' : SyncQueue) : Prop :=
  let gone := fun op => negb (has_id operationId op) in
  match handled with
  | Returned _ =>
      q' = mkQueue (List.filter gone (pending q)) (List.filter gone (failed q))
  | Throws e =>
      match find (has_id operationId) (pending q) with
      | None => q' = q
      | Some op =>
          let counted := record_failure (message_of e) op in
          q' = if retries op + 1 >=? maxRetries op
               then mkQueue (List.filter gone (pending q))
                      (drop (length (failed q ++ [counted]) - 100)
                            (failed q ++ [counted]))
               else mkQueue (update_first (has_id operationId)
                               (record_failure (message_of e)) (pending q))
                      (failed q)
      end
  end.

Section OnPlatform.

Context {platform : Platform}.

(** "Processing it does not increment a retry counter and does not place it
    in the failed partition", for one run of [processQueue]. *)
Definition never_counted (operation : SyncOperation) (w : World) : Prop :=
  let w' := snd (processQueue w) in
  (forall op, In op (pending (queue_of w') ++ failed (queue_of w')) ->
     op_id op = op_id operation -> retries op = retries operation) /\
  (forall op, In op (failed (queue_of w')) -> op_id op <> op_id operation).

End OnPlatform.

Module SampleQueue.

Import Sample.

(** A create operation for a bookmark without a title, after two failed
    attempts. *)
Definition create_untitled : SyncOperation :=
  mkOp "op-9" create firefox bookmark
       (mkData (Some "ff-9") None (Some "https://example.com/a") (Some "")
               (Some 5) None None None (Some "m-1"))
       0 2 3 None.

Definition world_untitled : World :=
  world_with (mkLocal None None (Some (mkQueue [create_untitled] [])) None None)
             quiet.

(** The untitled create between two deletions, the first of a linked
    bookmark. *)
Definition delete_8 : SyncOperation :=
  mkOp "op-2" delete firefox bookmark
       (mkData (Some "ff-2") (Some 8) None None None None None None None)
       0 0 3 None.

Definition world_busy : World :=
  world_with (mkLocal None (Some [link_7])
                      (Some (mkQueue [delete_7; create_untitled; delete_8] []))
                      None None)
             quiet.

End SampleQueue.

(** ** The handlers that call first *)

(** The world after the call [c] has left the extension. *)
Definition after_call (c : Call) (w : World) : World :=
  set_trace (trace w ++ [c]) w.

(** The lookup that the update, delete and move handlers make. *)
Definition looked_up (d : SyncOperationData) (w : World) : option BookmarkLink :=
  find_link (d_firefoxId d) (d_raindropId d) (links_of w).

(** The registry without the links that have the id of [l], and with the
    first link that has the id of [l] updated. *)
Definition without_link (l : BookmarkLink) (links : list BookmarkLink)
  : list BookmarkLink :=
  List.filter (fun l' => negb (String.eqb (bl_id l') (bl_id l))) links.

Definition with_link_updated (u : BookmarkLink -> LinkUpdates) (l : BookmarkLink)
  (links : list BookmarkLink) : list BookmarkLink :=
  update_first (fun l' => String.eqb (bl_id l') (bl_id l)) (apply_updates (u l)) links.

(** A run [r] of a handler from the world [w] has made the call [c] and no
    other, whatever the registry holds; its outcome is [answer]; the link is
    looked up once the call has returned, and only a link found then changes
    something else than the trace: the registry becomes [change l]. *)
Definition calls_first (r : Outcome unit * World) (w : World) (c : Call)
  (answer : Outcome unit) (d : SyncOperationData)
  (change : BookmarkLink -> list BookmarkLink -> list BookmarkLink) : Prop :=
  fst r = answer /\
  trace (snd r) = trace w ++ [c] /\
  match answer, looked_up d w with
  | Returned _, Some l => links_of (snd r) = change l (links_of w)
  | _, _ => snd r = after_call c w
  end.

(** The updates that the handlers write to the link found, at time [now]. *)
Definition pushed_update (d : SyncOperationData) (hash : string -> string -> string)
  (now : Z) (l : BookmarkLink) : LinkUpdates :=
  let url' := or_str (d_url d) (url l) in
  let title' := or_str (d_title d) (title l) in
  mkLinkUpdates (Some url') (Some title') (Some now) (Some (hash url' title'))
                (Some synced) None.

Definition pushed_move (d : SyncOperationData) (now : Z) (l : BookmarkLink)
  : LinkUpdates :=
  mkLinkUpdates None None (Some now) None (Some synced) (d_mappingId d).

Definition pulled_update (item : Raindrop) (hash : string -> string -> string)
  (now : Z) (l : BookmarkLink) : LinkUpdates :=
  mkLinkUpdates (Some (link item)) (Some (r_title item)) (Some now)
                (Some (hash (link item) (r_title item))) (Some synced) None.

(** "Already linked" for a create, "already absent" for an update or a
    delete: the state of the registry in which the work of the operation is
    done. *)
Definition already_done (operation : SyncOperation) (w : World) : Prop :=
  let d := data operation in
  match op_type operation, op_source operation with
  | create, firefox => is_Some (find_link (d_firefoxId d) None (links_of w))
  | create, raindrop => is_Some (find_link None (d_raindropId d) (links_of w))
  | update, _ | delete, _ =>
      find_link (d_firefoxId d) (d_raindropId d) (links_of w) = None
  | move, _ => False
  end.

Section OnPlatform.

Context {platform : Platform}.

(** The handler returns and no call has left the extension. *)
Definition replayed_quietly (operation : SyncOperation) (w : World) : Prop :=
  exists w', processOperation operation w = (Returned tt, w') /\ trace w' = trace w.

Definition replay_safe (operation : SyncOperation) (w : World) : Prop :=
  already_done operation w -> replayed_quietly operation w.

(** ** The pull pass, seen from one fetched item *)

Definition links_of_mapping (mapping : FolderMapping) (w : World) : list BookmarkLink :=
  List.filter (fun l => String.eqb (mappingId l) (fm_id mapping)) (links_of w).

(** The loop body of the pass that starts in world [w]. *)
Definition pass_body (mapping : FolderMapping) (w : World)
  : PullState -> Raindrop -> M PullState :=
  pull_item mapping (index_by_raindropId (links_of w))
            (index_by_raindropId (links_of_mapping mapping w)).

Definition pass_start (w : World) : PullState :=
  mkPullState (initial_linkedUrls (links_of w)) (mkPull 0 0 0 []).

Definition fetch_call (mapping : FolderMapping) : Call :=
  GetAllRaindropsInCollection (raindropCollectionId mapping).

Definition after_fetch (mapping : FolderMapping) (w : World) : World :=
  set_trace (trace w ++ [fetch_call mapping]) w.

(** What the pass does after the loop over the fetched items. *)
Definition pass_end (mapping : FolderMapping) (w : World)
  (raindrops : list Raindrop) (st1 : PullState) : M PullSyncResult :=
  let* st2 := for_of (pull_deleted (index_by_id raindrops))
                     (links_of_mapping mapping w) st1 in
  let* now := Date_now in
  let* _ := updateFolderMapping (fm_id mapping) now in
  ret (result st2).

Definition create_call (mapping : FolderMapping) (item : Raindrop) : Call :=
  BookmarksCreate (firefoxFolderId mapping) (r_title item) (link item).

(** The link that the pass stores for [item] when the bookmark store has
    answered [bookmark_id], in world [w]. *)
Definition pulled_link (mapping : FolderMapping) (item : Raindrop)
  (bookmark_id : string) (w : World) : BookmarkLink :=
  mkBookmarkLink (ids w (next_id w)) bookmark_id (_id item) (link item)
    (r_title item) (clock w (ticks w))
    (computeRaindropHash (link item) (r_title item)) synced (fm_id mapping) None.








End OnPlatform.

Module SamplePull.

Import Sample.

Definition mapping_1 : FolderMapping :=
  mkFolderMapping "m-1" "folder-1" 5 "Reading" "Reading" None 0 0 false.

Definition item_2 : Raindrop := mkRaindrop 2 "https://example.com/a" "A".



(** The same listing, with a bookmark store that accepts. *)
Definition store_accepts : Env :=
  mkEnv (fun _ _ => Throws (JsError "404"))
        (fun _ _ => Returned [item_2])
        (fun _ _ => Returned "bookmark-1")
        (fun _ _ => Returned tt).

Definition world_2 : World :=
  world_with (mkLocal (Some [mapping_1]) None None None None) store_accepts.

End SamplePull.

Module SampleLock.

Import Sample.

(** One pending delete, and a lock written long before the clock's first
    reading. *)
Definition world_stale : World :=
  world_with (mkLocal None (Some [link_7]) (Some (mkQueue [delete_7] [])) None (Some 0))
             quiet.

Definition world_linked : World :=
  world_with (mkLocal (Some [SamplePull.mapping_1]) (Some [link_7]) None None None)
             quiet.

End SampleLock.

(* ================================================================== *)
(** * background/storage.ts: the remaining registry and queue functions *)
(* ================================================================== *)

Module StorageMore.

(** ** removeFolderMapping *)

(** [m.parentMappingId && idsToRemove.has(m.parentMappingId) &&
    !idsToRemove.has(m.id)] *)
Definition joins (idsToRemove : gset string) (m : FolderMapping) : bool :=
  truthy_str (parentMappingId m) &&
  bool_decide (default "" (parentMappingId m) ∈ idsToRemove) &&
  negb (bool_decide (fm_id m ∈ idsToRemove)).

(** One run of the [for] loop inside the [do ... while]: the set, and the
    flag [added]. *)
Definition closure_pass (mappings : list FolderMapping) (idsToRemove : gset string)
  : gset string * bool :=
  fold_left
    (fun st m =>
       if joins (fst st) m then ({[ fm_id m ]} ∪ fst st, true) else st)
    mappings (idsToRemove, false).

(** [do { ... } while (added)], with a bound on the number of passes. *)
Fixpoint closure_loop (fuel : nat) (mappings : list FolderMapping)
  (idsToRemove : gset string) : gset string :=
  match fuel with
  | O => idsToRemove
  | S fuel' =>
      let '(ids, added) := closure_pass mappings idsToRemove in
      if added then closure_loop fuel' mappings ids else ids
  end.

Definition idsToRemove_of (mappingId' : string) (mappings : list FolderMapping)
  : gset string :=
  closure_loop (S (length mappings)) mappings {[ mappingId' ]}.

Definition removeFolderMapping (mappingId' : string) : M unit :=
  let* mappings := getFolderMappings in
  let idsToRemove := idsToRemove_of mappingId' mappings in
  let filtered :=
    List.filter (fun m => negb (bool_decide (fm_id m ∈ idsToRemove))) mappings in
  let* _ := saveFolderMappings filtered in
  let* links := getBookmarkLinks in
  let filteredLinks :=
    List.filter (fun l => negb (bool_decide (mappingId l ∈ idsToRemove))) links in
  _saveBookmarkLinks filteredLinks.

Definition findMappingByRaindropId (raindropCollectionId' : Z)
  : M (option FolderMapping) :=
  let* mappings := getFolderMappings in
  ret (find (fun m => raindropCollectionId m =? raindropCollectionId') mappings).

Definition findBookmarkLinkByUrl (url' : string) : M (option BookmarkLink) :=
  let* links := getBookmarkLinks in
  ret (find (fun l => String.eqb (url l) url') links).

(** ** clearQueue and retryFailed *)

Definition clearQueue : M unit := saveQueue (mkQueue [] []).

(** [op.retries = 0; op.lastError = undefined] *)
Definition reset_retries (op : SyncOperation) : SyncOperation :=
  mkOp (op_id op) (op_type op) (op_source op) (entityType op) (data op)
       (timestamp op) 0 (maxRetries op) None.

(** The failed operations are pushed onto the pending array of the object
    that [getQueue] returned, whose [failed] field is then replaced. *)
Definition retryFailed : M unit :=
  let* queue := getQueue in
  mutate_and_saveQueue
    (mkQueue (pending queue ++ map reset_retries (failed queue)) []).

(** ** clearSyncErrors *)

Definition clearSyncErrors : M unit :=
  let* _ := updateSyncStats (mkStatsUpdates None None None None None (Some [])) in
  ret tt.

End StorageMore.

Export StorageMore.

(** ** The claim C6, for one enqueue *)

(** When an operation with the tuple of [second] is pending, enqueuing
    [second] leaves the queue as it is, and exactly one pending operation
    has the tuple. *)
Definition enqueued_once (second : SyncOperation) (w : World) : Prop :=
  (exists queued, In queued (pending (queue_of w)) /\ same_key second queued = true) ->
  let w' := snd (addToQueue second w) in
  queue_of w' = queue_of w /\ count_key second (pending (queue_of w')) = 1%nat.

Module SampleRetry.

Import Sample.

(** The deletion of [delete_7], queued a second and a third time. *)
Definition again : SyncOperation :=
  mkOp "op-3" delete firefox bookmark (data delete_7) 5 0 3 None.

Definition third : SyncOperation :=
  mkOp "op-4" delete firefox bookmark (data delete_7) 9 0 3 None.

(** [delete_7] is queued and fails three times, so that it is parked as
    failed; the same deletion is queued again; then the failed operations
    are retried. *)
Definition world_retried : World :=
  let w := world_with empty_storage quiet in
  let w := snd (addToQueue delete_7 w) in
  let w := snd (moveToFailed "op-1" "404" w) in
  let w := snd (moveToFailed "op-1" "404" w) in
  let w := snd (moveToFailed "op-1" "404" w) in
  let w := snd (addToQueue again w) in
  snd (retryFailed w).

End SampleRetry.

(** The mappings that [removeFolderMapping] is meant to take away: the one
    named, and every mapping whose parent is taken away. *)
Inductive Descends (mappings : list FolderMapping) (root : string) : string -> Prop :=
  | Descends_root : Descends mappings root root
  | Descends_child (m : FolderMapping) (parent : string) :
      In m mappings -> parentMappingId m = Some parent -> parent <> "" ->
      Descends mappings root parent -> Descends mappings root (fm_id m).

(** A set of ids that loses nothing to one more pass. *)
Definition closed_under (mappings : list FolderMapping) (ids : gset string) : Prop :=
  forall m, In m mappings -> joins ids m = false.

Module SampleTree.

Definition folder (id : string) (parent : option string) (collection : Z)
  : FolderMapping :=
  mkFolderMapping id (id ++ "-folder")%string collection "F" "C" parent 0 0 true.

(** c is listed before its parent b, so that one pass is not enough. *)
Definition tree : list FolderMapping :=
  [folder "c" (Some "b") 3; folder "b" (Some "a") 2;
   folder "a" None 1; folder "z" None 9].

Definition link_in (id mapping : string) (remote : Z) : BookmarkLink :=
  mkBookmarkLink id (id ++ "-ff")%string remote "https://example.com/x" "X" 0 "0"
                 synced mapping None.

Definition world_tree : World :=
  Sample.world_with
    (mkLocal (Some tree)
             (Some [link_in "l1" "c" 1; link_in "l2" "z" 2; link_in "l3" "a" 3])
             None None None)
    Sample.quiet.

End SampleTree.

(** ** clearAllData *)

(** [browser.storage.local.clear()]: every key goes, the module objects of
    the running extension stay as they are. *)
Definition clearAllData : M unit :=
  modify (set_local (fun _ => mkLocal None None None None None)).

(** The statistics that [getSyncStats] reads before it replaces
    [totalSynced]. *)
Definition stats_of (w : World) : SyncStats :=
  default (DEFAULT_SYNC_STATS w) (sync_stats (local w)).

(** ** Invariants of asynchronous functions *)

(** [P] holds after [m] whenever it holds before, whether [m] returns or
    throws. *)
Definition invariant (P : World -> Prop) {A} (m : M A) : Prop :=
  forall w, P w -> P (snd (m w)).

Definition lock_of (w : World) : option Z := queue_processing_lock (local w).

Definition lock_is (v : option Z) (w : World) : Prop := lock_of w = v.

Definition registry_ok (w : World) : Prop := unique_ids (links_of w).

(* ================================================================== *)
(** * utils/hash.ts: isValidSyncUrl, and vocabulary for the hash *)
(* ================================================================== *)

Module HashMore.

(** [s.startsWith(p)] *)
Definition startsWith (s p : string) : bool := String.prefix p s.

Definition invalidProtocols : list string :=
  ["about:"; "chrome:"; "chrome-extension:"; "moz-extension:"; "edge:";
   "brave:"; "opera:"; "vivaldi:"; "file:"; "data:"; "javascript:"; "blob:"].

Definition isValidSyncUrl (url : string) : bool :=
  if String.eqb url "" then false
  else
    let lowerUrl := toLowerCase url in
    if existsb (fun protocol => startsWith lowerUrl protocol) invalidProtocols
    then false
    else if negb (startsWith lowerUrl "http://") && negb (startsWith lowerUrl "https://")
    then false
    else true.

End HashMore.

Export HashMore.

(** The number that a string of hexadecimal digits denotes. *)
Definition hex_value_of (c : ascii) : Z :=
  if is_digit c then code c - 48 else code c - 87.

Definition hex_number (l : list ascii) : Z :=
  fold_left (fun n c => 16 * n + hex_value_of c) l 0.

Definition is_hex_digit (c : ascii) : bool := is_digit c || between 97 102 c.

(** The 32-bit value of which [hashString] prints the digits. *)
Definition hash_value (s : string) : Z :=
  fold_left hash_step (chars s) 5381 mod 2 ^ 32.


Definition kept_params (ps : list (string * string)) : list (string * string) :=
  fold_left (fun ps param => delete_param param ps) trackingParams ps.

Definition key_leb (p q : string * string) : bool :=
  locale_leb (chars (fst p)) (chars (fst q)).

Definition key_ok (kv : string * string) : bool := forallb key_char (chars (fst kv)).

(** DJB2 with xor over unbounded integers, reduced modulo 2^32 at each
    step: the reference against which the 32-bit arithmetic of
    [hashString] is compared. *)
Definition djb2 (l : list ascii) : Z :=
  fold_left (fun h c => Z.lxor (33 * h) (code c) mod 2 ^ 32) l 5381.


(** ** The pull pass, seen from the registry *)

(** The remote item of the link is not among the fetched ones. *)
Definition vanished (fetched : list Raindrop) (l : BookmarkLink) : bool :=
  negb (existsb (Z.eqb (raindropId l)) (map _id fetched)).

Section OnPlatform.

Context {platform : Platform}.

(** Nothing to pull: every fetched item is linked, its link in this mapping
    has the content hash of the item, and every link of the mapping has its
    item among the fetched ones. *)
Definition at_rest (mapping : FolderMapping) (fetched : list Raindrop) (w : World)
  : Prop :=
  (forall item, In item fetched ->
     exists l, In l (links_of w) /\ raindropId l = _id item) /\
  (forall item l, In item fetched -> In l (links_of_mapping mapping w) ->
     raindropId l = _id item ->
     contentHash l = computeRaindropHash (link item) (r_title item)) /\
  (forall l, In l (links_of_mapping mapping w) -> vanished fetched l = false).

End OnPlatform.

Module SampleRest.

Import Sample.

Definition item_7 : Raindrop := mkRaindrop 7 "https://example.com/a" "A".

Definition item_8 : Raindrop := mkRaindrop 8 "https://example.com/b" "B".

Section OnPlatform.

Context {platform : Platform}.

Definition link_of_7 : BookmarkLink :=
  mkBookmarkLink "l-7" "ff-1" 7 "https://example.com/a" "A" 0
    (computeRaindropHash "https://example.com/a" "A") synced "m-1" None.

(** A link of another mapping, and a link of the mapping whose item is gone. *)
Definition link_elsewhere : BookmarkLink :=
  mkBookmarkLink "l-9" "ff-9" 9 "https://example.com/z" "Z" 0 "0" synced "m-2" None.

Definition link_gone : BookmarkLink :=
  mkBookmarkLink "l-5" "ff-5" 5 "https://example.com/old" "Old" 0 "0" synced "m-1" None.

Definition lists_7 : Env :=
  mkEnv (fun _ _ => Throws (JsError "404"))
        (fun _ _ => Returned [item_7])
        (fun history _ => Returned ("bookmark-" ++ tag (length history))%string)
        (fun _ _ => Returned tt).

Definition lists_7_8 : Env :=
  mkEnv (fun _ _ => Throws (JsError "404"))
        (fun _ _ => Returned [item_7; item_8])
        (fun history _ => Returned ("bookmark-" ++ tag (length history))%string)
        (fun _ _ => Returned tt).

Definition world_rest : World :=
  world_with (mkLocal (Some [SamplePull.mapping_1]) (Some [link_of_7; link_elsewhere])
                      None None None)
             lists_7.

Definition world_moving : World :=
  world_with (mkLocal (Some [SamplePull.mapping_1])
                      (Some [link_gone; link_elsewhere; link_of_7]) None None None)
             lists_7_8.

End OnPlatform.

End SampleRest.

(** Every link of the mapping either has its item among the fetched ones or
    is, up to the fields that a pass rewrites, one of [locals]. *)
Definition accounted (mapping : FolderMapping) (fetched : list Raindrop)
  (locals : list BookmarkLink) (w : World) : Prop :=
  forall l, In l (links_of w) -> mappingId l = fm_id mapping ->
    vanished fetched l = false \/
    exists l0, In l0 locals /\ bl_id l0 = bl_id l /\ raindropId l0 = raindropId l.

Definition holds (l : BookmarkLink) (w : World) : Prop := In l (links_of w).

(** No two mappings share a folder, no two share a collection. *)
Definition unique_keys (mappings : list FolderMapping) : Prop :=
  NoDup (map firefoxFolderId mappings) /\ NoDup (map raindropCollectionId mappings).

(** No two pending operations have the key on which [addToQueue]
    deduplicates. *)
Definition unique_pending (w : World) : Prop :=
  NoDup (map op_key (pending (queue_of w))).

Module SampleKeys.

Import Sample.

Definition update_7 : SyncOperation :=
  mkOp "op-2" update firefox bookmark
       (mkData (Some "ff-1") (Some 7) None (Some "New title") None None None None None)
       0 0 3 None.

Definition world_two : World :=
  world_with (mkLocal None (Some [link_7]) (Some (mkQueue [delete_7; update_7] []))
                      None None)
             rejecting.

End SampleKeys.

(* ================================================================== *)
(** * background/syncManager.ts: the matching of performInitialSync *)
(* ================================================================== *)

Module InitialSync.

(** [Bookmarks.BookmarkTreeNode], the fields that the pass reads. *)
Record BookmarkTreeNode : Type := mkNode {
  n_id : string;
  n_title : string;
  n_url : option string;
  n_type : option string
}.

(** [(b.type === 'bookmark' || (!b.type && b.url)) && b.url] *)
Definition is_bookmark (b : BookmarkTreeNode) : bool :=
  (opt_str_eqb (n_type b) (Some "bookmark") ||
   (negb (truthy_str (n_type b)) && truthy_str (n_url b))) &&
  truthy_str (n_url b).

(** A [Map] with string keys: its entries in insertion order.  [set] on a
    key that is present replaces the value where the entry stands. *)
Definition JsMap (V : Type) : Type := list (string * V).

Fixpoint map_set {V} (k : string) (v : V) (m : JsMap V) : JsMap V :=
  match m with
  | [] => [(k, v)]
  | (k', v') :: m' =>
      if String.eqb k' k then (k', v) :: m' else (k', v') :: map_set k v m'
  end.

Definition map_get {V} (k : string) (m : JsMap V) : option V :=
  match find (fun e => String.eqb (fst e) k) m with
  | Some e => Some (snd e)
  | None => None
  end.

Definition map_delete {V} (k : string) (m : JsMap V) : JsMap V :=
  List.filter (fun e => negb (String.eqb (fst e) k)) m.

Definition map_values {V} (m : JsMap V) : list V := map snd m.

Section OnPlatform.

Context {platform : Platform}.

(** [for (const raindrop of raindrops)
       raindropByUrl.set(normalizeUrl(raindrop.link), raindrop)] *)
Definition raindropByUrl_of (raindrops : list Raindrop) : JsMap Raindrop :=
  fold_left (fun m raindrop => map_set (normalizeUrl (link raindrop)) raindrop m)
            raindrops [].

(** The arrays [matched] and [onlyInFirefox] and the map, while the
    bookmarks are gone through. *)
Record Matching : Type := mkMatching {
  matched : list (BookmarkTreeNode * Raindrop);
  onlyInFirefox : list BookmarkTreeNode;
  raindropByUrl : JsMap Raindrop
}.

Definition match_bookmark (st : Matching) (bookmark : BookmarkTreeNode) : Matching :=
  if negb (truthy_str (n_url bookmark)) then st
  else
    let url := default "" (n_url bookmark) in
    if negb (isValidSyncUrl url) then st
    else
      let normalizedUrl := normalizeUrl url in
      match map_get normalizedUrl (raindropByUrl st) with
      | Some matchingRaindrop =>
          mkMatching (matched st ++ [(bookmark, matchingRaindrop)])
                     (onlyInFirefox st)
                     (map_delete normalizedUrl (raindropByUrl st))
      | None =>
          mkMatching (matched st) (onlyInFirefox st ++ [bookmark]) (raindropByUrl st)
      end.

Record InitialMatch : Type := mkInitialMatch {
  im_matched : list (BookmarkTreeNode * Raindrop);
  im_onlyInFirefox : list BookmarkTreeNode;
  im_onlyInRaindrop : list Raindrop
}.

(** From the children of the folder and the items of the collection to the
    three arrays that the rest of the pass works through. *)
Definition initial_match (firefoxBookmarks : list BookmarkTreeNode)
  (raindrops : list Raindrop) : InitialMatch :=
  let bookmarks := List.filter is_bookmark firefoxBookmarks in
  let st := fold_left match_bookmark bookmarks
                      (mkMatching [] [] (raindropByUrl_of raindrops)) in
  mkInitialMatch (matched st) (onlyInFirefox st) (map_values (raindropByUrl st)).

End OnPlatform.

End InitialSync.

Export InitialSync.

(** ** Vocabulary of the matching *)

Section OnPlatform.

Context {platform : Platform}.

Definition remote_url (r : Raindrop) : string := normalizeUrl (link r).

Definition local_url (b : BookmarkTreeNode) : string :=
  normalizeUrl (default "" (n_url b)).

(** The bookmarks that the matching looks at. *)
Definition syncable (b : BookmarkTreeNode) : bool :=
  is_bookmark b && isValidSyncUrl (default "" (n_url b)).

(** [x] is the last element of the list with its key. *)
Definition last_with {A} (key : A -> string) (l : list A) (x : A) : Prop :=
  exists before after, l = before ++ x :: after /\
    forall y, In y after -> key y <> key x.

(** The map that a loop of [set] calls builds from a list. *)
Definition keyed_map {A} (key : A -> string) (l : list A) : JsMap A :=
  fold_left (fun m x => map_set (key x) x m) l [].

(** The item is the last one of the list with its normalized URL. *)
Definition last_with_url (raindrops : list Raindrop) (r : Raindrop) : Prop :=
  last_with remote_url raindrops r.

(** The remote items that the pass goes on with. *)
Definition used_items (res : InitialMatch) : list Raindrop :=
  map snd (im_matched res) ++ im_onlyInRaindrop res.

Definition entry_of (r : Raindrop) : string * Raindrop := (remote_url r, r).

End OnPlatform.

Module SampleMatch.

Definition page (id url : string) : BookmarkTreeNode :=
  mkNode id id (Some url) (Some "bookmark").

Definition children : list BookmarkTreeNode :=
  [page "b1" "https://example.com/a/";
   mkNode "f1" "Folder" None (Some "folder");
   page "b2" "about:config";
   page "b3" "https://Example.com/a";
   page "b4" "https://example.com/c"].

Definition items : list Raindrop :=
  [mkRaindrop 1 "https://example.com/a" "A";
   mkRaindrop 2 "https://example.com/b" "B";
   mkRaindrop 3 "https://example.com/a#top" "A again"].

End SampleMatch.

(** The test of the loop on a bookmark: a URL, and one that is synced. *)
Definition valid (b : BookmarkTreeNode) : bool :=
  truthy_str (n_url b) && isValidSyncUrl (default "" (n_url b)).

Section OnPlatform.

Context {platform : Platform}.

(** The entries of the map are neither lost nor repeated by the loop, and
    every pair matched so far has one normalized URL. *)
Definition good (m0 : JsMap Raindrop) (st : Matching) : Prop :=
  Permutation (map entry_of (map snd (matched st)) ++ raindropByUrl st) m0 /\
  forall b r, In (b, r) (matched st) -> valid b = true /\ local_url b = remote_url r.

End OnPlatform.

(* ================================================================== *)
(** * utils/logger.ts *)
(* ================================================================== *)

Module LoggerModel.

Inductive LogLevel : Type := lvl_debug | lvl_info | lvl_warn | lvl_error.

Record LogEntry : Type := mkLogEntry {
  le_timestamp : string;
  le_level : LogLevel;
  le_message : string;
  le_data : option string
}.

(** A line on the console: the method, the formatted message, and the data
    when some was passed. *)
Record ConsoleLine : Type := mkLine {
  cl_method : LogLevel;
  cl_text : string;
  cl_data : option string
}.

(** The fields of the class, the clock behind [new Date().toISOString()]
    and the console. *)
Record Logger : Type := mkLogger {
  debugMode : bool;
  prefix : string;
  logHistory : list LogEntry;
  maxHistorySize : Z;
  date : nat -> string;
  dates : nat;
  console : list ConsoleLine
}.

Definition initial_logger (date' : nat -> string) : Logger :=
  mkLogger false "[RaindropSync]" [] 100 date' 0 [].

Definition setDebugMode (enabled : bool) (s : Logger) : Logger :=
  mkLogger enabled (prefix s) (logHistory s) (maxHistorySize s)
           (date s) (dates s) (console s).

Definition isDebugMode (s : Logger) : bool := debugMode s.

(** [level.toUpperCase()] *)
Definition level_upper (level : LogLevel) : string :=
  match level with
  | lvl_debug => "DEBUG"
  | lvl_info => "INFO"
  | lvl_warn => "WARN"
  | lvl_error => "ERROR"
  end.

(** [new Date().toISOString()] *)
Definition toISOString_now (s : Logger) : string * Logger :=
  (date s (dates s),
   mkLogger (debugMode s) (prefix s) (logHistory s) (maxHistorySize s)
            (date s) (S (dates s)) (console s)).

Definition formatMessage (level : LogLevel) (message : string) (s : Logger)
  : string * Logger :=
  let '(timestamp, s) := toISOString_now s in
  ((prefix s ++ " [" ++ timestamp ++ "] [" ++ level_upper level ++ "] " ++ message)%string,
   s).

Definition addToHistory (level : LogLevel) (message : string) (data : option string)
  (s : Logger) : Logger :=
  let '(timestamp, s) := toISOString_now s in
  let entry := mkLogEntry timestamp level message data in
  let pushed := logHistory s ++ [entry] in
  let history :=
    if Z.of_nat (length pushed) >? maxHistorySize s then tl pushed else pushed in
  mkLogger (debugMode s) (prefix s) history (maxHistorySize s)
           (date s) (dates s) (console s).

(** [console.log], [console.info], [console.warn] or [console.error], with
    the data as a second argument when it is not [undefined]. *)
Definition print (level : LogLevel) (message : string) (data : option string)
  (s : Logger) : Logger :=
  let '(text, s) := formatMessage level message s in
  mkLogger (debugMode s) (prefix s) (logHistory s) (maxHistorySize s)
           (date s) (dates s) (console s ++ [mkLine level text data]).

Definition debug (message : string) (data : option string) (s : Logger) : Logger :=
  if negb (debugMode s) then s
  else print lvl_debug message data (addToHistory lvl_debug message data s).

Definition info (message : string) (data : option string) (s : Logger) : Logger :=
  print lvl_info message data (addToHistory lvl_info message data s).

Definition warn (message : string) (data : option string) (s : Logger) : Logger :=
  print lvl_warn message data (addToHistory lvl_warn message data s).

Definition error (message : string) (data : option string) (s : Logger) : Logger :=
  print lvl_error message data (addToHistory lvl_error message data s).

Definition getHistory (s : Logger) : list LogEntry := logHistory s.

Definition clearHistory (s : Logger) : Logger :=
  mkLogger (debugMode s) (prefix s) [] (maxHistorySize s)
           (date s) (dates s) (console s).

End LoggerModel.

(** The calls that the rest of the extension makes on the logger. *)
Inductive LoggerCall : Type :=
  | CallSetDebugMode (enabled : bool)
  | CallLog (level : LoggerModel.LogLevel) (message : string) (data : option string)
  | CallClearHistory.

Definition logger_call (c : LoggerCall) (s : LoggerModel.Logger) : LoggerModel.Logger :=
  match c with
  | CallSetDebugMode enabled => LoggerModel.setDebugMode enabled s
  | CallLog LoggerModel.lvl_debug message data => LoggerModel.debug message data s
  | CallLog LoggerModel.lvl_info message data => LoggerModel.info message data s
  | CallLog LoggerModel.lvl_warn message data => LoggerModel.warn message data s
  | CallLog LoggerModel.lvl_error message data => LoggerModel.error message data s
  | CallClearHistory => LoggerModel.clearHistory s
  end.

Definition logger_calls (cs : list LoggerCall) (s : LoggerModel.Logger)
  : LoggerModel.Logger :=
  fold_left (fun s c => logger_call c s) cs s.

(** The call reaches the history: every level but [debug], and [debug] when
    the debug mode is on. *)
Definition recorded (c : LoggerCall) (s : LoggerModel.Logger) : bool :=
  match c with
  | CallLog LoggerModel.lvl_debug _ _ => LoggerModel.debugMode s
  | CallLog _ _ _ => true
  | _ => false
  end.

(** The history is within its bound, and the bound is the one of the class. *)
Definition logger_ok (s : LoggerModel.Logger) : Prop :=
  (length (LoggerModel.logHistory s) <= 100)%nat /\ LoggerModel.maxHistorySize s = 100.

(* ================================================================== *)
(** * background/syncManager.ts: syncFolderWithChildren *)
(* ================================================================== *)

Module NestedSync.

(** [Collection], the fields that the pass reads. *)
Record Collection : Type := mkCollection {
  c_id : Z;
  c_title : string;
  c_parent : option Z
}.

(** The calls of the pass to the remote service and to the bookmark store,
    answered from the calls of the pass made before. *)
Inductive TreeCall : Type :=
  | GetAllCollections
  | GetChildren (folderId : string)
  | CreateCollection (title : string) (parent : option Z).

Record TreeEnv : Type := mkTreeEnv {
  on_collections : list TreeCall -> Outcome (list Collection);
  on_children : list TreeCall -> string -> Outcome (list BookmarkTreeNode);
  on_collection : list TreeCall -> string -> option Z -> Outcome Collection
}.

(** The array [collectionsCache], which the recursive calls share, and the
    calls made so far. *)
Record TreeState : Type := mkTreeState {
  collectionsCache : list Collection;
  tree_trace : list TreeCall
}.

Definition called (c : TreeCall) (ts : TreeState) : TreeState :=
  mkTreeState (collectionsCache ts) (tree_trace ts ++ [c]).

Definition MAX_SYNC_DEPTH : Z := 5.

(** The test of [collectionsCache.find]. *)
Definition matches (raindropParentId : option Z) (title : string) (c : Collection)
  : bool :=
  let matchesTitle := String.eqb (toLowerCase (c_title c)) (toLowerCase title) in
  let matchesParent :=
    if truthy_num raindropParentId
    then opt_num_eqb (c_parent c) raindropParentId
    else match c_parent c with None => true | Some _ => false end in
  matchesTitle && matchesParent.

Definition Walk : Type := (list FolderMapping * TreeState)%type.

(** The body of the loop over the children, with [recur] the recursive
    call. *)
Definition sync_child
  (recur : string -> option Z -> option string -> Z -> TreeState -> M Walk)
  (e : TreeEnv) (raindropParentId : option Z) (parentMappingId' : option string)
  (depth' : Z) (acc : Walk) (child : BookmarkTreeNode) : M Walk :=
  let '(mappings, ts) := acc in
  if opt_str_eqb (n_type child) (Some "folder") then
    let existingCollection :=
      find (matches raindropParentId (n_title child)) (collectionsCache ts) in
    let* found :=
      match existingCollection with
      | Some c => ret (c_id c, c_title c, ts)
      | None =>
          let parent := if truthy_num raindropParentId then raindropParentId else None in
          match on_collection e (tree_trace ts) (n_title child) parent with
          | Throws err => throw err
          | Returned newCollection =>
              ret (c_id newCollection, n_title child,
                   mkTreeState (collectionsCache ts ++ [newCollection])
                               (tree_trace ts ++ [CreateCollection (n_title child) parent]))
          end
      end in
    let '(collectionId, collectionName, ts) := found in
    let* id := generateId in
    let mapping :=
      mkFolderMapping id (n_id child) collectionId (n_title child) collectionName
        (if truthy_str parentMappingId' then parentMappingId' else None)
        (depth' + 1) 0 true in
    let* _ := addFolderMapping mapping in
    let mappings := mappings ++ [mapping] in
    let* below := recur (n_id child) (Some collectionId) (Some (fm_id mapping))
                        (depth' + 1) ts in
    let '(childMappings, ts) := below in
    ret (mappings ++ childMappings, ts)
  else ret (mappings, ts).

(** [fuel] bounds the nesting of the calls; [MAX_SYNC_DEPTH - depth] levels
    are all that the test on [depth] lets through. *)
Fixpoint _syncFolderWithChildrenCached (fuel : nat) (e : TreeEnv)
  (firefoxFolderId' : string) (raindropParentId : option Z)
  (parentMappingId' : option string) (depth' : Z) (ts : TreeState) : M Walk :=
  if depth' >=? MAX_SYNC_DEPTH then ret ([], ts)
  else
    match fuel with
    | O => ret ([], ts)
    | S fuel' =>
        match on_children e (tree_trace ts) firefoxFolderId' with
        | Throws err => throw err
        | Returned children =>
            for_of (sync_child (_syncFolderWithChildrenCached fuel' e) e
                               raindropParentId parentMappingId' depth')
                   children ([], called (GetChildren firefoxFolderId') ts)
        end
    end.

Definition syncFolderWithChildren (e : TreeEnv) (firefoxFolderId' : string)
  (raindropParentId : option Z) (parentMappingId' : option string) (depth' : Z)
  : M (list FolderMapping) :=
  if depth' >=? MAX_SYNC_DEPTH then ret []
  else
    match on_collections e [] with
    | Throws err => throw err
    | Returned collectionsCache' =>
        let* walk := _syncFolderWithChildrenCached
                       (Z.to_nat (MAX_SYNC_DEPTH - depth')) e firefoxFolderId'
                       raindropParentId parentMappingId' depth'
                       (mkTreeState collectionsCache' [GetAllCollections]) in
        ret (fst walk)
    end.

End NestedSync.

Export NestedSync.

(** The depths that the pass gives to the mappings that it creates below
    [depth']. *)
Definition within_depth (depth' : Z) (m : FolderMapping) : Prop :=
  depth' < depth m <= MAX_SYNC_DEPTH.

(** What a walk has stored: the mappings [added], after those stored
    before, each within the depths. *)
Definition stores (depth' : Z) (w : World) (added : list FolderMapping) (w' : World)
  : Prop :=
  mappings_of w' = mappings_of w ++ added /\ Forall (within_depth depth') added.

(** What a walk stores, whether it returns or throws, and what it returns. *)
Definition walk_ok (depth' : Z) (m : M Walk) : Prop :=
  forall w, exists added,
    stores depth' w added (snd (m w)) /\
    forall ms ts', fst (m w) = Returned (ms, ts') -> ms = added.

Module SampleNested.

Definition dir (id title : string) : BookmarkTreeNode :=
  mkNode id title None (Some "folder").

(** Every folder has one sub-folder, named after it: a tree without end. *)
Definition endless : TreeEnv :=
  mkTreeEnv (fun _ => Returned [mkCollection 1 "News" None])
            (fun _ folderId => Returned [dir (folderId ++ "/n") "News";
                                         SampleMatch.page "p" "https://example.com/"])
            (fun history title parent =>
               Returned (mkCollection (100 + Z.of_nat (length history)) title parent)).

Definition world_empty : World := Sample.world_with Sample.empty_storage Sample.quiet.

End SampleNested.

(* ================================================================== *)
(** * background/bookmarkListeners.ts: the sync guard and the batching *)
(* ================================================================== *)

Module Listeners.

(** The step of [setSyncing] on the module variable [syncDepth]. *)
Definition setSyncing (value : bool) (syncDepth' : Z) : Z :=
  if value then syncDepth' + 1 else Z.max 0 (syncDepth' - 1).

Definition isSyncInProgress (syncDepth' : Z) : bool := 0 <? syncDepth'.

(** The module variables [pendingOperations] and [flushTimer]; of the timer
    only whether it is set. *)
Record Batch : Type := mkBatch {
  pendingOperations : JsMap SyncOperation;
  flushTimer : bool
}.

Definition empty_batch : Batch := mkBatch [] false.

(** [operation.data.firefoxId || operation.id] *)
Definition batch_key (operation : SyncOperation) : string :=
  or_str (d_firefoxId (data operation)) (op_id operation).

Definition scheduleQueueFlush (b : Batch) : Batch :=
  if flushTimer b then b else mkBatch (pendingOperations b) true.

Definition batchAddToQueue (operation : SyncOperation) (b : Batch) : Batch :=
  scheduleQueueFlush
    (mkBatch (map_set (batch_key operation) operation (pendingOperations b))
             (flushTimer b)).

(** The callback of the timer. *)
Definition flush (b : Batch) : M Batch :=
  let operations := map_values (pendingOperations b) in
  let* _ := for_of (fun _ op => addToQueue op) operations tt in
  ret (mkBatch [] false).

End Listeners.

(** The calls of passes that start ([true]) and end ([false]), and the
    number of passes that run after them; [None] when a pass ends that has
    not started. *)
Fixpoint running_after (calls : list bool) (n : nat) : option nat :=
  match calls with
  | [] => Some n
  | true :: calls' => running_after calls' (S n)
  | false :: calls' =>
      match n with
      | O => None
      | S n' => running_after calls' n'
      end
  end.

Definition depth_after (calls : list bool) (syncDepth' : Z) : Z :=
  fold_left (fun d value => Listeners.setSyncing value d) calls syncDepth'.

Definition batch_after (operations : list SyncOperation) : Listeners.Batch :=
  fold_left (fun b op => Listeners.batchAddToQueue op b) operations
            Listeners.empty_batch.

(* ================================================================== *)
(** * background/raindropApi.ts *)
(* ================================================================== *)

Module Api.

(** ** getAllCollections *)

(** The body of the loop: the set [seen] and the array [all]. *)
Definition dedup_step (st : gset Z * list Collection) (collection : Collection)
  : gset Z * list Collection :=
  if bool_decide (c_id collection ∈ fst st) then st
  else ({[ c_id collection ]} ∪ fst st, snd st ++ [collection]).

(** [root] and [children] are the outcomes of [getRootCollections()] and of
    [getChildCollections()]; a failure of the second is caught. *)
Definition getAllCollections (root children : Outcome (list Collection))
  : Outcome (list Collection) :=
  match root with
  | Throws err => Throws err
  | Returned root' =>
      let children' := match children with
                       | Returned l => l
                       | Throws _ => []
                       end in
      Returned (snd (fold_left dedup_step (root' ++ children') (∅, [])))
  end.

(** ** getAllRaindropsInCollection *)

Definition perPage : Z := 50.

(** [on_page collectionId page] is the outcome of
    [getRaindrops(collectionId, page, perPage)].  The loop ends on the first
    page with fewer than [perPage] items; [fuel] bounds the number of pages,
    and [None] is a loop that is still running when the fuel is spent. *)
Fixpoint pages_from (fuel : nat) (on_page : Z -> nat -> Outcome (list Raindrop))
  (collectionId : Z) (page : nat) (allRaindrops : list Raindrop)
  : option (Outcome (list Raindrop)) :=
  match fuel with
  | O => None
  | S fuel' =>
      match on_page collectionId page with
      | Throws err => Some (Throws err)
      | Returned raindrops =>
          let allRaindrops := allRaindrops ++ raindrops in
          if Z.of_nat (length raindrops) <? perPage then Some (Returned allRaindrops)
          else pages_from fuel' on_page collectionId (S page) allRaindrops
      end
  end.

Definition getAllRaindropsInCollection (fuel : nat)
  (on_page : Z -> nat -> Outcome (list Raindrop)) (collectionId : Z)
  : option (Outcome (list Raindrop)) :=
  pages_from fuel on_page collectionId 0 [].

(** ** createRaindrops *)

Record CreateRaindropData : Type := mkCreate {
  crd_link : string;
  crd_title : option string;
  crd_collection : option Z
}.

(** The answer to a bulk request: [result], and [items] when present. *)
Record BulkResponse : Type := mkBulk {
  br_result : bool;
  br_items : option (list Raindrop)
}.

Definition CHUNK_SIZE : nat := 100.

(** [on_bulk sent chunk] is the outcome of the request for [chunk] after the
    requests for the chunks [sent].  The result carries the chunks sent. *)
Fixpoint bulk_from (fuel : nat)
  (on_bulk : list (list CreateRaindropData) -> list CreateRaindropData
             -> Outcome BulkResponse)
  (items : list CreateRaindropData) (i : nat) (results : list Raindrop)
  (sent : list (list CreateRaindropData))
  : option (Outcome (list Raindrop) * list (list CreateRaindropData)) :=
  if (i <? length items)%nat then
    match fuel with
    | O => None
    | S fuel' =>
        let chunk := take CHUNK_SIZE (drop i items) in
        match on_bulk sent chunk with
        | Throws err => Some (Throws err, sent ++ [chunk])
        | Returned response =>
            let results :=
              match br_items response with
              | Some items' => if br_result response then results ++ items' else results
              | None => results
              end in
            bulk_from fuel' on_bulk items (i + CHUNK_SIZE) results (sent ++ [chunk])
        end
    end
  else Some (Returned results, sent).

Definition createRaindrops (fuel : nat)
  (on_bulk : list (list CreateRaindropData) -> list CreateRaindropData
             -> Outcome BulkResponse)
  (items : list CreateRaindropData)
  : option (Outcome (list Raindrop) * list (list CreateRaindropData)) :=
  if Nat.eqb (length items) 0 then Some (Returned [], [])
  else bulk_from fuel on_bulk items 0 [] [].

End Api.

(** ** Vocabulary of the API client *)

(** [x] is the first element of the list with its id. *)
Definition first_with_id (l : list Collection) (x : Collection) : Prop :=
  exists before after, l = before ++ x :: after /\
    forall y, In y before -> c_id y <> c_id x.

(** The items of a page, and of the pages up to one. *)
Definition page_items (on_page : Z -> nat -> Outcome (list Raindrop))
  (collectionId : Z) (page : nat) : list Raindrop :=
  match on_page collectionId page with
  | Returned l => l
  | Throws _ => []
  end.

Definition pages_up_to (on_page : Z -> nat -> Outcome (list Raindrop))
  (collectionId : Z) (last_page : nat) : list Raindrop :=
  concat (map (page_items on_page collectionId) (seq 0 (S last_page))).

(** The page is answered, with at least [perPage] items. *)
Definition full_page (on_page : Z -> nat -> Outcome (list Raindrop))
  (collectionId : Z) (page : nat) : Prop :=
  exists l, on_page collectionId page = Returned l /\
            Api.perPage <= Z.of_nat (length l).

Module SampleApi.

Definition item (n : nat) : Raindrop :=
  mkRaindrop (Z.of_nat n) ("https://example.com/" ++ Sample.tag n)%string "T".

(** Page 0 holds fifty items, page 1 three, every further page none. *)
Definition two_pages (collectionId : Z) (page : nat) : Outcome (list Raindrop) :=
  match page with
  | O => Returned (map item (seq 0 50))
  | S O => Returned (map item (seq 50 3))
  | _ => Returned []
  end.

Definition always_full (collectionId : Z) (page : nat) : Outcome (list Raindrop) :=
  Returned (map item (seq (50 * page) 50)).

Definition accepts_all (sent : list (list Api.CreateRaindropData))
  (chunk : list Api.CreateRaindropData) : Outcome Api.BulkResponse :=
  Returned (Api.mkBulk true (Some (map (fun d => mkRaindrop 0 (Api.crd_link d) "T") chunk))).

End SampleApi.

(** A chunk of a bulk request: at least one item, at most [CHUNK_SIZE]. *)
Definition chunk_ok (chunk : list Api.CreateRaindropData) : Prop :=
  (1 <= length chunk <= Api.CHUNK_SIZE)%nat.

(** ** RateLimiter *)

Module RateLimiter.

Definition RATE_LIMIT_WINDOW : Z := 60 * 1000.
Definition MAX_REQUESTS_PER_WINDOW : Z := 120.

(** [this.requests.filter((time) => now - time < RATE_LIMIT_WINDOW)] *)
Definition recent (now : Z) (requests : list Z) : list Z :=
  List.filter (fun time => now - time <? RATE_LIMIT_WINDOW) requests.

(** The time for which [wait] sleeps, when it does. *)
Definition waitTime (now : Z) (requests : list Z) : option Z :=
  let requests := recent now requests in
  if Z.of_nat (length requests) >=? MAX_REQUESTS_PER_WINDOW then
    let oldestRequest := hd 0 requests in
    Some (RATE_LIMIT_WINDOW - (now - oldestRequest) + 100)
  else None.

(** [wait()], with [now] the reading of the clock on entry and [pushed] the
    reading that is pushed. *)
Definition wait (now pushed : Z) (requests : list Z) : list Z :=
  recent now requests ++ [pushed].

End RateLimiter.

(** The calls of [wait], each with its two readings of the clock, and the
    field [requests] after them. *)
Definition waits (calls : list (Z * Z)) (requests : list Z) : list Z :=
  fold_left (fun requests c => RateLimiter.wait (fst c) (snd c) requests) calls requests.

(** The clock does not run backwards, the calls do not overlap, and a sleep
    lasts at least the time asked for. *)
Fixpoint timely (calls : list (Z * Z)) (last : Z) (requests : list Z) : Prop :=
  match calls with
  | [] => True
  | (now, pushed) :: calls' =>
      last <= now /\
      now + default 0 (RateLimiter.waitTime now requests) <= pushed /\
      timely calls' pushed (RateLimiter.wait now pushed requests)
  end.

(** The requests of the list made less than a window before [t]. *)
Definition in_window (t : Z) (made : list Z) : list Z :=
  List.filter (fun time => t - time <? RateLimiter.RATE_LIMIT_WINDOW) made.

(** The requests made are those that the limiter holds and older ones. *)
Definition limiter_ok (made : list Z) (last : Z) (requests : list Z) : Prop :=
  (exists old, Permutation made (old ++ requests) /\
     forall t, In t old -> RateLimiter.RATE_LIMIT_WINDOW <= last - t) /\
  (length (in_window last requests) <= 120)%nat.

Module SampleLimiter.

Definition earlier : list (Z * Z) := [(0, 0); (10, 20)].

Definition late : Z := 61000.

End SampleLimiter.

(** ** apiRequest *)

From Stdlib Require DecimalString.

Module ApiRequest.

Definition MAX_RETRIES : Z := 3.
Definition RETRY_DELAY_BASE : Z := 1000.

(** What the [catch] clause sees: whether the error is a [TypeError] whose
    message includes "fetch", and the error. *)
Record Failure : Type := mkFailure {
  is_fetch_TypeError : bool;
  failure : exn
}.

(** The outcome of [fetch]: a rejection, or a response with its status, its
    status text, its Retry-After header and the outcome of [json()]. *)
Inductive Fetched : Type :=
  | Rejects (f : Failure)
  | Responds (status : Z) (statusText : string) (retryAfter : option string)
             (json : Failure + string).

(** [response.ok] *)
Definition ok (status : Z) : bool := (200 <=? status) && (status <=? 299).

(** [`${n}`] for an integer. *)
Definition decimal (n : Z) : string :=
  DecimalString.NilZero.string_of_int (Z.to_int n).

(** The stored token, and what one request has done so far: its calls of
    [rateLimiter.wait()], its fetches and its sleeps ([None] for a time that
    is not a number). *)
Record Client : Type := mkClient {
  token : option string;
  waits : nat;
  fetches : nat;
  sleeps : list (option Z)
}.

Definition slept (t : option Z) (c : Client) : Client :=
  mkClient (token c) (waits c) (fetches c) (sleeps c ++ [t]).

(** [Math.min(retryAfter * 1000, 120000)] *)
Definition retry_after_ms (retryAfter : option Z) : option Z :=
  match retryAfter with
  | Some n => Some (Z.min (n * 1000) 120000)
  | None => None
  end.

(** [RETRY_DELAY_BASE * Math.pow(2, retryCount)] *)
Definition backoff (retryCount : nat) : option Z :=
  Some (RETRY_DELAY_BASE * 2 ^ Z.of_nat retryCount).

(** [parseInt] is the platform's; [on_fetch n] is the outcome of the fetch
    after [n] fetches of the request.  [fuel] bounds the nesting of the
    retries; [None] is a request that is still retrying when it is spent.
    A retry is [return apiRequest(...)] without [await]: what the nested call
    throws does not pass through the [catch] of the caller. *)
Fixpoint apiRequest (fuel : nat) (parseInt : string -> option Z)
  (on_fetch : nat -> Fetched) (method endpoint : string) (retryCount : nat)
  (c : Client) : option (Outcome string * Client) :=
  let retry := fun (t : option Z) (c : Client) =>
    match fuel with
    | O => None
    | S fuel' =>
        apiRequest fuel' parseInt on_fetch method endpoint (S retryCount) (slept t c)
    end in
  let caught := fun (f : Failure) (c : Client) =>
    if (Z.of_nat retryCount <? MAX_RETRIES) && is_fetch_TypeError f
    then retry (backoff retryCount) c
    else Some (Throws (failure f), c) in
  let c := mkClient (token c) (S (waits c)) (fetches c) (sleeps c) in
  if negb (truthy_str (token c)) then
    Some (Throws (JsError "Not authenticated. Please add your Test Token in Settings."), c)
  else
    let response := on_fetch (fetches c) in
    let c := mkClient (token c) (waits c) (S (fetches c)) (sleeps c) in
    match response with
    | Rejects f => caught f c
    | Responds status statusText retryAfter json =>
        if status =? 429 then
          if Z.of_nat retryCount >=? MAX_RETRIES then
            caught (mkFailure false
                      (JsError ("Rate limited after " ++ decimal MAX_RETRIES
                                ++ " retries: " ++ method ++ " " ++ endpoint)%string)) c
          else retry (retry_after_ms (parseInt (or_str retryAfter "60"))) c
        else if negb (ok status) then
          if status =? 401 then
            caught (mkFailure false
                      (JsError "Token invalid. Please check your Test Token in Settings."))
                   (mkClient None (waits c) (fetches c) (sleeps c))
          else if (status >=? 500) && (Z.of_nat retryCount <? MAX_RETRIES) then
            retry (backoff retryCount) c
          else
            caught (mkFailure false
                      (JsError ("API request failed: " ++ decimal status ++ " "
                                ++ statusText)%string)) c
        else
          match json with
          | inr result => Some (Returned result, c)
          | inl f => caught f c
          end
    end.

End ApiRequest.

(** A client with a token, before a request. *)
Definition client_with (t : string) : ApiRequest.Client :=
  ApiRequest.mkClient (Some t) 0 0 [].

(** The fetch can be tried again: a rejection that is a network error, a
    429, or a status of 500 or more. *)
Definition retryable (r : ApiRequest.Fetched) : bool :=
  match r with
  | ApiRequest.Rejects f => ApiRequest.is_fetch_TypeError f
  | ApiRequest.Responds status _ _ json =>
      (status =? 429) ||
      (negb (ApiRequest.ok status) && negb (status =? 401) && (status >=? 500)) ||
      (ApiRequest.ok status &&
       match json with
       | inl f => ApiRequest.is_fetch_TypeError f
       | inr _ => false
       end)
  end.

(** The time slept before the retry that follows the fetch [r], made with
    [retryCount] retries behind it. *)
Definition delay (parseInt : string -> option Z) (retryCount : nat)
  (r : ApiRequest.Fetched) : option Z :=
  match r with
  | ApiRequest.Rejects _ => ApiRequest.backoff retryCount
  | ApiRequest.Responds status _ retryAfter _ =>
      if status =? 429
      then ApiRequest.retry_after_ms (parseInt (or_str retryAfter "60"))
      else ApiRequest.backoff retryCount
  end.

Module SampleRequest.

Definition busy (n : nat) : ApiRequest.Fetched :=
  ApiRequest.Responds 503 "Service Unavailable" None (inr "").

Definition recovers (n : nat) : ApiRequest.Fetched :=
  match n with
  | O => ApiRequest.Responds 429 "Too Many Requests" (Some "2") (inr "")
  | S O => ApiRequest.Rejects (ApiRequest.mkFailure true (JsError "Failed to fetch"))
  | _ => ApiRequest.Responds 200 "OK" None (inr "{}")
  end.

Definition parse (s : string) : option Z :=
  if String.eqb s "2" then Some 2 else if String.eqb s "60" then Some 60 else None.

End SampleRequest.

(** The client after the wait and the fetch of one attempt. *)
Definition attempted (c : ApiRequest.Client) : ApiRequest.Client :=
  ApiRequest.mkClient (ApiRequest.token c) (S (ApiRequest.waits c))
                      (S (ApiRequest.fetches c)) (ApiRequest.sleeps c).

Definition with_token (t : option string) (c : ApiRequest.Client) : ApiRequest.Client :=
  ApiRequest.mkClient t (ApiRequest.waits c) (ApiRequest.fetches c) (ApiRequest.sleeps c).

(** The fetch answered with a body that [json()] has read. *)
Definition answered (r : ApiRequest.Fetched) (result : string) : Prop :=
  exists status statusText retryAfter,
    r = ApiRequest.Responds status statusText retryAfter (inr result) /\
    ApiRequest.ok status = true.

Definition unauthorized (r : ApiRequest.Fetched) : Prop :=
  exists statusText retryAfter json,
    r = ApiRequest.Responds 401 statusText retryAfter json.

(* ================================================================== *)
(** * Properties of the link registry *)
(* ================================================================== *)

Section Registry.

Lemma links_of_saved links w :
  links_of (set_local (put_bookmark_links links) w) = links.
Proof. reflexivity. Qed.

Lemma link_conflict_false link links :
  existsb (link_conflict link) links = false ->
  ~ In (firefoxId link) (map firefoxId links) /\
  ~ In (raindropId link) (map raindropId links).
Proof.
  induction links as [|l links IH]; simpl; [tauto|].
  intros H. apply orb_false_elim in H as [Hl Hrest].
  apply orb_false_elim in Hl as [Hf Hr].
  apply String.eqb_neq in Hf. apply Z.eqb_neq in Hr.
  destruct (IH Hrest) as [IHf IHr]. split; intros [E|E]; auto.
Qed.

Lemma link_conflict_true link links :
  (exists l, In l links /\
     (firefoxId l = firefoxId link \/ raindropId l = raindropId link)) ->
  existsb (link_conflict link) links = true.
Proof.
  intros (l & Hin & Hid). apply existsb_exists. exists l. split; [exact Hin|].
  unfold link_conflict. destruct Hid as [E|E]; rewrite E.
  - rewrite String.eqb_refl. reflexivity.
  - rewrite Z.eqb_refl. apply orb_true_r.
Qed.

Lemma NoDup_map_filter {A B} (f : A -> B) (p : A -> bool) (l : list A) :
  NoDup (map f l) -> NoDup (map f (List.filter p l)).
Proof.
  induction l as [|x l IH]; simpl; intros H; [constructor|].
  apply NoDup_cons in H as [Hx Hl].
  destruct (p x); simpl; auto.
  apply NoDup_cons. split; auto.
  rewrite list_elem_of_In in *. intros Hin. apply Hx.
  apply in_map_iff in Hin as (y & Hy & Hyin). apply in_map_iff.
  exists y. split; [exact Hy|]. apply filter_In in Hyin. tauto.
Qed.

Lemma NoDup_map_snoc {A B} (f : A -> B) (l : list A) (x : A) :
  NoDup (map f l) -> ~ In (f x) (map f l) -> NoDup (map f (l ++ [x])).
Proof.
  intros Hl Hx. rewrite map_app. simpl. apply NoDup_app. split; [exact Hl|].
  split.
  - intros y Hy Hy'. apply list_elem_of_In in Hy.
    apply list_elem_of_In in Hy'. destruct Hy' as [E|[]]. subst. auto.
  - apply NoDup_singleton.
Qed.

Lemma addBookmarkLink_unique link w :
  unique_ids (links_of w) ->
  exists w', addBookmarkLink link w = (Returned tt, w') /\ unique_ids (links_of w').
Proof.
  intros [Hf Hr]. unfold addBookmarkLink, bind, getBookmarkLinks, gets.
  destruct (existsb (link_conflict link) (links_of w)) eqn:E; simpl.
  - exists w. split; [reflexivity|]. split; assumption.
  - eexists. split; [reflexivity|]. rewrite links_of_saved.
    apply link_conflict_false in E as [Ef Er].
    split; apply NoDup_map_snoc; assumption.
Qed.

Lemma removeBookmarkLink_unique linkId w :
  unique_ids (links_of w) ->
  exists w', removeBookmarkLink linkId w = (Returned tt, w') /\ unique_ids (links_of w').
Proof.
  intros [Hf Hr]. unfold removeBookmarkLink, bind, getBookmarkLinks, gets. simpl.
  eexists. split; [reflexivity|]. rewrite links_of_saved.
  split; apply NoDup_map_filter; assumption.
Qed.

End Registry.

(** C1. Starting from a stored link set without two links of the same local
    id and without two links of the same remote id, every sequence of
    [addBookmarkLink] and [removeBookmarkLink] operations returns and leaves
    a stored link set with the same two properties. *)
Theorem link_ids_stay_unique (os : list LinkOp) (w : World) :
  unique_ids (links_of w) ->
  exists w', run_ops os w = (Returned tt, w') /\ unique_ids (links_of w').
Proof.
  revert w. induction os as [|o os IH]; intros w Hw.
  - exists w. split; [reflexivity | exact Hw].
  - assert (exists w1, run_op o w = (Returned tt, w1) /\ unique_ids (links_of w1))
      as (w1 & Hrun & Hw1).
    { destruct o; simpl;
        [apply addBookmarkLink_unique | apply removeBookmarkLink_unique]; exact Hw. }
    destruct (IH w1 Hw1) as (w' & Hrest & Hw').
    exists w'. split; [|exact Hw'].
    simpl. unfold bind. rewrite Hrun. exact Hrest.
Qed.

(** C10. Adding a link whose local id or remote id is already stored returns
    normally and changes nothing, whereas adding a folder mapping whose
    folder or collection is already mapped throws the duplicate-mapping
    error (and stores nothing). *)
Theorem duplicate_link_is_silent_duplicate_mapping_throws
  (link : BookmarkLink) (mapping : FolderMapping) (w : World) :
  ((exists l, In l (links_of w) /\
      (firefoxId l = firefoxId link \/ raindropId l = raindropId link)) ->
   addBookmarkLink link w = (Returned tt, w)) /\
  ((exists m, In m (mappings_of w) /\
      (firefoxFolderId m = firefoxFolderId mapping \/
       raindropCollectionId m = raindropCollectionId mapping)) ->
   addFolderMapping mapping w =
     (Throws (JsError "Mapping already exists for this folder or collection"), w)).
Proof.
  split.
  - intros Hl. unfold addBookmarkLink, bind, getBookmarkLinks, gets.
    rewrite (link_conflict_true _ _ Hl). reflexivity.
  - intros (m & Hin & Hm). unfold addFolderMapping, bind, getFolderMappings, gets.
    destruct (find (mapping_conflict mapping) (mappings_of w)) eqn:E; [reflexivity|].
    exfalso. apply (find_none _ _ E) in Hin. unfold mapping_conflict in Hin.
    destruct Hm as [Hm|Hm]; rewrite Hm in Hin.
    + rewrite String.eqb_refl in Hin. discriminate.
    + rewrite Z.eqb_refl, orb_true_r in Hin. discriminate.
Qed.

(* ================================================================== *)
(** * Properties of the statistics *)
(* ================================================================== *)

(** C9. In every stored state [getSyncStats] returns, and the [totalSynced]
    field of its result is the number of stored links; when a stats record
    is persisted, the result is that record with [totalSynced] replaced. *)
Theorem getSyncStats_counts_links (w : World) (persisted : SyncStats) :
  (exists stats, getSyncStats w = (Returned stats, w) /\
     totalSynced stats = Z.of_nat (length (links_of w))) /\
  (let w' := set_local (put_sync_stats persisted) w in
   getSyncStats w' =
     (Returned (with_totalSynced (Z.of_nat (length (links_of w))) persisted), w')).
Proof.
  split.
  - eexists. split; reflexivity.
  - reflexivity.
Qed.

(* ================================================================== *)
(** * Properties of the operation queue *)
(* ================================================================== *)

Section QueueFacts.

Lemma queue_of_saved q w : queue_of (snd (mutate_and_saveQueue q w)) = q.
Proof.
  unfold mutate_and_saveQueue, modify, queue_of. simpl.
  destruct (sync_queue (local w)); reflexivity.
Qed.

Lemma mutate_and_saveQueue_run q w :
  exists w', mutate_and_saveQueue q w = (Returned tt, w') /\ queue_of w' = q.
Proof.
  eexists. split; [reflexivity|].
  unfold queue_of. simpl. destruct (sync_queue (local w)); reflexivity.
Qed.

Lemma mutate_and_saveQueue_frame q w :
  links_of (snd (mutate_and_saveQueue q w)) = links_of w /\
  trace (snd (mutate_and_saveQueue q w)) = trace w.
Proof.
  unfold mutate_and_saveQueue, modify, links_of. simpl.
  destruct (sync_queue (local w)); split; reflexivity.
Qed.

Lemma OpType_eqb_eq a b : OpType_eqb a b = true <-> a = b.
Proof. destruct a, b; simpl; split; congruence. Qed.

Lemma OpSource_eqb_eq a b : OpSource_eqb a b = true <-> a = b.
Proof. destruct a, b; simpl; split; congruence. Qed.

Lemma opt_str_eqb_eq a b : opt_str_eqb a b = true <-> a = b.
Proof.
  destruct a, b; simpl; try (split; congruence).
  rewrite String.eqb_eq. split; congruence.
Qed.

Lemma opt_num_eqb_eq a b : opt_num_eqb a b = true <-> a = b.
Proof.
  destruct a, b; simpl; try (split; congruence).
  rewrite Z.eqb_eq. split; congruence.
Qed.

Lemma same_key_spec operation op :
  same_key operation op = true <-> op_key op = op_key operation.
Proof.
  unfold same_key, op_key. rewrite !andb_true_iff.
  rewrite OpType_eqb_eq, OpSource_eqb_eq, opt_str_eqb_eq, opt_num_eqb_eq.
  split; [intros [[[-> ->] ->] ->]; reflexivity | intros E; inversion E; auto].
Qed.



Lemma find_is_Some {A} (p : A -> bool) (l : list A) (x : A) :
  In x l -> p x = true -> exists y, find p l = Some y.
Proof.
  intros Hin Hp. destruct (find p l) eqn:E; [eauto|].
  apply (find_none _ _ E) in Hin. congruence.
Qed.

Lemma addToQueue_present operation queued w :
  In queued (pending (queue_of w)) -> same_key operation queued = true ->
  addToQueue operation w = (Returned tt, w).
Proof.
  intros Hin Hk. unfold addToQueue, bind, getQueue, gets.
  destruct (find_is_Some _ _ _ Hin Hk) as (y & ->). reflexivity.
Qed.

Lemma addToQueue_absent operation w :
  find (same_key operation) (pending (queue_of w)) = None ->
  exists w', addToQueue operation w = (Returned tt, w') /\
    queue_of w' = mkQueue (pending (queue_of w) ++ [operation]) (failed (queue_of w)).
Proof.
  intros E. unfold addToQueue, bind, getQueue, gets. rewrite E.
  eexists. split; [reflexivity|].
  apply (queue_of_saved (mkQueue (pending (queue_of w) ++ [operation]) (failed (queue_of w))) w).
Qed.


End QueueFacts.


(** The claim C6 fails on a queue that [retryFailed] has filled: the
    deletion parked as failed is pending again beside the one queued in the
    meantime, and enqueuing the deletion once more leaves both. *)
Lemma duplicate_enqueue_after_retry_leaves_two :
  map op_id (pending (queue_of SampleRetry.world_retried)) = ["op-3"; "op-1"] /\
  addToQueue SampleRetry.third SampleRetry.world_retried
    = (Returned tt, SampleRetry.world_retried) /\
  count_key SampleRetry.third (pending (queue_of SampleRetry.world_retried)) = 2%nat /\
  ~ enqueued_once SampleRetry.third SampleRetry.world_retried.
Proof.
  split; [vm_compute; reflexivity|]. split; [reflexivity|].
  split; [vm_compute; reflexivity|].
  intros H.
  assert (Hqueued : exists queued,
            In queued (pending (queue_of SampleRetry.world_retried)) /\
            same_key SampleRetry.third queued = true).
  { exists SampleRetry.again. split; [vm_compute; left; reflexivity | reflexivity]. }
  destruct (H Hqueued) as [_ Hone]. vm_compute in Hone. discriminate Hone.
Qed.

Section MoveToFailed.

Lemma update_first_length {A} (p : A -> bool) (f : A -> A) (l : list A) :
  length (update_first p f l) = length l.
Proof.
  induction l as [|x l IH]; simpl; [reflexivity|].
  destruct (p x); simpl; congruence.
Qed.

Lemma filter_update_first {A} (p : A -> bool) (f : A -> A) (l : list A) :
  (forall x, p x = true -> p (f x) = true) ->
  List.filter (fun x => negb (p x)) (update_first p f l)
  = List.filter (fun x => negb (p x)) l.
Proof.
  intros Hf. induction l as [|x l IH]; simpl; [reflexivity|].
  destruct (p x) eqn:E; simpl.
  - rewrite (Hf x E). reflexivity.
  - rewrite E. simpl. congruence.
Qed.

Lemma find_after_filter {A} (p : A -> bool) (l : list A) :
  find p (List.filter (fun x => negb (p x)) l) = None.
Proof.
  induction l as [|x l IH]; simpl; [reflexivity|].
  destruct (p x) eqn:E; simpl; [exact IH|]. rewrite E. exact IH.
Qed.

Lemma update_first_In {A} (p : A -> bool) (f : A -> A) (l : list A) (x : A) :
  find p l = Some x -> In (f x) (update_first p f l).
Proof.
  induction l as [|y l IH]; simpl; [discriminate|].
  destruct (p y); [intros [= ->]; left; reflexivity | right; auto].
Qed.

Lemma slice_last_drop {A} (l : list A) :
  (if Z.of_nat (length l) >? MAX_FAILED_QUEUE
   then slice_last MAX_FAILED_QUEUE l else l)
  = drop (length l - 100) l.
Proof.
  unfold slice_last, MAX_FAILED_QUEUE.
  destruct (Z.of_nat (length l) >? 100) eqn:E.
  - f_equal. lia.
  - replace (length l - 100)%nat with 0%nat by lia. reflexivity.
Qed.

End MoveToFailed.

(** The queue that [moveToFailed] leaves when it finds the operation. *)
Lemma moveToFailed_run
  (operationId errorMessage : string) (operation : SyncOperation) (w : World) :
  find (has_id operationId) (pending (queue_of w)) = Some operation ->
  let q := queue_of w in
  let counted := record_failure errorMessage operation in
  exists w', moveToFailed operationId errorMessage w = (Returned tt, w') /\
    queue_of w' =
      (if retries operation + 1 >=? maxRetries operation
       then mkQueue
              (List.filter (fun op => negb (has_id operationId op)) (pending q))
              (drop (length (failed q ++ [counted]) - 100) (failed q ++ [counted]))
       else mkQueue
              (update_first (has_id operationId) (record_failure errorMessage) (pending q))
              (failed q)).
Proof.
  intros Hfind q counted.
  unfold moveToFailed, bind, getQueue, gets.
  change (fun op : SyncOperation => (op_id op =? operationId)%string)
    with (has_id operationId).
  rewrite Hfind. fold counted. fold q.
  change (retries counted) with (retries operation + 1).
  change (maxRetries counted) with (maxRetries operation).
  destruct (retries operation + 1 >=? maxRetries operation) eqn:E.
  - rewrite slice_last_drop.
    rewrite filter_update_first by (intros x Hx; exact Hx).
    apply mutate_and_saveQueue_run.
  - apply mutate_and_saveQueue_run.
Qed.

(** When no pending operation has the id, [moveToFailed] does nothing. *)
Lemma moveToFailed_absent (operationId errorMessage : string) (w : World) :
  find (has_id operationId) (pending (queue_of w)) = None ->
  moveToFailed operationId errorMessage w = (Returned tt, w).
Proof.
  intros Hnone. unfold moveToFailed, bind, getQueue, gets.
  change (fun op : SyncOperation => (op_id op =? operationId)%string)
    with (has_id operationId).
  rewrite Hnone. reflexivity.
Qed.

(** C5. [moveToFailed] on an operation found in the pending partition adds
    one to its retry counter and records the error text.  When the new count
    has reached [maxRetries], the operation leaves the pending partition and
    becomes the last entry of the failed partition, which keeps its last 100
    entries only, and a further [moveToFailed] for the same id changes
    nothing; when the new count is below [maxRetries], the operation stays
    pending with its new counter and the failed partition is unchanged. *)
Theorem moveToFailed_counts_then_parks
  (operationId errorMessage : string) (operation : SyncOperation) (w : World) :
  find (has_id operationId) (pending (queue_of w)) = Some operation ->
  let q := queue_of w in
  let counted := record_failure errorMessage operation in
  exists w', moveToFailed operationId errorMessage w = (Returned tt, w') /\
    retries counted = retries operation + 1 /\
    lastError counted = Some errorMessage /\
    (maxRetries operation <= retries operation + 1 ->
       pending (queue_of w')
         = List.filter (fun op => negb (has_id operationId op)) (pending q) /\
       failed (queue_of w')
         = drop (length (failed q ++ [counted]) - 100) (failed q ++ [counted]) /\
       (length (failed (queue_of w')) <= 100)%nat /\
       (forall again, moveToFailed operationId again w' = (Returned tt, w'))) /\
    (retries operation + 1 < maxRetries operation ->
       pending (queue_of w')
         = update_first (has_id operationId) (record_failure errorMessage) (pending q) /\
       In counted (pending (queue_of w')) /\
       failed (queue_of w') = failed q).
Proof.
  intros Hfind q counted.
  destruct (moveToFailed_run operationId errorMessage operation w Hfind)
    as (w' & Hrun & Hq).
  fold q in Hq. fold counted in Hq.
  exists w'. split; [exact Hrun|]. split; [reflexivity|]. split; [reflexivity|].
  split.
  - intros Hge.
    assert (E : (retries operation + 1 >=? maxRetries operation) = true)
      by (apply Z.geb_le; exact Hge).
    rewrite E in Hq. rewrite Hq. cbn [pending failed].
    split; [reflexivity|]. split; [reflexivity|]. split.
    + rewrite length_drop. lia.
    + intros again. apply moveToFailed_absent. rewrite Hq. cbn [pending].
      apply find_after_filter.
  - intros Hlt.
    assert (E : (retries operation + 1 >=? maxRetries operation) = false)
      by (rewrite Z.geb_leb; apply Z.leb_gt; exact Hlt).
    rewrite E in Hq. rewrite Hq. cbn [pending failed].
    split; [reflexivity|]. split; [|reflexivity].
    apply update_first_In. exact Hfind.
Qed.

(* ================================================================== *)
(** * The processing loop terminates within its bound *)
(* ================================================================== *)

Section Frames.

Lemma keeps_ret {A} (a : A) : keeps_queue (ret a).
Proof. intros w. reflexivity. Qed.

Lemma keeps_throw {A} (e : exn) : keeps_queue (@throw A e).
Proof. intros w. reflexivity. Qed.

Lemma keeps_gets {A} (f : World -> A) : keeps_queue (gets f).
Proof. intros w. reflexivity. Qed.

Lemma keeps_bind {A B} (m : M A) (k : A -> M B) :
  keeps_queue m -> (forall a, keeps_queue (k a)) -> keeps_queue (bind m k).
Proof.
  intros Hm Hk w. unfold bind. specialize (Hm w).
  destruct (m w) as [[a|e] w1]; simpl in *; [|exact Hm].
  rewrite (Hk a w1). exact Hm.
Qed.

Lemma keeps_try_catch {A} (m : M A) (h : exn -> M A) :
  keeps_queue m -> (forall e, keeps_queue (h e)) -> keeps_queue (try_catch m h).
Proof.
  intros Hm Hh w. unfold try_catch. specialize (Hm w).
  destruct (m w) as [[a|e] w1]; simpl in *; [exact Hm|].
  rewrite (Hh e w1). exact Hm.
Qed.

Lemma keeps_Date_now : keeps_queue Date_now.
Proof. intros w. reflexivity. Qed.

Lemma keeps_generateId : keeps_queue generateId.
Proof. intros w. reflexivity. Qed.

Lemma keeps_call_with {A} (answer : Env -> list Call -> Call -> Outcome A) c :
  keeps_queue (call_with answer c).
Proof. intros w. reflexivity. Qed.

Lemma keeps_saveLinks links : keeps_queue (_saveBookmarkLinks links).
Proof. intros w. reflexivity. Qed.

Lemma keeps_saveStats s : keeps_queue (modify (set_local (put_sync_stats s))).
Proof. intros w. reflexivity. Qed.

End Frames.

Ltac keeps_step :=
  first
    [ apply keeps_ret | apply keeps_throw | apply keeps_gets
    | apply keeps_Date_now | apply keeps_generateId | apply keeps_call_with
    | apply keeps_saveLinks | apply keeps_saveStats
    | apply keeps_bind; [|intro]
    | apply keeps_try_catch; [|intro]
    | match goal with
      | |- keeps_queue (let _ := _ in _) => cbv zeta
      | |- keeps_queue (match ?x with _ => _ end) => destruct x
      | |- keeps_queue (if ?b then _ else _) => destruct b
      end ].

Ltac keeps := repeat keeps_step.

Section OnPlatform.

Context {platform : Platform}.

Section HandlersKeepQueue.

Lemma keeps_findBookmarkLink f r : keeps_queue (findBookmarkLink f r).
Proof. unfold findBookmarkLink, getBookmarkLinks. keeps. Qed.

Lemma keeps_addBookmarkLink l : keeps_queue (addBookmarkLink l).
Proof. unfold addBookmarkLink, getBookmarkLinks. keeps. Qed.

Lemma keeps_updateBookmarkLink i u : keeps_queue (updateBookmarkLink i u).
Proof. unfold updateBookmarkLink, getBookmarkLinks. keeps. Qed.

Lemma keeps_removeBookmarkLink i : keeps_queue (removeBookmarkLink i).
Proof. unfold removeBookmarkLink, getBookmarkLinks. keeps. Qed.

Lemma keeps_findMappingByFirefoxId f : keeps_queue (findMappingByFirefoxId f).
Proof. unfold findMappingByFirefoxId, getFolderMappings. keeps. Qed.

Lemma keeps_updateSyncStats u : keeps_queue (updateSyncStats u).
Proof. unfold updateSyncStats, getSyncStats. keeps. Qed.

Lemma keeps_addSyncError e : keeps_queue (addSyncError e).
Proof.
  unfold addSyncError, getSyncStats.
  apply keeps_bind; [apply keeps_gets | intros stats].
  apply keeps_bind; [|intros _].
  - intros w. unfold modify. simpl. destruct (sync_stats (local w)); reflexivity.
  - apply keeps_bind; [apply keeps_updateSyncStats | intros _; apply keeps_ret].
Qed.

Ltac handler :=
  repeat first
    [ apply keeps_findBookmarkLink | apply keeps_addBookmarkLink
    | apply keeps_updateBookmarkLink | apply keeps_removeBookmarkLink
    | apply keeps_findMappingByFirefoxId
    | keeps_step ].

Lemma keeps_processOperation operation : keeps_queue (processOperation operation).
Proof.
  unfold processOperation, processFirefoxOperation, processRaindropOperation.
  destruct (op_source operation), (op_type operation);
    unfold pushCreateToRaindrop, pushUpdateToRaindrop, pushDeleteToRaindrop,
           pushMoveToRaindrop, pullCreateFromRaindrop, pullUpdateFromRaindrop,
           pullDeleteFromRaindrop, createRaindrop, updateRaindrop,
           deleteRaindrop, getRaindrop, bookmarks_create, bookmarks_update,
           bookmarks_remove;
    handler.
Qed.

End HandlersKeepQueue.

Section LoopBound.

Lemma keeps_never_grows {A} queue (m : M A) : keeps_queue m -> never_grows queue m.
Proof.
  intros Hm w. specialize (Hm w). unfold queue_objects in Hm.
  injection Hm as _ Hd. unfold seen_length. destruct queue; simpl; [lia|].
  rewrite Hd. lia.
Qed.

Lemma never_grows_bind {A B} queue (m : M A) (k : A -> M B) :
  never_grows queue m -> (forall a, never_grows queue (k a)) ->
  never_grows queue (bind m k).
Proof.
  intros Hm Hk w. unfold bind. specialize (Hm w).
  destruct (m w) as [[a|e] w1]; simpl in *; [|exact Hm].
  specialize (Hk a w1). lia.
Qed.

Lemma never_grows_try_catch {A} queue (m : M A) (h : exn -> M A) :
  never_grows queue m -> (forall e, never_grows queue (h e)) ->
  never_grows queue (try_catch m h).
Proof.
  intros Hm Hh w. unfold try_catch. specialize (Hm w).
  destruct (m w) as [[a|e] w1]; simpl in *; [exact Hm|].
  specialize (Hh e w1). lia.
Qed.

Lemma filter_length_le {A} (p : A -> bool) (l : list A) :
  (length (List.filter p l) <= length l)%nat.
Proof.
  induction l as [|x l IH]; simpl; [lia|]. destruct (p x); simpl; lia.
Qed.

(** Saving a queue whose pending list is not longer than the one read. *)
Lemma never_grows_save queue q w :
  (length (pending q) <= length (pending (queue_of w)))%nat ->
  (seen_length queue (snd (mutate_and_saveQueue q w)) <= seen_length queue w)%nat.
Proof.
  unfold seen_length, mutate_and_saveQueue, modify, queue_of.
  destruct queue; simpl; [lia|].
  destruct (sync_queue (local w)); simpl; lia.
Qed.

Lemma never_grows_removeFromQueue queue operationId :
  never_grows queue (removeFromQueue operationId).
Proof.
  intros w. unfold removeFromQueue, bind, getQueue, gets. cbv beta iota zeta.
  apply never_grows_save. simpl. apply filter_length_le.
Qed.

Lemma never_grows_moveToFailed queue operationId errorMessage :
  never_grows queue (moveToFailed operationId errorMessage).
Proof.
  intros w. unfold moveToFailed, bind, getQueue, gets. cbv beta iota zeta.
  destruct (find _ (pending (queue_of w))); [|simpl; lia].
  destruct (_ >=? _); apply never_grows_save; simpl.
  - etransitivity; [apply filter_length_le|]. rewrite update_first_length. lia.
  - rewrite update_first_length. lia.
Qed.

Lemma never_grows_iteration queue i operation :
  never_grows queue (iteration queue i operation).
Proof.
  unfold iteration. apply never_grows_try_catch.
  - apply never_grows_bind;
      [apply keeps_never_grows, keeps_processOperation | intros _].
    apply never_grows_bind; [apply never_grows_removeFromQueue | intros _].
    apply keeps_never_grows.
    apply keeps_bind; [apply keeps_gets | intros len].
    apply keeps_bind; [apply keeps_Date_now | intros now].
    apply keeps_bind; [apply keeps_updateSyncStats | intros _; apply keeps_ret].
  - intros e. apply never_grows_bind; [apply never_grows_moveToFailed | intros _].
    apply keeps_never_grows.
    apply keeps_bind; [apply keeps_Date_now | intros now; apply keeps_addSyncError].
Qed.

(** Once the index plus the fuel reaches the length that the loop reads,
    more fuel changes nothing: the loop stops on its own test. *)
Lemma process_from_enough (fuel extra : nat) queue (i : nat) (w : World) :
  (seen_length queue w <= i + fuel)%nat ->
  process_from (fuel + extra) queue i w = process_from fuel queue i w.
Proof.
  revert i w. induction fuel as [|fuel IH]; intros i w Hlen.
  - destruct extra; [reflexivity|]. simpl. unfold bind, gets. cbv beta iota.
    replace (nth_error (pending (deref queue w)) i) with (@None SyncOperation);
      [reflexivity|].
    symmetry. apply nth_error_None. unfold seen_length in Hlen. lia.
  - simpl. unfold bind at 1 3. unfold gets. cbv beta iota.
    destruct (nth_error (pending (deref queue w)) i) as [operation|];
      [|reflexivity].
    unfold bind. pose proof (never_grows_iteration queue i operation w) as Hit.
    destruct (iteration queue i operation w) as [[[]|e] w1]; [|reflexivity].
    simpl in Hit. apply IH. lia.
Qed.

(** The bound that [process_pending] passes is enough. *)
Lemma process_from_bound (extra : nat) queue (w : World) :
  process_from (seen_length queue w + extra) queue 0 w
  = process_from (seen_length queue w) queue 0 w.
Proof. apply process_from_enough. lia. Qed.

End LoopBound.

(* ================================================================== *)
(** * The processing lock *)
(* ================================================================== *)

Section Lock.

Lemma swallow_returns (m : M unit) (w : World) :
  exists w', try_catch m (fun _ => ret tt) w = (Returned tt, w').
Proof. unfold try_catch. destruct (m w) as [[[]|e] w1]; simpl; eauto. Qed.

Lemma process_pending_returns (w : World) :
  exists w', process_pending w = (Returned tt, w').
Proof.
  unfold process_pending, bind, setSyncing, modify. cbv beta iota.
  unfold try_finally.
  match goal with |- context [try_catch ?m ?h ?w1] =>
    destruct (swallow_returns m w1) as (w2 & ->)
  end.
  simpl. eauto.
Qed.

End Lock.


(* ================================================================== *)
(** * Validation failures inside the queue *)
(* ================================================================== *)

Section Validation.

Lemma moveToFailed_frame operationId errorMessage w :
  links_of (snd (moveToFailed operationId errorMessage w)) = links_of w /\
  trace (snd (moveToFailed operationId errorMessage w)) = trace w.
Proof.
  unfold moveToFailed, bind, getQueue, gets. cbv beta iota zeta.
  destruct (find _ (pending (queue_of w))); [|split; reflexivity].
  destruct (_ >=? _); apply mutate_and_saveQueue_frame.
Qed.

Lemma addSyncError_frame e w :
  exists w', addSyncError e w = (Returned tt, w') /\
    queue_of w' = queue_of w /\ links_of w' = links_of w /\ trace w' = trace w.
Proof.
  unfold addSyncError, updateSyncStats, getSyncStats, bind, gets, modify, ret.
  cbv beta iota zeta. eexists. split; [reflexivity|].
  unfold queue_of, links_of. simpl.
  destruct (sync_stats (local w)); simpl; auto.
Qed.

Lemma Date_now_frame w :
  queue_of (set_ticks (S (ticks w)) w) = queue_of w /\
  links_of (set_ticks (S (ticks w)) w) = links_of w /\
  trace (set_ticks (S (ticks w)) w) = trace w.
Proof. repeat split. Qed.

(** Each handler starts with its test, and throws at once when it fails. *)
Lemma processOperation_rejects (operation : SyncOperation) (message : string)
  (w : World) :
  rejection operation = Some message ->
  processOperation operation w = (Throws (JsError message), w).
Proof.
  unfold rejection, processOperation, processFirefoxOperation,
    processRaindropOperation.
  destruct (op_source operation), (op_type operation); try discriminate;
    unfold pushCreateToRaindrop, pushUpdateToRaindrop, pushDeleteToRaindrop,
      pushMoveToRaindrop, pullCreateFromRaindrop, pullUpdateFromRaindrop,
      pullDeleteFromRaindrop, missing_create_fields;
    repeat match goal with
           | |- context [truthy_str ?x] => destruct (truthy_str x)
           | |- context [truthy_num ?x] => destruct (truthy_num x)
           end;
    simpl; intros H; try discriminate; injection H as <-; reflexivity.
Qed.

Lemma In_drop_snoc {A} (k : nat) (l : list A) (x : A) :
  In x (drop (length (l ++ [x]) - k) (l ++ [x])) \/ k = 0%nat.
Proof.
  destruct k as [|k]; [right; reflexivity|left].
  rewrite length_app. simpl.
  rewrite drop_app_le by lia. apply in_or_app. right. left. reflexivity.
Qed.

End Validation.

Section ValidationInTheLoop.

Lemma iteration_step (queue : QueueRef) (i : nat) (op : SyncOperation) (w : World) :
  exists w', iteration queue i op w = (Returned tt, w') /\
    queue_step (op_id op) (fst (processOperation op w)) (queue_of w) (queue_of w').
Proof.
  assert (Hq : queue_of (snd (processOperation op w)) = queue_of w).
  { pose proof (keeps_processOperation op w) as H.
    unfold queue_objects in H. injection H as Hs Hd.
    unfold queue_of. rewrite Hs, Hd. reflexivity. }
  destruct (processOperation op w) as [[[]|e] w1] eqn:Hrun; cbn [fst snd] in *.
  - unfold iteration, try_catch. unfold bind at 1. rewrite Hrun.
    unfold queue_step. rewrite <- Hq.
    unfold removeFromQueue, mutate_and_saveQueue, updateSyncStats, getSyncStats,
      getQueue, bind, gets, modify, Date_now, ret.
    cbv beta iota zeta. unfold queue_of.
    destruct (sync_queue (local w1)) as [q|] eqn:E;
      (eexists; split; [reflexivity|]; simpl; reflexivity).
  - unfold queue_step. rewrite <- Hq.
    destruct (find (has_id (op_id op)) (pending (queue_of w1))) as [op0|] eqn:Hfind.
    + destruct (moveToFailed_run (op_id op) (message_of e) op0 w1 Hfind)
        as (w2 & Hmove & Hq2).
      destruct (addSyncError_frame
                  (mkSyncError (clock w2 (ticks w2)) (operation_label op)
                               (message_of e) (Some (data op)))
                  (set_ticks (S (ticks w2)) w2))
        as (w' & Hadd & Hq3 & _).
      exists w'. split.
      { unfold iteration, try_catch. unfold bind at 1. rewrite Hrun.
        cbv beta iota. unfold bind. rewrite Hmove.
        unfold Date_now. cbv beta iota. exact Hadd. }
      rewrite Hq3. exact Hq2.
    + pose proof (moveToFailed_absent (op_id op) (message_of e) w1 Hfind) as Hmove.
      destruct (addSyncError_frame
                  (mkSyncError (clock w1 (ticks w1)) (operation_label op)
                               (message_of e) (Some (data op)))
                  (set_ticks (S (ticks w1)) w1))
        as (w' & Hadd & Hq3 & _).
      exists w'. split.
      { unfold iteration, try_catch. unfold bind at 1. rewrite Hrun.
        cbv beta iota. unfold bind. rewrite Hmove.
        unfold Date_now. cbv beta iota. exact Hadd. }
      rewrite Hq3. reflexivity.
Qed.

(** The loop over a queue read from storage visits the operations of the
    snapshot in order; a property of the queue that the iterations carry
    from index to index holds at the end. *)
Lemma process_from_stored (q : SyncQueue) (I : nat -> SyncQueue -> Prop) :
  (forall j op w0 qa qb, nth_error (pending q) j = Some op -> I j qa ->
     queue_step (op_id op) (fst (processOperation op w0)) qa qb -> I (S j) qb) ->
  forall fuel i w, (i + fuel = length (pending q))%nat -> I i (queue_of w) ->
  exists w', process_from fuel (Stored q) i w = (Returned tt, w') /\
    I (length (pending q)) (queue_of w').
Proof.
  intros Hstep. induction fuel as [|fuel IH]; intros i w Hlen Hi.
  - exists w. split; [reflexivity|].
    replace (length (pending q)) with i by lia. exact Hi.
  - cbn [process_from]. unfold bind at 1. unfold gets. cbv beta iota. cbn [deref].
    destruct (nth_error (pending q) i) as [op|] eqn:E.
    2:{ apply nth_error_None in E. lia. }
    destruct (iteration_step (Stored q) i op w) as (w1 & Hit & Hq).
    unfold bind. rewrite Hit. apply IH; [lia|].
    exact (Hstep i op w _ _ E Hi Hq).
Qed.

Lemma find_filter_kept {A} (p keep : A -> bool) (l : list A) :
  (forall x, p x = true -> keep x = true) ->
  find p (List.filter keep l) = find p l.
Proof.
  intros H. induction l as [|x l IH]; simpl; [reflexivity|].
  destruct (keep x) eqn:Ek; simpl.
  - destruct (p x); [reflexivity | exact IH].
  - destruct (p x) eqn:Ep; [|exact IH]. rewrite (H x Ep) in Ek. discriminate.
Qed.

Lemma find_update_first_other {A} (p s : A -> bool) (f : A -> A) (l : list A) :
  (forall x, s x = true -> p x = false /\ p (f x) = false) ->
  find p (update_first s f l) = find p l.
Proof.
  intros H. induction l as [|x l IH]; simpl; [reflexivity|].
  destruct (s x) eqn:Es; simpl.
  - destruct (H x Es) as [-> ->]. reflexivity.
  - destruct (p x); [reflexivity | exact IH].
Qed.

Lemma In_update_first_other {A} (s : A -> bool) (f : A -> A) (l : list A) (x : A) :
  s x = false -> In x l -> In x (update_first s f l).
Proof.
  intros Hs. induction l as [|y l IH]; simpl; [tauto|].
  intros [->|H].
  - rewrite Hs. left. reflexivity.
  - destruct (s y); [right; exact H | right; exact (IH H)].
Qed.

Lemma ids_update_first (s : SyncOperation -> bool) (m : string)
  (l : list SyncOperation) :
  map op_id (update_first s (record_failure m) l) = map op_id l.
Proof.
  induction l as [|x l IH]; simpl; [reflexivity|].
  destruct (s x); simpl; [reflexivity | rewrite IH; reflexivity].
Qed.

Lemma find_app_skip {A} (p : A -> bool) (l : list A) (x : A) (l' : list A) :
  (forall y, In y l -> p y = false) -> p x = true ->
  find p (l ++ x :: l') = Some x.
Proof.
  intros H Hx. induction l as [|y l IH]; simpl.
  - rewrite Hx. reflexivity.
  - rewrite (H y (or_introl eq_refl)). apply IH. intros z Hz. apply H. right. exact Hz.
Qed.

Variable id : string.

Lemma has_id_other (id' : string) (x : SyncOperation) :
  id' <> id -> has_id id x = true -> negb (has_id id' x) = true.
Proof.
  unfold has_id. intros Hne Hx. apply String.eqb_eq in Hx.
  destruct (String.eqb_spec (op_id x) id'); [congruence | reflexivity].
Qed.

(** An iteration for another id leaves the pending operation with the id. *)
Lemma step_keeps_find (id' : string) (handled : Outcome unit) (qa qb : SyncQueue) :
  id' <> id -> queue_step id' handled qa qb ->
  find (has_id id) (pending qb) = find (has_id id) (pending qa).
Proof.
  intros Hne Hstep. unfold queue_step in Hstep.
  assert (Hfilter : forall l,
            find (has_id id) (List.filter (fun op => negb (has_id id' op)) l)
            = find (has_id id) l).
  { intros l. apply find_filter_kept. intros x. apply has_id_other. exact Hne. }
  destruct handled as [[]|e].
  - subst qb. apply Hfilter.
  - destruct (find (has_id id') (pending qa)) as [op|]; [|subst qb; reflexivity].
    destruct (_ >=? _); subst qb; cbn [pending]; [apply Hfilter|].
    apply find_update_first_other. intros x Hx. unfold has_id in *.
    apply String.eqb_eq in Hx. cbn [record_failure op_id].
    destruct (String.eqb_spec (op_id x) id); [congruence | auto].
Qed.

Lemma step_keeps_pending (id' : string) (handled : Outcome unit)
  (qa qb : SyncQueue) (x : SyncOperation) :
  id' <> op_id x -> queue_step id' handled qa qb ->
  In x (pending qa) -> In x (pending qb).
Proof.
  intros Hne Hstep Hin. unfold queue_step in Hstep.
  assert (Hx : has_id id' x = false).
  { unfold has_id. destruct (String.eqb_spec (op_id x) id'); [congruence | reflexivity]. }
  assert (Hfilter : In x (List.filter (fun op => negb (has_id id' op)) (pending qa))).
  { apply filter_In. split; [exact Hin|]. rewrite Hx. reflexivity. }
  destruct handled as [[]|e].
  - subst qb. exact Hfilter.
  - destruct (find (has_id id') (pending qa)) as [op|]; [|subst qb; exact Hin].
    destruct (_ >=? _); subst qb; cbn [pending]; [exact Hfilter|].
    apply In_update_first_other; assumption.
Qed.

Lemma step_pending_ids (id' : string) (handled : Outcome unit) (qa qb : SyncQueue) :
  queue_step id' handled qa qb ->
  In id (map op_id (pending qb)) -> In id (map op_id (pending qa)).
Proof.
  intros Hstep. unfold queue_step in Hstep.
  assert (Hfilter : In id (map op_id (List.filter (fun op => negb (has_id id' op))
                                                   (pending qa))) ->
                    In id (map op_id (pending qa))).
  { intros H. apply in_map_iff in H as (x & Hx & Hin).
    apply filter_In in Hin as [Hin _]. apply in_map_iff. eauto. }
  destruct handled as [[]|e].
  - subst qb. exact Hfilter.
  - destruct (find (has_id id') (pending qa)) as [op|]; [|subst qb; auto].
    destruct (_ >=? _); subst qb; cbn [pending]; [exact Hfilter|].
    rewrite ids_update_first. auto.
Qed.

(** An iteration for another id leaves a failed operation where it is, with
    at most one more failed operation after it, as long as fewer than 99
    follow it. *)
Lemma step_keeps_failed (id' : string) (handled : Outcome unit) (qa qb : SyncQueue)
  (c : SyncOperation) (pre post : list SyncOperation) :
  id' <> op_id c -> queue_step id' handled qa qb ->
  failed qa = pre ++ c :: post -> (length post <= 98)%nat ->
  exists pre' post', failed qb = pre' ++ c :: post' /\
    (length post' <= S (length post))%nat.
Proof.
  intros Hne Hstep Hfailed Hlen. unfold queue_step in Hstep.
  assert (Hc : negb (has_id id' c) = true).
  { unfold has_id. destruct (String.eqb_spec (op_id c) id'); [congruence | reflexivity]. }
  destruct handled as [[]|e].
  - subst qb. cbn [failed]. rewrite Hfailed, List.filter_app. cbn [List.filter].
    rewrite Hc. eexists _, _. split; [reflexivity|].
    pose proof (filter_length_le (fun op => negb (has_id id' op)) post). lia.
  - destruct (find (has_id id') (pending qa)) as [op|];
      [|subst qb; exists pre, post; split; [exact Hfailed | lia]].
    destruct (_ >=? _); subst qb; cbn [failed];
      [|exists pre, post; split; [exact Hfailed | lia]].
    rewrite Hfailed, <- app_assoc. cbn [app].
    rewrite !length_app. cbn [length]. rewrite length_app. cbn [length].
    rewrite drop_app_le by lia.
    eexists _, (post ++ [_]). split; [reflexivity|].
    rewrite length_app. cbn [length]. lia.
Qed.

End ValidationInTheLoop.

(** C3, as the code has it.  An operation with a missing required field is
    not refused when it is enqueued: [addToQueue] returns, and appends it
    when no pending operation has its tuple.  Its handler throws before any
    call leaves the extension and before anything is stored, and
    [processQueue] treats this throw like every other failure of a handler.
    In a run of [processQueue] that takes the lock, over a stored queue whose
    pending operations have distinct ids and in which fewer than a hundred
    operations follow the operation: the run returns, the retry counter of
    the operation has grown by one and the message is recorded, and the
    operation is in the failed partition and no longer pending when the
    counter has reached [maxRetries], and still pending below that. *)
Theorem missing_fields_count_as_failure
  (operation : SyncOperation) (message : string) (w : World) (q : SyncQueue)
  (before after : list SyncOperation) :
  rejection operation = Some message ->
  lock_open w ->
  sync_queue (local w) = Some q ->
  pending q = before ++ operation :: after ->
  NoDup (map op_id (pending q)) ->
  (length after < 100)%nat ->
  let counted := record_failure message operation in
  (forall w0, exists w1, addToQueue operation w0 = (Returned tt, w1) /\
     (count_key operation (pending (queue_of w0)) = 0%nat ->
      queue_of w1 = mkQueue (pending (queue_of w0) ++ [operation])
                            (failed (queue_of w0)))) /\
  (forall w0, processOperation operation w0 = (Throws (JsError message), w0)) /\
  exists w', processQueue w = (Returned tt, w') /\
    retries counted = retries operation + 1 /\
    lastError counted = Some message /\
    (maxRetries operation <= retries operation + 1 ->
       ~ In (op_id operation) (map op_id (pending (queue_of w'))) /\
       In counted (failed (queue_of w'))) /\
    (retries operation + 1 < maxRetries operation ->
       In counted (pending (queue_of w'))).
Proof.
  intros Hrej Hlock Hstored Hpending Hids Hafter counted.
  set (id := op_id operation).
  set (idx := length before).
  assert (Hthrow : forall w0,
            processOperation operation w0 = (Throws (JsError message), w0))
    by (intros w0; apply processOperation_rejects; exact Hrej).
  (* the other operations have other ids *)
  assert (Hothers : forall x, In x before \/ In x after -> op_id x <> id).
  { rewrite Hpending, map_app in Hids. cbn [map] in Hids.
    apply NoDup_app in Hids as (_ & Hba & Ha).
    apply NoDup_cons in Ha as [Hnot _].
    intros x [Hx|Hx] Heq.
    - apply (Hba (op_id x)).
      + apply list_elem_of_In, in_map. exact Hx.
      + rewrite Heq. left.
    - apply Hnot. fold id. rewrite <- Heq.
      apply list_elem_of_In, in_map. exact Hx. }
  split; [|split; [exact Hthrow|]].
  { intros w0.
    destruct (find (same_key operation) (pending (queue_of w0))) as [y|] eqn:E.
    - exists w0. split.
      + apply find_some in E as [Hy Hky]. exact (addToQueue_present _ _ _ Hy Hky).
      + intros Hzero. exfalso. apply find_some in E as [Hy Hky].
        unfold count_key in Hzero.
        assert (Hin : In y (List.filter (same_key operation) (pending (queue_of w0))))
          by (apply filter_In; auto).
        destruct (List.filter (same_key operation) (pending (queue_of w0)));
          [contradiction | discriminate].
    - destruct (addToQueue_absent _ _ E) as (w1 & Hrun & Hq).
      exists w1. split; [exact Hrun | intros _; exact Hq]. }
  (* the invariant of the loop *)
  pose (I := fun (j : nat) (qa : SyncQueue) =>
    ((j <= idx)%nat -> find (has_id id) (pending qa) = Some operation) /\
    ((idx < j)%nat ->
       (retries operation + 1 < maxRetries operation -> In counted (pending qa)) /\
       (maxRetries operation <= retries operation + 1 ->
          ~ In id (map op_id (pending qa)) /\
          exists pre post, failed qa = pre ++ counted :: post /\
            (length post + idx + 1 <= j)%nat))).
  assert (Hstep : forall j op w0 qa qb,
            nth_error (pending q) j = Some op -> I j qa ->
            queue_step (op_id op) (fst (processOperation op w0)) qa qb -> I (S j) qb).
  { intros j op w0 qa qb Hnth [Hlow Hhigh] Hq.
    assert (Hj : (j < length (pending q))%nat)
      by (apply nth_error_Some; rewrite Hnth; discriminate).
    rewrite Hpending, length_app in Hj. cbn [length] in Hj. fold idx in Hj.
    rewrite Hpending in Hnth.
    destruct (Nat.lt_trichotomy j idx) as [Hlt|[Heq|Hgt]].
    - (* an operation before it *)
      rewrite nth_error_app1 in Hnth by exact Hlt.
      apply nth_error_In in Hnth.
      assert (Hne : op_id op <> id) by (apply Hothers; left; exact Hnth).
      split; [intros _|intros H; lia].
      rewrite (step_keeps_find id _ _ _ _ Hne Hq). apply Hlow. lia.
    - (* the operation itself *)
      subst j. unfold idx in Hnth. rewrite nth_error_app2 in Hnth by lia.
      rewrite Nat.sub_diag in Hnth. injection Hnth as <-.
      rewrite Hthrow in Hq. cbn [fst] in Hq.
      unfold queue_step in Hq. fold id in Hq.
      rewrite (Hlow (le_n _)) in Hq. cbn [message_of] in Hq. fold counted in Hq.
      split; [intros H; lia|intros _]. split.
      + intros Hlt.
        replace (retries operation + 1 >=? maxRetries operation) with false in Hq
          by (symmetry; rewrite Z.geb_leb; apply Z.leb_gt; exact Hlt).
        subst qb. cbn [pending].
        apply (update_first_In (has_id id) (record_failure message)).
        apply Hlow. lia.
      + intros Hge.
        replace (retries operation + 1 >=? maxRetries operation) with true in Hq
          by (symmetry; apply Z.geb_le; exact Hge).
        subst qb. cbn [pending failed]. split.
        * intros Hin. apply in_map_iff in Hin as (x & Hx & Hin).
          apply filter_In in Hin as [_ Hneg]. unfold has_id in Hneg.
          rewrite Hx, String.eqb_refl in Hneg. discriminate.
        * rewrite length_app. cbn [length]. rewrite drop_app_le by lia.
          eexists _, []. split; [reflexivity|]. cbn [length]. lia.
    - (* an operation after it *)
      unfold idx in Hnth, Hgt. rewrite nth_error_app2 in Hnth by lia.
      destruct (j - length before)%nat as [|k] eqn:Ek; [lia|].
      cbn [nth_error] in Hnth. apply nth_error_In in Hnth.
      assert (Hne : op_id op <> id) by (apply Hothers; right; exact Hnth).
      destruct (Hhigh Hgt) as [Hpend Hfail].
      split; [intros H; unfold idx in H; lia|intros _]. split.
      + intros Hlt. apply (step_keeps_pending (op_id op) _ qa qb counted Hne Hq).
        exact (Hpend Hlt).
      + intros Hge. destruct (Hfail Hge) as (Hnot & pre & post & Hfailed & Hlen).
        split.
        * intros Hin. apply Hnot. exact (step_pending_ids id _ _ _ _ Hq Hin).
        * destruct (step_keeps_failed (op_id op) _ qa qb counted pre post Hne Hq Hfailed)
            as (pre' & post' & Hfailed' & Hlen').
          { unfold idx in *. lia. }
          exists pre', post'. split; [exact Hfailed'|]. lia. }
  (* the run *)
  assert (Hacq : exists w0, acquireLock w = (Returned true, w0) /\
                            sync_queue (local w0) = Some q).
  { unfold lock_open in Hlock.
    unfold acquireLock, bind, gets, Date_now, modify, ret. cbv beta iota.
    destruct (queue_processing_lock (local w)) as [ts|].
    - cbv beta iota.
      replace (clock w (ticks w) - ts <? PROCESSING_LOCK_TIMEOUT) with false
        by (symmetry; apply Z.ltb_ge; exact Hlock).
      eexists. split; [reflexivity|]. exact Hstored.
    - eexists. split; [reflexivity|]. exact Hstored. }
  destruct Hacq as (w0 & Hacq & Hq0).
  pose (w1 := set_syncDepth (syncDepth w0 + 1) w0).
  assert (Hinit : I 0%nat (queue_of w1)).
  { replace (queue_of w1) with q by (unfold queue_of, w1; simpl; rewrite Hq0; reflexivity).
    split; [intros _|intros H; lia].
    rewrite Hpending. apply find_app_skip.
    - intros y Hy. unfold has_id.
      destruct (String.eqb_spec (op_id y) id) as [Heq|]; [|reflexivity].
      exfalso. exact (Hothers y (or_introl Hy) Heq).
    - apply String.eqb_refl. }
  destruct (process_from_stored q I Hstep (length (pending q)) 0 w1 eq_refl Hinit)
    as (w2 & Hloop & [_ Hend]).
  assert (Hpos : (idx < length (pending q))%nat)
    by (rewrite Hpending, length_app; cbn [length]; fold idx; lia).
  destruct (Hend Hpos) as [Hpend Hfail].
  eexists. split.
  { unfold processQueue, bind. rewrite Hacq. cbn [negb].
    unfold process_pending, bind, setSyncing, modify. cbv beta iota.
    fold w1. unfold try_finally, try_catch, getQueue_ref, bind, gets. cbv beta iota.
    replace (sync_queue (local w1)) with (Some q) by (symmetry; exact Hq0).
    cbn [deref].
    destruct (Nat.eqb_spec (length (pending q)) 0) as [Hzero|_]; [lia|].
    rewrite Hloop. unfold releaseLock, modify. cbv beta iota. reflexivity. }
  split; [reflexivity|]. split; [reflexivity|].
  change (queue_of _) with (queue_of w2).
  split.
  - intros Hge. destruct (Hfail Hge) as (Hnot & pre & post & Hfailed & _).
    split; [exact Hnot|]. rewrite Hfailed. apply in_or_app. right. left. reflexivity.
  - exact Hpend.
Qed.

(* ================================================================== *)
(** * The handlers and the registry *)
(* ================================================================== *)

Section Handlers.

Lemma findBookmarkLink_run f r w :
  findBookmarkLink f r w = (Returned (find_link f r (links_of w)), w).
Proof. reflexivity. Qed.

Lemma links_of_set_trace t w : links_of (set_trace t w) = links_of w.
Proof. reflexivity. Qed.

Lemma find_link_In f r links l : find_link f r links = Some l -> In l links.
Proof.
  unfold find_link. intros H.
  destruct (truthy_str f).
  - destruct (find _ links) as [l1|] eqn:E1.
    + injection H as <-. exact (proj1 (find_some _ _ E1)).
    + destruct (truthy_num r); [|discriminate H].
      exact (proj1 (find_some _ _ H)).
  - destruct (truthy_num r); [|discriminate H].
    exact (proj1 (find_some _ _ H)).
Qed.

(** [updateBookmarkLink] with the id of a stored link. *)
Lemma updateBookmarkLink_found (l : BookmarkLink) (u : LinkUpdates) (w : World) :
  In l (links_of w) ->
  exists r w', updateBookmarkLink (bl_id l) u w = (Returned r, w') /\
    trace w' = trace w /\
    links_of w' = update_first (fun l' => String.eqb (bl_id l') (bl_id l))
                               (apply_updates u) (links_of w).
Proof.
  intros Hin.
  unfold updateBookmarkLink, getBookmarkLinks, bind, gets, _saveBookmarkLinks, modify.
  cbv beta iota zeta.
  destruct (find (fun l' => String.eqb (bl_id l') (bl_id l)) (links_of w)) eqn:E.
  - eexists _, _. split; [reflexivity|]. split; reflexivity.
  - exfalso. apply (find_none _ _ E) in Hin. rewrite String.eqb_refl in Hin.
    discriminate Hin.
Qed.

Lemma bind_call {A B} (answer : Env -> list Call -> Call -> Outcome A) (c : Call)
  (k : A -> M B) (w : World) :
  bind (call_with answer c) k w
  = match answer (env w) (trace w) c with
    | Returned a => k a (after_call c w)
    | Throws e => (Throws e, after_call c w)
    end.
Proof. reflexivity. Qed.

(** A handler that is a call followed by the lookup and a write to the link
    found. *)
Lemma call_then_lookup (c : Call) (d : SyncOperationData)
  (k : BookmarkLink -> M unit)
  (change : BookmarkLink -> list BookmarkLink -> list BookmarkLink) (w : World) :
  (forall l, looked_up d w = Some l ->
     exists w', k l (after_call c w) = (Returned tt, w') /\
       trace w' = trace w ++ [c] /\ links_of w' = change l (links_of w)) ->
  calls_first
    (bind (call_with on_void c)
       (fun _ => bind (findBookmarkLink (d_firefoxId d) (d_raindropId d))
                   (fun l => match l with Some l => k l | None => ret tt end)) w)
    w c (on_void (env w) (trace w) c) d change.
Proof.
  intros Hk. unfold calls_first, bind, call_with. cbv beta iota.
  fold (after_call c w).
  destruct (on_void (env w) (trace w) c) as [[]|e];
    [|split; [reflexivity|]; split; reflexivity].
  rewrite findBookmarkLink_run.
  change (find_link (d_firefoxId d) (d_raindropId d) (links_of (after_call c w)))
    with (looked_up d w).
  destruct (looked_up d w) as [l|] eqn:E.
  - destruct (Hk l eq_refl) as (w' & -> & Ht & Hl). cbn [fst snd]. auto.
  - split; [reflexivity|]. split; reflexivity.
Qed.

End Handlers.

(** C2, as the code has it.  The two create handlers validate their fields
    and then look the link up first: when a link exists for the local id
    (local create) or for the remote id (remote create), they return with
    the world unchanged.  The update, delete and move handlers do not look
    the link up first: in every state of the registry they make their
    remote or local call, and that call only; when it fails they fail with
    its error and nothing but the trace has changed; when it has returned
    they look the link up: without a link they return and nothing more is
    done, and a link found is updated or removed.  The handler of a remote
    delete returns also when the local removal fails, and the handler of a
    remote update first fetches the item, failing when that fails. *)
Theorem handlers_and_registry (d : SyncOperationData) (w : World) :
  let links := links_of w in
  let rid := default 0 (d_raindropId d) in
  let fid := default "" (d_firefoxId d) in
  let now := clock w (ticks w) in
  let update_call :=
    UpdateRaindrop rid (some_if_truthy (d_url d)) (some_if_truthy (d_title d)) None in
  let move_call := UpdateRaindrop rid None None (d_newCollectionId d) in
  (missing_create_fields d = false ->
   is_Some (find_link (d_firefoxId d) None links) ->
   pushCreateToRaindrop d w = (Returned tt, w)) /\
  (truthy_num (d_raindropId d) = true -> truthy_str (d_parentFolderId d) = true ->
   is_Some (find_link None (d_raindropId d) links) ->
   pullCreateFromRaindrop d w = (Returned tt, w)) /\
  (truthy_num (d_raindropId d) = true ->
   calls_first (pushUpdateToRaindrop d w) w update_call
     (on_void (env w) (trace w) update_call) d
     (with_link_updated (pushed_update d computeBookmarkHash now)) /\
   calls_first (pushDeleteToRaindrop d w) w (DeleteRaindrop rid)
     (on_void (env w) (trace w) (DeleteRaindrop rid)) d without_link /\
   (truthy_num (d_newCollectionId d) = true ->
    calls_first (pushMoveToRaindrop d w) w move_call
      (on_void (env w) (trace w) move_call) d
      (fun l links => if truthy_str (d_mappingId d)
                      then with_link_updated (pushed_move d now) l links
                      else links))) /\
  (truthy_str (d_firefoxId d) = true ->
   calls_first (pullDeleteFromRaindrop d w) w (BookmarksRemove fid)
     (Returned tt) d without_link /\
   (truthy_num (d_raindropId d) = true ->
    match on_raindrop (env w) (trace w) (GetRaindrop rid) with
    | Throws e =>
        pullUpdateFromRaindrop d w = (Throws e, after_call (GetRaindrop rid) w)
    | Returned item =>
        let c := BookmarksUpdate fid (r_title item) (link item) in
        calls_first (pullUpdateFromRaindrop d w) (after_call (GetRaindrop rid) w) c
          (on_void (env w) (trace w ++ [GetRaindrop rid]) c) d
          (with_link_updated (pulled_update item computeBookmarkHash now))
    end)).
Proof.
  intros links rid fid now update_call move_call.
  assert (Hupdate : forall (u : Z -> BookmarkLink -> LinkUpdates) l c w0,
            looked_up d w0 = Some l ->
            exists w', (let* t := Date_now in
                        let* _ := updateBookmarkLink (bl_id l) (u t l) in
                        ret tt) (after_call c w0) = (Returned tt, w') /\
              trace w' = trace w0 ++ [c] /\
              links_of w'
              = with_link_updated (u (clock w0 (ticks w0))) l (links_of w0)).
  { intros u l c w0 Hfound. unfold bind, Date_now. cbv beta iota.
    destruct (updateBookmarkLink_found l (u (clock w0 (ticks w0)) l)
                (set_ticks (S (ticks (after_call c w0))) (after_call c w0)))
      as (r & w' & Hrun & Htrace & Hlinks).
    { apply (find_link_In _ _ _ _ Hfound). }
    change (clock (after_call c w0) (ticks (after_call c w0))) with (clock w0 (ticks w0)).
    rewrite Hrun. exists w'. split; [reflexivity|]. split; [exact Htrace | exact Hlinks]. }
  assert (Hremove : forall l c,
            exists w', removeBookmarkLink (bl_id l) (after_call c w) = (Returned tt, w') /\
              trace w' = trace w ++ [c] /\
              links_of w' = without_link l (links_of w)).
  { intros l c.
    unfold removeBookmarkLink, bind, getBookmarkLinks, gets, _saveBookmarkLinks, modify.
    cbv beta iota zeta. eexists. split; [reflexivity|]. split; reflexivity. }
  split; [|split; [|split]].
  - intros Hok [l Hl]. unfold pushCreateToRaindrop.
    unfold missing_create_fields in Hok. rewrite Hok. cbv beta iota zeta.
    unfold bind. rewrite findBookmarkLink_run. fold links. rewrite Hl. reflexivity.
  - intros Hr Hp [l Hl]. unfold pullCreateFromRaindrop. rewrite Hr, Hp.
    cbn [negb orb]. cbv beta iota zeta. unfold bind. rewrite findBookmarkLink_run.
    fold links. rewrite Hl. reflexivity.
  - intros Hr. split; [|split].
    + unfold pushUpdateToRaindrop. rewrite Hr. cbn [negb]. cbv beta iota zeta.
      unfold updateRaindrop. apply call_then_lookup.
      intros l Hfound.
      exact (Hupdate (pushed_update d computeBookmarkHash) l update_call w Hfound).
    + unfold pushDeleteToRaindrop. rewrite Hr. cbn [negb]. cbv beta iota zeta.
      unfold deleteRaindrop.
      apply (call_then_lookup _ d (fun l => removeBookmarkLink (bl_id l))).
      intros l _. apply Hremove.
    + intros Hc. unfold pushMoveToRaindrop. rewrite Hr, Hc.
      cbn [negb orb]. cbv beta iota zeta. unfold updateRaindrop.
      apply call_then_lookup. intros l Hfound.
      destruct (truthy_str (d_mappingId d)).
      * exact (Hupdate (pushed_move d) l move_call w Hfound).
      * eexists. split; [reflexivity|]. split; reflexivity.
  - intros Hf. split.
    + unfold pullDeleteFromRaindrop. rewrite Hf.
      cbn [negb]. cbv beta iota zeta.
      unfold calls_first, bind, try_catch, bookmarks_remove, call_with. cbv beta iota.
      fold fid. fold (after_call (BookmarksRemove fid) w).
      destruct (on_void (env w) (trace w) (BookmarksRemove fid))
        as [[]|e]; cbv beta iota delta [ret];
        rewrite findBookmarkLink_run;
        change (find_link (d_firefoxId d) (d_raindropId d)
                  (links_of (after_call (BookmarksRemove fid) w)))
          with (looked_up d w);
        (destruct (looked_up d w) as [l|];
         [destruct (Hremove l (BookmarksRemove fid)) as (w' & Hrun & Ht & Hl);
          rewrite Hrun; auto
         |split; [reflexivity|]; split; reflexivity]).
    + intros Hr. unfold pullUpdateFromRaindrop. rewrite Hf, Hr.
      cbn [negb orb]. cbv beta iota zeta. unfold getRaindrop.
      rewrite bind_call. fold rid.
      destruct (on_raindrop (env w) (trace w) (GetRaindrop rid)) as [item|e];
        [|reflexivity].
      cbv zeta. unfold bookmarks_update. fold fid.
      pose proof (call_then_lookup (BookmarksUpdate fid (r_title item) (link item)) d
                    (fun l => let* t := Date_now in
                              let* _ := updateBookmarkLink (bl_id l)
                                          (pulled_update item computeBookmarkHash t l) in
                              ret tt)
                    (with_link_updated (pulled_update item computeBookmarkHash now))
                    (after_call (GetRaindrop rid) w)) as H.
      apply H. intros l Hfound.
      exact (Hupdate (pulled_update item computeBookmarkHash) l
               (BookmarksUpdate fid (r_title item) (link item))
               (after_call (GetRaindrop rid) w) Hfound).
Qed.

(* ================================================================== *)
(** * The incremental pull *)
(* ================================================================== *)

Section Pull.

Lemma index_fold_None (links : list BookmarkLink) (m : gmap Z BookmarkLink) (id : Z) :
  fold_left (fun m l => <[ raindropId l := l ]> m) links m !! id = None <->
  m !! id = None /\ forall l, In l links -> raindropId l <> id.
Proof.
  revert m. induction links as [|l links IH]; intros m; simpl.
  - split; [intros H; split; [exact H | intros l []] | intros [H _]; exact H].
  - rewrite IH. rewrite lookup_insert_None. split.
    + intros [[Hm Hne] Hrest]. split; [exact Hm|].
      intros l' [<-|Hin]; [exact Hne | exact (Hrest l' Hin)].
    + intros [Hm Hall]. split; [split; [exact Hm | apply Hall; left; reflexivity]|].
      intros l' Hin. apply Hall. right. exact Hin.
Qed.

Lemma index_by_raindropId_None (links : list BookmarkLink) (id : Z) :
  index_by_raindropId links !! id = None <->
  forall l, In l links -> raindropId l <> id.
Proof.
  unfold index_by_raindropId. rewrite index_fold_None. rewrite lookup_empty.
  split; [intros [_ H]; exact H | intros H; split; [reflexivity | exact H]].
Qed.



Lemma addBookmarkLink_run (l : BookmarkLink) (w : World) :
  exists w', addBookmarkLink l w = (Returned tt, w') /\
    trace w' = trace w /\
    links_of w' = (if existsb (link_conflict l) (links_of w)
                   then links_of w else links_of w ++ [l]).
Proof.
  unfold addBookmarkLink, bind, getBookmarkLinks, gets. cbv beta iota zeta.
  destruct (existsb (link_conflict l) (links_of w)); simpl; eauto.
Qed.



(** The pass, once the remote service has listed the items. *)
Lemma pull_unfold (mapping : FolderMapping) (w : World) (raindrops : list Raindrop) :
  on_raindrops (env w) (trace w) (fetch_call mapping) = Returned raindrops ->
  pullSyncForMapping mapping w
  = bind (for_of (pass_body mapping w) raindrops (pass_start w))
         (pass_end mapping w raindrops) (after_fetch mapping w).
Proof.
  intros Hfetch. unfold pullSyncForMapping. unfold bind at 1.
  unfold getAllRaindropsInCollection, call_with. fold (fetch_call mapping).
  rewrite Hfetch. reflexivity.
Qed.

Lemma updateBookmarkLink_returns linkId updates (w : World) :
  exists r w', updateBookmarkLink linkId updates w = (Returned r, w').
Proof.
  unfold updateBookmarkLink, getBookmarkLinks, bind, gets. cbv beta iota zeta.
  destruct (find _ (links_of w)); eexists _, _; reflexivity.
Qed.

Variable mapping : FolderMapping.
Variables G L : gmap Z BookmarkLink.

Lemma pull_item_skip st item w :
  G !! _id item = None ->
  normalizeUrl (link item) ∈ linkedUrls st ->
  pull_item mapping G L st item w = (Returned st, w).
Proof.
  intros HG Hin. unfold pull_item. rewrite HG.
  rewrite (bool_decide_eq_true_2 _ Hin). reflexivity.
Qed.

Lemma pull_item_create st item w :
  G !! _id item = None ->
  normalizeUrl (link item) ∉ linkedUrls st ->
  exists st' w', pull_item mapping G L st item w = (Returned st', w') /\
    trace w' = trace w ++ [create_call mapping item] /\
    match on_bookmark (env w) (trace w) (create_call mapping item) with
    | Returned b =>
        st' = add_created (normalizeUrl (link item)) st /\
        links_of w' =
          (if existsb (link_conflict (pulled_link mapping item b w)) (links_of w)
           then links_of w else links_of w ++ [pulled_link mapping item b w])
    | Throws e =>
        st' = add_error ("Failed to create bookmark: " ++ render e)%string st /\
        links_of w' = links_of w
    end.
Proof.
  intros HG Hout. unfold pull_item. rewrite HG.
  rewrite (bool_decide_eq_false_2 _ Hout).
  unfold try_catch, bind at 1, bookmarks_create, call_with.
  fold (create_call mapping item).
  destruct (on_bookmark (env w) (trace w) (create_call mapping item)) as [b|e].
  - unfold bind, generateId, Date_now. cbv beta iota.
    match goal with |- context [addBookmarkLink ?l ?w0] =>
      destruct (addBookmarkLink_run l w0) as (w' & -> & Ht & Hl)
    end.
    exists (add_created (normalizeUrl (link item)) st), w'.
    split; [reflexivity|]. split; [exact Ht|]. split; [reflexivity|]. exact Hl.
  - eexists _, _. split; [reflexivity|]. split; [reflexivity|]. split; reflexivity.
Qed.

(** Every step returns, and [linkedUrls] gains at most the URL of the item. *)
Lemma pull_item_returns st item w :
  exists st' w', pull_item mapping G L st item w = (Returned st', w') /\
    linkedUrls st ⊆ linkedUrls st' /\
    (forall x, x ∈ linkedUrls st' ->
       x ∈ linkedUrls st \/ x = normalizeUrl (link item)).
Proof.
  destruct (G !! _id item) as [g|] eqn:HG.
  - unfold pull_item. rewrite HG.
    destruct (L !! _id item) as [l|]; [|exists st, w; set_solver].
    destruct (negb _); [|exists st, w; set_solver].
    unfold try_catch, bind at 1, bookmarks_update, call_with.
    destruct (on_void _ _ _) as [[]|e]; [|eexists _, _; split; [reflexivity|set_solver]].
    unfold bind, Date_now. cbv beta iota.
    match goal with |- context [updateBookmarkLink ?i ?u ?w0] =>
      destruct (updateBookmarkLink_returns i u w0) as (r & w' & ->)
    end.
    eexists _, _. split; [reflexivity|set_solver].
  - destruct (decide (normalizeUrl (link item) ∈ linkedUrls st)) as [Hin|Hout].
    + rewrite (pull_item_skip _ _ _ HG Hin). exists st, w. set_solver.
    + destruct (pull_item_create st item w HG Hout) as (st' & w' & -> & _ & Hres).
      exists st', w'. split; [reflexivity|].
      destruct (on_bookmark _ _ _); destruct Hres as [-> _]; simpl;
        (split; [|intros x Hx]).
      * apply union_subseteq_r.
      * apply elem_of_union in Hx as [Hx|Hx]; [right | left; exact Hx].
        apply elem_of_singleton in Hx. exact Hx.
      * reflexivity.
      * left. exact Hx.
Qed.

Lemma for_of_pull_returns (items : list Raindrop) st w :
  exists st' w', for_of (pull_item mapping G L) items st w = (Returned st', w') /\
    linkedUrls st ⊆ linkedUrls st' /\
    (forall x, x ∈ linkedUrls st' ->
       x ∈ linkedUrls st \/ exists i, In i items /\ x = normalizeUrl (link i)).
Proof.
  revert st w. induction items as [|i items IH]; intros st w.
  - exists st, w. split; [reflexivity|]. split; [set_solver | auto].
  - destruct (pull_item_returns st i w) as (st1 & w1 & Hstep & Hsub & Hnew).
    destruct (IH st1 w1) as (st' & w' & Hrest & Hsub' & Hnew').
    exists st', w'. split.
    { simpl. unfold bind. rewrite Hstep. exact Hrest. }
    split; [set_solver|].
    intros x Hx. destruct (Hnew' x Hx) as [H|(j & Hj & ->)].
    + destruct (Hnew x H) as [H'| ->]; [left; exact H'|].
      right. exists i. split; [left; reflexivity | reflexivity].
    + right. exists j. split; [right; exact Hj | reflexivity].
Qed.

End Pull.

Example pull_creates_then_skips :
  let first := pullSyncForMapping SamplePull.mapping_1 SamplePull.world_2 in
  let second := pullSyncForMapping SamplePull.mapping_1 (snd first) in
  fst first = Returned (mkPull 1 0 0 []) /\
  map raindropId (links_of (snd first)) = [2] /\
  trace (snd first)
    = [fetch_call SamplePull.mapping_1;
       create_call SamplePull.mapping_1 SamplePull.item_2] /\
  fst second = Returned (mkPull 0 0 0 []) /\
  links_of (snd second) = links_of (snd first).
Proof. vm_compute. repeat split. Qed.


(* ================================================================== *)
(** * URL normalisation *)
(* ================================================================== *)

Section Normalize.

(** When the URL constructor throws, the [catch] branch answers. *)
Lemma normalizeUrl_fallback (u : string) :
  URL_parse u = Rejected -> normalizeUrl u = stripTrailingSlashes (toLowerCase u).
Proof.
  intros H. unfold normalizeUrl, normalizeUrl_try. rewrite H. reflexivity.
Qed.

End Normalize.

Example normalizeUrl_tracking_and_order :
  normalizeUrl "HTTPS://Example.COM/a/b/?utm_source=x&b=2&a=1#top"
  = "https://example.com/a/b?a=1&b=2".
Proof. vm_compute. reflexivity. Qed.

Example normalizeUrl_malformed : normalizeUrl "Not a URL//" = "not a url".
Proof. vm_compute. reflexivity. Qed.

Example hashString_values : hashString "" = "1505" /\ hashString "a" = "2b5c4".
Proof. vm_compute. split; reflexivity. Qed.

(** C8, at the input on which the code departs from it.  The path
    "/b//" loses one of its two trailing slashes only, so that the result of
    [normalizeUrl] is changed by a second application: [normalizeUrl] is not
    idempotent on "http://a.com/b//". *)
Theorem normalizeUrl_not_idempotent_on_double_slash :
  normalizeUrl "http://a.com/b//" = "http://a.com/b/" /\
  normalizeUrl (normalizeUrl "http://a.com/b//") = "http://a.com/b" /\
  normalizeUrl (normalizeUrl "http://a.com/b//") <> normalizeUrl "http://a.com/b//".
Proof. vm_compute. repeat split. discriminate. Qed.

End OnPlatform.

(* ================================================================== *)
(** * The theorems at sample inputs *)
(* ================================================================== *)

Lemma link_ids_stay_unique_witness :
  unique_ids (links_of SampleLock.world_linked) /\
  exists w',
    run_ops [AddLink Sample.link_7; RemoveLink "l-7"; AddLink Sample.link_7]
            SampleLock.world_linked = (Returned tt, w') /\
    unique_ids (links_of w').
Proof.
  assert (H : unique_ids (links_of SampleLock.world_linked)).
  { split; simpl; apply NoDup_cons; (split; [apply not_elem_of_nil | apply NoDup_nil_2]). }
  split; [exact H|]. apply (link_ids_stay_unique _ _ H).
Defined.

Lemma duplicate_link_is_silent_witness :
  (exists l, In l (links_of SampleLock.world_linked) /\
     (firefoxId l = firefoxId Sample.link_7 \/ raindropId l = raindropId Sample.link_7)) /\
  (exists m, In m (mappings_of SampleLock.world_linked) /\
     (firefoxFolderId m = firefoxFolderId SamplePull.mapping_1 \/
      raindropCollectionId m = raindropCollectionId SamplePull.mapping_1)) /\
  addBookmarkLink Sample.link_7 SampleLock.world_linked
    = (Returned tt, SampleLock.world_linked) /\
  addFolderMapping SamplePull.mapping_1 SampleLock.world_linked
    = (Throws (JsError "Mapping already exists for this folder or collection"),
       SampleLock.world_linked).
Proof.
  assert (Hl : exists l, In l (links_of SampleLock.world_linked) /\
     (firefoxId l = firefoxId Sample.link_7 \/ raindropId l = raindropId Sample.link_7)).
  { exists Sample.link_7. split; [left; reflexivity | left; reflexivity]. }
  assert (Hm : exists m, In m (mappings_of SampleLock.world_linked) /\
     (firefoxFolderId m = firefoxFolderId SamplePull.mapping_1 \/
      raindropCollectionId m = raindropCollectionId SamplePull.mapping_1)).
  { exists SamplePull.mapping_1. split; [left; reflexivity | left; reflexivity]. }
  split; [exact Hl|]. split; [exact Hm|].
  destruct (duplicate_link_is_silent_duplicate_mapping_throws
              Sample.link_7 SamplePull.mapping_1 SampleLock.world_linked)
    as [Hlink Hmapping].
  split; [exact (Hlink Hl) | exact (Hmapping Hm)].
Defined.


Lemma moveToFailed_counts_then_parks_witness :
  find (has_id "op-9") (pending (queue_of SampleQueue.world_untitled))
    = Some SampleQueue.create_untitled /\
  exists w', moveToFailed "op-9" "boom" SampleQueue.world_untitled = (Returned tt, w') /\
    pending (queue_of w') = [] /\
    failed (queue_of w') = [record_failure "boom" SampleQueue.create_untitled].
Proof.
  split; [reflexivity|].
  destruct (moveToFailed_counts_then_parks "op-9" "boom" SampleQueue.create_untitled
              SampleQueue.world_untitled eq_refl)
    as (w' & Hrun & _ & _ & Hparked & _).
  exists w'. split; [exact Hrun|].
  assert (Hge : maxRetries SampleQueue.create_untitled
                <= retries SampleQueue.create_untitled + 1) by (simpl; lia).
  destruct (Hparked Hge) as (Hp & Hf & _).
  split; [exact Hp | exact Hf].
Defined.

(* ================================================================== *)
(** * Removing a mapping with its descendants *)
(* ================================================================== *)

Section Cascade.

Variable mappings : list FolderMapping.
Variable root : string.

Let step (st : gset string * bool) (m : FolderMapping) : gset string * bool :=
  if joins (fst st) m then ({[ fm_id m ]} ∪ fst st, true) else st.

Lemma closure_fold_grows (l : list FolderMapping) (st : gset string * bool) :
  fst st ⊆ fst (fold_left step l st).
Proof.
  revert st. induction l as [|m l IH]; intros st; simpl; [reflexivity|].
  etransitivity; [|apply IH]. unfold step.
  destruct (joins (fst st) m); simpl; [apply union_subseteq_r | reflexivity].
Qed.

Lemma closure_fold_flag (l : list FolderMapping) (st : gset string * bool) :
  snd st = true -> snd (fold_left step l st) = true.
Proof.
  revert st. induction l as [|m l IH]; intros st Hst; simpl; [exact Hst|].
  apply IH. unfold step. destruct (joins (fst st) m); [reflexivity | exact Hst].
Qed.

(** A pass that adds nothing has met no mapping to add. *)
Lemma closure_fold_quiet (l : list FolderMapping) (ids : gset string) :
  snd (fold_left step l (ids, false)) = false ->
  fold_left step l (ids, false) = (ids, false) /\
  forall m, In m l -> joins ids m = false.
Proof.
  induction l as [|m l IH]; simpl; intros H.
  - split; [reflexivity | intros m []].
  - unfold step at 2 in H. unfold step at 2. simpl in *.
    destruct (joins ids m) eqn:E.
    + rewrite closure_fold_flag in H by reflexivity. discriminate.
    + destruct (IH H) as [Heq Hall]. split; [exact Heq|].
      intros m' [<-|Hin]; [exact E | exact (Hall m' Hin)].
Qed.

(** A pass that adds something leaves a larger set. *)
Lemma closure_fold_larger (l : list FolderMapping) (st : gset string * bool) :
  snd (fold_left step l st) = true ->
  snd st = true \/ (size (fst st) < size (fst (fold_left step l st)))%nat.
Proof.
  revert st. induction l as [|m l IH]; intros st H; simpl in *; [left; exact H|].
  unfold step at 2 in H. unfold step at 2.
  destruct (joins (fst st) m) eqn:E.
  - right. unfold joins in E. apply andb_true_iff in E as [_ Hnew].
    apply negb_true_iff, bool_decide_eq_false in Hnew.
    pose proof (closure_fold_grows l ({[ fm_id m ]} ∪ fst st, true)) as Hsub.
    apply subseteq_size in Hsub. simpl in Hsub.
    rewrite size_union in Hsub
      by (intros x Hx Hx'; apply elem_of_singleton in Hx; subst x; contradiction).
    rewrite size_singleton in Hsub. lia.
  - exact (IH st H).
Qed.

(** Whatever a pass adds is the id of a mapping. *)
Lemma closure_fold_bounded (l : list FolderMapping) (st : gset string * bool) :
  fst (fold_left step l st) ⊆ fst st ∪ list_to_set (map fm_id l).
Proof.
  revert st. induction l as [|m l IH]; intros st; simpl.
  - apply union_subseteq_l.
  - etransitivity; [apply IH|]. unfold step.
    destruct (joins (fst st) m); simpl; intros x;
      rewrite !elem_of_union, ?elem_of_singleton; tauto.
Qed.

(** Whatever a pass adds descends from the root, when the set does. *)
Lemma closure_fold_descends (l : list FolderMapping) (st : gset string * bool) :
  (forall m, In m l -> In m mappings) ->
  (forall x, x ∈ fst st -> Descends mappings root x) ->
  forall x, x ∈ fst (fold_left step l st) -> Descends mappings root x.
Proof.
  revert st. induction l as [|m l IH]; intros st Hl Hst; simpl; [exact Hst|].
  apply IH; [intros m' Hm'; apply Hl; right; exact Hm'|].
  unfold step. destruct (joins (fst st) m) eqn:E; [|exact Hst].
  simpl. intros x Hx. apply elem_of_union in Hx as [Hx|Hx]; [|exact (Hst x Hx)].
  apply elem_of_singleton in Hx. subst x.
  unfold joins in E. apply andb_true_iff in E as [E _].
  apply andb_true_iff in E as [Htruthy Hparent].
  apply bool_decide_eq_true in Hparent.
  destruct (parentMappingId m) as [p|] eqn:Hp; [|discriminate].
  simpl in Hparent, Htruthy.
  apply (Descends_child mappings root m p).
  - apply Hl. left. reflexivity.
  - exact Hp.
  - intros ->. discriminate.
  - exact (Hst p Hparent).
Qed.

Let universe : gset string := {[ root ]} ∪ list_to_set (map fm_id mappings).

Lemma list_to_set_size (l : list string) :
  (size (list_to_set l : gset string) <= length l)%nat.
Proof.
  induction l as [|x l IH].
  - rewrite list_to_set_nil, size_empty. simpl. lia.
  - rewrite list_to_set_cons, size_union_alt, size_singleton. simpl.
    assert (size (list_to_set l ∖ {[x]} : gset string)
            <= size (list_to_set l : gset string))%nat
      by (apply subseteq_size, subseteq_difference_l; reflexivity).
    lia.
Qed.

Lemma universe_size : (size universe <= S (length mappings))%nat.
Proof.
  unfold universe. rewrite size_union_alt, size_singleton.
  assert (size (list_to_set (map fm_id mappings) ∖ {[root]} : gset string)
          <= size (list_to_set (map fm_id mappings) : gset string))%nat
    by (apply subseteq_size, subseteq_difference_l; reflexivity).
  pose proof (list_to_set_size (map fm_id mappings)) as H'.
  rewrite length_map in H'. lia.
Qed.

(** With enough passes allowed, the loop ends on a pass that adds nothing. *)
Lemma closure_loop_closed (fuel : nat) (ids : gset string) :
  ids ⊆ universe ->
  (size universe < fuel + size ids)%nat ->
  (forall x, x ∈ ids -> Descends mappings root x) ->
  let result := closure_loop fuel mappings ids in
  ids ⊆ result /\ closed_under mappings result /\
  (forall x, x ∈ result -> Descends mappings root x).
Proof.
  revert ids. induction fuel as [|fuel IH]; intros ids Hsub Hsize Hdesc.
  - apply subseteq_size in Hsub. lia.
  - simpl. unfold closure_pass. fold step.
    destruct (fold_left step mappings (ids, false)) as [ids' added] eqn:Hpass.
    assert (Hgrow : ids ⊆ ids').
    { pose proof (closure_fold_grows mappings (ids, false)) as H.
      rewrite Hpass in H. exact H. }
    assert (Hdesc' : forall x, x ∈ ids' -> Descends mappings root x).
    { pose proof (closure_fold_descends mappings (ids, false) (fun m H => H) Hdesc) as H.
      rewrite Hpass in H. exact H. }
    destruct added.
    + assert (Hlarger : (size ids < size ids')%nat).
      { pose proof (closure_fold_larger mappings (ids, false)) as H.
        rewrite Hpass in H. destruct (H eq_refl) as [H'|H']; [discriminate | exact H']. }
      assert (Hsub' : ids' ⊆ universe).
      { pose proof (closure_fold_bounded mappings (ids, false)) as H.
        rewrite Hpass in H. simpl in H. unfold universe.
        etransitivity; [exact H|]. apply union_least; [exact Hsub | apply union_subseteq_r]. }
      destruct (IH ids' Hsub' ltac:(lia) Hdesc') as (H1 & H2 & H3).
      split; [etransitivity; eassumption|]. split; assumption.
    + pose proof (closure_fold_quiet mappings ids) as H.
      rewrite Hpass in H. destruct (H eq_refl) as [Heq Hclosed].
      injection Heq as ->.
      split; [reflexivity|]. split; [exact Hclosed | exact Hdesc].
Qed.

(** The set that [removeFolderMapping] computes is the set of the ids that
    descend from the mapping named. *)
Lemma idsToRemove_of_spec (x : string) :
  x ∈ idsToRemove_of root mappings <-> Descends mappings root x.
Proof.
  unfold idsToRemove_of.
  destruct (closure_loop_closed (S (length mappings)) {[ root ]})
    as (Hroot & Hclosed & Hdesc).
  - unfold universe. apply union_subseteq_l.
  - rewrite size_singleton. pose proof universe_size. lia.
  - intros y Hy. apply elem_of_singleton in Hy. subst y. constructor.
  - split; [apply Hdesc|].
    induction 1 as [|m p Hm Hp Hne _ IH].
    + apply Hroot. apply elem_of_singleton. reflexivity.
    + specialize (Hclosed m Hm). unfold joins in Hclosed.
      rewrite Hp in Hclosed. simpl in Hclosed.
      rewrite (bool_decide_eq_true_2 _ IH) in Hclosed.
      destruct (String.eqb p "") eqn:E; [apply String.eqb_eq in E; contradiction|].
      simpl in Hclosed. apply negb_false_iff, bool_decide_eq_true in Hclosed.
      exact Hclosed.
Qed.

End Cascade.

Lemma removeFolderMapping_run (mappingId' : string) (w : World) :
  let ids := idsToRemove_of mappingId' (mappings_of w) in
  exists w', removeFolderMapping mappingId' w = (Returned tt, w') /\
    mappings_of w'
      = List.filter (fun m => negb (bool_decide (fm_id m ∈ ids))) (mappings_of w) /\
    links_of w'
      = List.filter (fun l => negb (bool_decide (mappingId l ∈ ids))) (links_of w).
Proof.
  unfold removeFolderMapping, bind, getFolderMappings, getBookmarkLinks,
    saveFolderMappings, _saveBookmarkLinks, gets, modify.
  cbv beta iota zeta. eexists. split; [reflexivity|]. split; reflexivity.
Qed.

(** X1. [removeFolderMapping] returns; it keeps exactly the mappings whose id
    does not descend from the mapping named (the mapping itself, its
    children by [parentMappingId], their children, and so on) and exactly
    the links whose [mappingId] does not; so no mapping that stays has a
    parent that was removed. *)
Theorem removeFolderMapping_cascades (mappingId' : string) (w : World) :
  exists w', removeFolderMapping mappingId' w = (Returned tt, w') /\
    (forall m, In m (mappings_of w') <->
       In m (mappings_of w) /\ ~ Descends (mappings_of w) mappingId' (fm_id m)) /\
    (forall l, In l (links_of w') <->
       In l (links_of w) /\ ~ Descends (mappings_of w) mappingId' (mappingId l)) /\
    (forall m p, In m (mappings_of w') -> parentMappingId m = Some p -> p <> "" ->
       ~ Descends (mappings_of w) mappingId' p).
Proof.
  destruct (removeFolderMapping_run mappingId' w) as (w' & Hrun & Hmappings & Hlinks).
  exists w'. split; [exact Hrun|].
  assert (Hm : forall m, In m (mappings_of w') <->
       In m (mappings_of w) /\ ~ Descends (mappings_of w) mappingId' (fm_id m)).
  { intros m. rewrite Hmappings.
    rewrite filter_In, negb_true_iff, bool_decide_eq_false, idsToRemove_of_spec.
    reflexivity. }
  split; [exact Hm|]. split.
  - intros l. rewrite Hlinks.
    rewrite filter_In, negb_true_iff, bool_decide_eq_false, idsToRemove_of_spec.
    reflexivity.
  - intros m p Hin Hp Hne Hdesc. apply Hm in Hin as [Hin Hkeep].
    apply Hkeep. exact (Descends_child _ _ m p Hin Hp Hne Hdesc).
Qed.

Example removeFolderMapping_tree :
  let w' := snd (removeFolderMapping "a" SampleTree.world_tree) in
  map fm_id (mappings_of w') = ["z"] /\ map bl_id (links_of w') = ["l2"].
Proof. vm_compute. split; reflexivity. Qed.

(* ================================================================== *)
(** * Invariants through the monad *)
(* ================================================================== *)

Section Invariants.

Variable P : World -> Prop.

Lemma inv_ret {A} (a : A) : invariant P (ret a).
Proof. intros w H. exact H. Qed.

Lemma inv_throw {A} (e : exn) : invariant P (@throw A e).
Proof. intros w H. exact H. Qed.

Lemma inv_gets {A} (f : World -> A) : invariant P (gets f).
Proof. intros w H. exact H. Qed.

Lemma inv_bind {A B} (m : M A) (k : A -> M B) :
  invariant P m -> (forall a, invariant P (k a)) -> invariant P (bind m k).
Proof.
  intros Hm Hk w H. unfold bind. specialize (Hm w H).
  destruct (m w) as [[a|e] w1]; simpl in *; [apply Hk; exact Hm | exact Hm].
Qed.

Lemma inv_try_catch {A} (m : M A) (h : exn -> M A) :
  invariant P m -> (forall e, invariant P (h e)) -> invariant P (try_catch m h).
Proof.
  intros Hm Hh w H. unfold try_catch. specialize (Hm w H).
  destruct (m w) as [[a|e] w1]; simpl in *; [exact Hm | apply Hh; exact Hm].
Qed.

Lemma inv_try_finally {A} (m : M A) (f : M unit) :
  invariant P m -> invariant P f -> invariant P (try_finally m f).
Proof.
  intros Hm Hf w H. unfold try_finally. specialize (Hm w H).
  destruct (m w) as [r w1]. simpl in Hm. specialize (Hf w1 Hm).
  destruct (f w1) as [[[]|e] w2]; exact Hf.
Qed.

Lemma inv_for_of {A St} (body : St -> A -> M St) (l : list A) (st : St) :
  (forall st x, invariant P (body st x)) -> invariant P (for_of body l st).
Proof.
  intros Hbody. revert st. induction l as [|x l IH]; intros st; simpl.
  - apply inv_ret.
  - apply inv_bind; [apply Hbody | intros st'; apply IH].
Qed.

(** A change of the world that [P] does not see. *)
Lemma inv_modify (f : World -> World) :
  (forall w, P w -> P (f w)) -> invariant P (modify f).
Proof. intros Hf w H. simpl. apply Hf. exact H. Qed.

Lemma inv_Date_now : (forall w n, P w -> P (set_ticks n w)) -> invariant P Date_now.
Proof. intros Hf w H. simpl. apply Hf. exact H. Qed.

Lemma inv_generateId : (forall w n, P w -> P (set_next_id n w)) -> invariant P generateId.
Proof. intros Hf w H. simpl. apply Hf. exact H. Qed.

Lemma inv_call_with {A} (answer : Env -> list Call -> Call -> Outcome A) c :
  (forall w t, P w -> P (set_trace t w)) -> invariant P (call_with answer c).
Proof. intros Hf w H. simpl. apply Hf. exact H. Qed.

End Invariants.

(** A world change that the invariant cannot see is a leaf of the search;
    [mutate_and_saveQueue] and [addSyncError] branch on what is stored. *)
Ltac inv_leaf :=
  let w := fresh "w" in
  let H := fresh "H" in
  intros w H;
  first
    [ exact H
    | unfold mutate_and_saveQueue, modify; simpl;
      destruct (sync_queue (local w)); exact H
    | unfold modify; simpl; destruct (sync_stats (local w)); exact H ].

Ltac inv_step named :=
  first
    [ named
    | apply inv_ret | apply inv_throw | apply inv_gets
    | apply inv_bind; [|intro]
    | apply inv_try_catch; [|intro]
    | apply inv_try_finally
    | apply inv_for_of; intros
    | match goal with
      | |- invariant _ (let _ := _ in _) => cbv zeta
      | |- invariant _ (match ?x with _ => _ end) => destruct x
      | |- invariant _ (if ?b then _ else _) => destruct b
      end
    | inv_leaf ].

Ltac inv_search named := repeat (inv_step named).

(* ================================================================== *)
(** * The registry stays free of duplicates *)
(* ================================================================== *)

Section OnPlatform.

Context {platform : Platform}.

Section RegistryInvariant.

Lemma update_first_map {A B} (p : A -> bool) (f : A -> A) (g : A -> B) (l : list A) :
  (forall x, g (f x) = g x) -> map g (update_first p f l) = map g l.
Proof.
  intros Hg. induction l as [|x l IH]; simpl; [reflexivity|].
  destruct (p x); simpl; [rewrite Hg; reflexivity | rewrite IH; reflexivity].
Qed.

Lemma registry_addBookmarkLink l : invariant registry_ok (addBookmarkLink l).
Proof.
  intros w H. destruct (addBookmarkLink_unique l w H) as (w' & -> & H'). exact H'.
Qed.

Lemma registry_removeBookmarkLink i : invariant registry_ok (removeBookmarkLink i).
Proof.
  intros w H. destruct (removeBookmarkLink_unique i w H) as (w' & -> & H'). exact H'.
Qed.

Lemma registry_updateBookmarkLink i u : invariant registry_ok (updateBookmarkLink i u).
Proof.
  intros w [Hf Hr]. unfold updateBookmarkLink, getBookmarkLinks, bind, gets.
  cbv beta iota zeta. destruct (find _ (links_of w)); [|exact (conj Hf Hr)].
  change (unique_ids (update_first (fun l => String.eqb (bl_id l) i)
                                   (apply_updates u) (links_of w))).
  unfold unique_ids.
  rewrite !update_first_map by (intros x; reflexivity). split; assumption.
Qed.

Ltac registry :=
  inv_search
    ltac:(first [ apply registry_addBookmarkLink
                | apply registry_removeBookmarkLink
                | apply registry_updateBookmarkLink ]).

Lemma registry_processOperation operation :
  invariant registry_ok (processOperation operation).
Proof.
  unfold processOperation, processFirefoxOperation, processRaindropOperation.
  destruct (op_source operation), (op_type operation);
    unfold pushCreateToRaindrop, pushUpdateToRaindrop, pushDeleteToRaindrop,
           pushMoveToRaindrop, pullCreateFromRaindrop, pullUpdateFromRaindrop,
           pullDeleteFromRaindrop;
    registry.
Qed.

Lemma registry_iteration queue i operation :
  invariant registry_ok (iteration queue i operation).
Proof.
  unfold iteration.
  inv_search ltac:(apply registry_processOperation).
Qed.

Lemma registry_process_from fuel queue i :
  invariant registry_ok (process_from fuel queue i).
Proof.
  revert i. induction fuel as [|fuel IH]; intros i; simpl.
  - apply inv_ret.
  - inv_search ltac:(first [apply registry_iteration | apply IH]).
Qed.

End RegistryInvariant.

(** X2. The seven queue handlers, and a whole run of [processQueue], keep
    the registry free of duplicate local ids and of duplicate remote ids,
    whatever the environment answers and whether the handlers return or
    throw. *)
Theorem processQueue_keeps_registry (operation : SyncOperation) (w : World) :
  unique_ids (links_of w) ->
  unique_ids (links_of (snd (processOperation operation w))) /\
  unique_ids (links_of (snd (processQueue w))).
Proof.
  intros H. split.
  - exact (registry_processOperation operation w H).
  - revert w H. change (invariant registry_ok processQueue).
    unfold processQueue, process_pending, acquireLock, releaseLock, setSyncing,
      getQueue_ref.
    inv_search ltac:(apply registry_process_from).
Qed.

(** X3. A pull pass over a mapping keeps the registry free of duplicate
    local ids and of duplicate remote ids, also when the listing fails, when
    the bookmark store rejects a call or when it returns a local id that is
    linked already. *)
Theorem pullSyncForMapping_keeps_registry (mapping : FolderMapping) (w : World) :
  unique_ids (links_of w) ->
  unique_ids (links_of (snd (pullSyncForMapping mapping w))).
Proof.
  revert w. change (invariant registry_ok (pullSyncForMapping mapping)).
  unfold pullSyncForMapping, pull_item, pull_deleted.
  inv_search
    ltac:(first [ apply registry_addBookmarkLink
                | apply registry_removeBookmarkLink
                | apply registry_updateBookmarkLink ]).
Qed.

(* ================================================================== *)
(** * The lock after processing *)
(* ================================================================== *)

Section Unlock.

Lemma process_pending_unlocks (w : World) :
  lock_of (snd (process_pending w)) = None.
Proof.
  unfold process_pending, bind, setSyncing, modify. cbv beta iota.
  unfold try_finally.
  match goal with |- context [try_catch ?m ?h ?w1] =>
    destruct (try_catch m h w1) as [r w2]
  end.
  reflexivity.
Qed.

Lemma acquireLock_cases (w : World) :
  (acquireLock w = (Returned true, reclaimed w) /\
     (forall ts, lock_of w = Some ts ->
        PROCESSING_LOCK_TIMEOUT <= clock w (ticks w) - ts)) \/
  (acquireLock w = (Returned true,
                    set_local (put_lock (Some (clock w (ticks w))))
                              (set_ticks (S (ticks w)) w)) /\
     lock_of w = None) \/
  (exists ts, lock_of w = Some ts /\
     clock w (ticks w) - ts < PROCESSING_LOCK_TIMEOUT /\
     acquireLock w = (Returned false, set_ticks (S (ticks w)) w)).
Proof.
  unfold lock_of, acquireLock, bind, gets, Date_now, modify, ret. cbv beta iota.
  destruct (queue_processing_lock (local w)) as [ts|]; cbv beta iota.
  - destruct (Z.ltb_spec (clock w (ticks w) - ts) PROCESSING_LOCK_TIMEOUT).
    + right. right. exists ts. auto.
    + left. split; [reflexivity|]. intros ts' [= <-]. assumption.
  - right. left. split; reflexivity.
Qed.

End Unlock.

(** X4. [processQueue] returns in every world and never leaves a lock of its
    own behind: afterwards either no lock is stored, or the lock stored
    before is younger than the threshold and is still there, and then
    nothing else than the clock reading has changed. *)
Theorem processQueue_releases_lock (w : World) :
  exists w', processQueue w = (Returned tt, w') /\
    (lock_of w' = None \/
     exists ts, lock_of w = Some ts /\
       clock w (ticks w) - ts < PROCESSING_LOCK_TIMEOUT /\
       w' = set_ticks (S (ticks w)) w).
Proof.
  unfold processQueue, bind.
  destruct (acquireLock_cases w) as [[-> _]|[[-> _]|(ts & Hts & Hyoung & ->)]];
    cbv beta iota; cbn [negb].
  - destruct (process_pending_returns (reclaimed w)) as (w' & Hrun).
    exists w'. split; [exact Hrun|]. left.
    pose proof (process_pending_unlocks (reclaimed w)) as H.
    rewrite Hrun in H. exact H.
  - match goal with |- context [process_pending ?w0] =>
      destruct (process_pending_returns w0) as (w' & Hrun);
      pose proof (process_pending_unlocks w0) as H
    end.
    exists w'. split; [exact Hrun|]. left. rewrite Hrun in H. exact H.
  - eexists. split; [reflexivity|]. right. exists ts. auto.
Qed.

(** X5. [forceProcess] never yields to a stored lock, however young: it
    always runs the processing of the pending operations, returns, and
    leaves no lock. *)
Theorem forceProcess_ignores_lock (w : World) :
  let w0 := set_local (put_lock (Some (clock w (ticks w))))
                      (set_ticks (S (ticks w)) w) in
  forceProcess w = process_pending w0 /\
  exists w', forceProcess w = (Returned tt, w') /\ lock_of w' = None.
Proof.
  intros w0.
  assert (Hrun : forceProcess w = process_pending w0) by reflexivity.
  split; [exact Hrun|].
  destruct (process_pending_returns w0) as (w' & Hret).
  exists w'. rewrite Hrun. split; [exact Hret|].
  pose proof (process_pending_unlocks w0) as H. rewrite Hret in H. exact H.
Qed.

(* ================================================================== *)
(** * What becomes of an operation *)
(* ================================================================== *)

Section Outcome.

Lemma processOperation_keeps_queue_of operation w :
  queue_of (snd (processOperation operation w)) = queue_of w.
Proof.
  pose proof (keeps_processOperation operation w) as H.
  unfold queue_objects in H. injection H as Hs Hd.
  unfold queue_of. rewrite Hs, Hd. reflexivity.
Qed.

End Outcome.

(** X6. When the handler of an operation returns, the iteration of
    [processQueue] removes every operation with its id from the pending and
    from the failed partition, keeps the other operations in their order,
    and stores statistics that record the success, the time of the clock
    and the number of stored links. *)
Theorem processed_operation_leaves_queue
  (queue : QueueRef) (i : nat) (operation : SyncOperation) (w w1 : World) :
  processOperation operation w = (Returned tt, w1) ->
  let gone := fun op => negb (has_id (op_id operation) op) in
  exists w', iteration queue i operation w = (Returned tt, w') /\
    pending (queue_of w') = List.filter gone (pending (queue_of w)) /\
    failed (queue_of w') = List.filter gone (failed (queue_of w)) /\
    links_of w' = links_of w1 /\ trace w' = trace w1 /\
    exists stats, sync_stats (local w') = Some stats /\
      lastSyncStatus stats = success /\
      lastSyncTime stats = clock w1 (ticks w1) /\
      totalSynced stats = Z.of_nat (length (links_of w1)).
Proof.
  intros Hrun gone.
  pose proof (processOperation_keeps_queue_of operation w) as Hq.
  rewrite Hrun in Hq. cbn [snd] in Hq. rewrite <- Hq.
  unfold iteration, try_catch. unfold bind at 1. rewrite Hrun.
  unfold removeFromQueue, mutate_and_saveQueue, updateSyncStats, getSyncStats,
    getQueue, bind, gets, modify, Date_now, ret.
  cbv beta iota zeta. unfold queue_of.
  destruct (sync_queue (local w1)) as [q|] eqn:E.
  - eexists. split; [reflexivity|]. simpl.
    repeat (split; [reflexivity|]).
    eexists. split; [reflexivity|]. repeat split.
  - eexists. split; [reflexivity|]. simpl.
    repeat (split; [reflexivity|]).
    eexists. split; [reflexivity|]. repeat split.
Qed.

(** X7. An operation that [moveToFailed] has parked comes back with
    [retryFailed]: the failed partition is emptied, every failed operation is
    appended to the pending ones with its retry counter at zero and no last
    error, and the operation parked last is the last pending operation. *)
Theorem parked_operation_is_requeued
  (operationId errorMessage : string) (operation : SyncOperation) (w : World) :
  find (has_id operationId) (pending (queue_of w)) = Some operation ->
  maxRetries operation <= retries operation + 1 ->
  exists w1 w2,
    moveToFailed operationId errorMessage w = (Returned tt, w1) /\
    retryFailed w1 = (Returned tt, w2) /\
    failed (queue_of w2) = [] /\
    pending (queue_of w2)
      = pending (queue_of w1) ++ map reset_retries (failed (queue_of w1)) /\
    last (pending (queue_of w2)) = Some (reset_retries operation) /\
    (length (pending (queue_of w2))
     = length (pending (queue_of w1)) + length (failed (queue_of w1)))%nat.
Proof.
  intros Hfind Hge.
  destruct (moveToFailed_run operationId errorMessage operation w Hfind)
    as (w1 & Hmove & Hq1).
  replace (retries operation + 1 >=? maxRetries operation) with true in Hq1
    by (symmetry; apply Z.geb_le; exact Hge).
  destruct (mutate_and_saveQueue_run
              (mkQueue (pending (queue_of w1) ++ map reset_retries (failed (queue_of w1))) [])
              w1) as (w2 & Hretry & Hq2).
  exists w1, w2. split; [exact Hmove|]. split; [exact Hretry|].
  rewrite Hq2. cbn [pending failed].
  split; [reflexivity|]. split; [reflexivity|]. split.
  - rewrite Hq1. cbn [pending failed].
    set (counted := record_failure errorMessage operation).
    assert (Hdrop : drop (length (failed (queue_of w) ++ [counted]) - 100)
                         (failed (queue_of w) ++ [counted])
                    = drop (length (failed (queue_of w) ++ [counted]) - 100)
                           (failed (queue_of w)) ++ [counted]).
    { rewrite length_app. simpl. apply drop_app_le. lia. }
    rewrite Hdrop, map_app. simpl. rewrite app_assoc, last_snoc. reflexivity.
  - rewrite length_app, length_map. reflexivity.
Qed.

(* ================================================================== *)
(** * Statistics and recent errors *)
(* ================================================================== *)

Section RecentErrors.

Lemma take_fifty (error : SyncError) (l : list SyncError) :
  (if Z.of_nat (length (error :: l)) >? 50
   then take 50 (error :: l) else error :: l) = take 50 (error :: l).
Proof.
  destruct (Z.of_nat (length (error :: l)) >? 50) eqn:E; [reflexivity|].
  symmetry. apply take_ge. lia.
Qed.

Lemma addSyncError_run (error : SyncError) (w : World) :
  let kept := take 50 (error :: errors (stats_of w)) in
  let stored := mkStats (Z.of_nat (length (links_of w)))
                        (pendingOperations (stats_of w))
                        (failedOperations (stats_of w))
                        (lastSyncTime (stats_of w))
                        (lastSyncStatus (stats_of w)) kept in
  exists w', addSyncError error w = (Returned tt, w') /\
    sync_stats (local w') = Some stored /\
    links_of w' = links_of w /\ queue_of w' = queue_of w.
Proof.
  intros kept stored.
  unfold addSyncError, updateSyncStats, getSyncStats, bind, gets, modify, ret.
  cbv beta iota zeta. fold (stats_of w). fold (links_of w).
  cbn [errors]. rewrite take_fifty. fold kept.
  unfold stats_of, links_of, queue_of in *.
  destruct (sync_stats (local w)) as [s|]; eexists;
    (split; [reflexivity|]); (split; [reflexivity|]); split; reflexivity.
Qed.

End RecentErrors.

(** X8. [addSyncError] puts the new error first and keeps the fifty most
    recent errors, whatever the number recorded before; the record that it
    stores carries the current number of links. *)
Theorem addSyncError_keeps_fifty (error : SyncError) (w : World) :
  exists w' stats,
    addSyncError error w = (Returned tt, w') /\
    sync_stats (local w') = Some stats /\
    errors stats = take 50 (error :: errors (stats_of w)) /\
    head (errors stats) = Some error /\
    (length (errors stats) <= 50)%nat /\
    totalSynced stats = Z.of_nat (length (links_of w)) /\
    links_of w' = links_of w /\ queue_of w' = queue_of w.
Proof.
  destruct (addSyncError_run error w) as (w' & Hrun & Hstored & Hl & Hq).
  eexists w', _. split; [exact Hrun|]. split; [exact Hstored|].
  cbn [errors totalSynced]. split; [reflexivity|]. split; [reflexivity|].
  split; [rewrite length_take; lia|]. split; [reflexivity|].
  split; assumption.
Qed.

(** X9. What [updateSyncStats] stores is read back by [getSyncStats] field
    by field, except [totalSynced]: the value read is the number of stored
    links, also when the update carried another one. *)
Theorem updateSyncStats_then_getSyncStats (updates : StatsUpdates) (w : World) :
  exists w' updated,
    updateSyncStats updates w = (Returned updated, w') /\
    updated = merge_stats (with_totalSynced (Z.of_nat (length (links_of w))) (stats_of w))
                          updates /\
    getSyncStats w'
      = (Returned (with_totalSynced (Z.of_nat (length (links_of w))) updated), w') /\
    (s_totalSynced updates = None -> getSyncStats w' = (Returned updated, w')).
Proof.
  unfold updateSyncStats, getSyncStats, bind, gets, modify, ret.
  cbv beta iota zeta. eexists _, _. split; [reflexivity|].
  split; [reflexivity|]. split; [reflexivity|].
  intros Hnone. unfold merge_stats. rewrite Hnone. reflexivity.
Qed.

(** X10. Clearing the storage does not clear the queue of the running
    extension: when no queue is stored, [addToQueue] pushes the operation
    onto the module's default queue, which [getQueue] returns again once
    [clearAllData] has removed the stored copy. *)
Theorem cleared_storage_keeps_queued_operation (operation : SyncOperation) (w : World) :
  sync_queue (local w) = None ->
  find (same_key operation) (pending (DEFAULT_SYNC_QUEUE w)) = None ->
  exists w1 w2,
    addToQueue operation w = (Returned tt, w1) /\
    clearAllData w1 = (Returned tt, w2) /\
    sync_queue (local w2) = None /\
    getQueue w2
      = (Returned (mkQueue (pending (DEFAULT_SYNC_QUEUE w) ++ [operation])
                           (failed (DEFAULT_SYNC_QUEUE w))), w2).
Proof.
  intros Hnone Hfresh.
  unfold addToQueue, mutate_and_saveQueue, clearAllData, getQueue, bind, gets, modify.
  cbv beta iota. unfold queue_of at 1. rewrite Hnone. cbn [default].
  rewrite Hfresh. unfold queue_of. rewrite Hnone. cbn [default].
  eexists _, _. split; [reflexivity|]. split; [reflexivity|].
  split; reflexivity.
Qed.

(* ================================================================== *)
(** * Which URLs are synchronised *)
(* ================================================================== *)

Section ValidUrl.

Lemma prefix_other_head (p s : string) (a c : ascii) :
  a <> c -> String.prefix (String a p) (String c s) = false.
Proof. intros H. simpl. destruct (ascii_dec a c); [contradiction | reflexivity]. Qed.

End ValidUrl.

(** X11. [isValidSyncUrl] accepts exactly the strings that start with
    "http://" or "https://" once lower-cased: the list of refused schemes
    never decides, since none of them starts like "http". *)
Theorem isValidSyncUrl_iff_http (url : string) :
  isValidSyncUrl url
  = startsWith (toLowerCase url) "http://" || startsWith (toLowerCase url) "https://".
Proof.
  unfold isValidSyncUrl.
  destruct (String.eqb_spec url "") as [->|Hne]; [reflexivity|].
  cbv zeta. unfold startsWith.
  destruct (toLowerCase url) as [|c s] eqn:E; [reflexivity|].
  destruct (ascii_dec c "h") as [->|Hc].
  - replace (existsb (fun protocol => String.prefix protocol (String "h" s))
                     invalidProtocols) with false by reflexivity.
    destruct (String.prefix "http://" (String "h" s)),
             (String.prefix "https://" (String "h" s)); reflexivity.
  - rewrite !(prefix_other_head _ s "h" c) by (intros <-; apply Hc; reflexivity).
    destruct (existsb _ invalidProtocols); reflexivity.
Qed.

Example isValidSyncUrl_samples :
  isValidSyncUrl "HTTPS://Example.com/a" = true /\
  isValidSyncUrl "about:blank" = false /\
  isValidSyncUrl "ftp://example.com/" = false /\
  isValidSyncUrl "" = false.
Proof. vm_compute. repeat split. Qed.

(* ================================================================== *)
(** * The content hash *)
(* ================================================================== *)

Section Djb2.

Lemma lxor_mod_pow2 (a b : Z) :
  Z.lxor a b mod 2 ^ 32 = Z.lxor (a mod 2 ^ 32) (b mod 2 ^ 32) mod 2 ^ 32.
Proof.
  apply Z.bits_inj'. intros n Hn.
  destruct (Z.ltb_spec n 32) as [Hlt|Hge].
  - rewrite !Z.mod_pow2_bits_low, !Z.lxor_spec, !Z.mod_pow2_bits_low by lia.
    reflexivity.
  - rewrite !Z.mod_pow2_bits_high by lia. reflexivity.
Qed.

Lemma int32_mod (z : Z) : int32 z mod 2 ^ 32 = z mod 2 ^ 32.
Proof.
  unfold int32.
  rewrite Zminus_mod, Z.mod_mod by lia.
  rewrite <- Zminus_mod. f_equal. lia.
Qed.

Lemma hash_step_mod (h h' : Z) (c : ascii) :
  h mod 2 ^ 32 = h' mod 2 ^ 32 ->
  hash_step h c mod 2 ^ 32 = Z.lxor (33 * h') (code c) mod 2 ^ 32.
Proof.
  intros H. unfold hash_step.
  rewrite lxor_mod_pow2, int32_mod.
  rewrite (lxor_mod_pow2 (33 * h')). f_equal. f_equal.
  rewrite Z.add_mod, int32_mod, Z.shiftl_mul_pow2 by lia.
  rewrite Z.mul_mod, int32_mod by lia.
  rewrite <- Z.mul_mod, <- Z.add_mod by lia.
  replace (h * 2 ^ 5 + h) with (33 * h) by lia.
  rewrite Z.mul_mod, H, <- Z.mul_mod by lia. reflexivity.
Qed.

Lemma fold_hash_step_mod (l : list ascii) (h h' : Z) :
  h mod 2 ^ 32 = h' ->
  fold_left hash_step l h mod 2 ^ 32
  = fold_left (fun h c => Z.lxor (33 * h) (code c) mod 2 ^ 32) l h'.
Proof.
  revert h h'. induction l as [|c l IH]; intros h h' H; simpl.
  - exact H.
  - apply IH. apply hash_step_mod. rewrite <- H, Z.mod_mod by lia. reflexivity.
Qed.

Lemma hash_value_djb2 (s : string) : hash_value s = djb2 (chars s).
Proof. unfold hash_value, djb2. apply fold_hash_step_mod. reflexivity. Qed.

Lemma hex_digit_cases (d : Z) :
  0 <= d < 16 ->
  hex_value_of (hex_digit d) = d /\ is_hex_digit (hex_digit d) = true.
Proof.
  intros H.
  assert (C : d = 0 \/ d = 1 \/ d = 2 \/ d = 3 \/ d = 4 \/ d = 5 \/ d = 6 \/
              d = 7 \/ d = 8 \/ d = 9 \/ d = 10 \/ d = 11 \/ d = 12 \/
              d = 13 \/ d = 14 \/ d = 15) by lia.
  repeat (destruct C as [->|C]; [vm_compute; split; reflexivity|]).
  subst d. vm_compute. split; reflexivity.
Qed.

Lemma to_hex_spec (fuel : nat) (z : Z) (acc : list ascii) :
  0 <= z < 16 ^ Z.of_nat fuel ->
  forallb is_hex_digit acc = true ->
  let out := to_hex fuel z acc in
  fold_left (fun n c => 16 * n + hex_value_of c) out 0
  = fold_left (fun n c => 16 * n + hex_value_of c) acc z /\
  forallb is_hex_digit out = true /\
  (length out <= fuel + length acc)%nat /\
  (0 < fuel -> length acc < length out)%nat.
Proof.
  revert z acc. induction fuel as [|fuel IH]; intros z acc Hz Hacc; cbv zeta.
  - simpl in *. assert (z = 0) by lia. subst z.
    repeat split; [exact Hacc | lia | lia].
  - cbn [to_hex].
    assert (Hd : 0 <= z mod 16 < 16) by (apply Z.mod_pos_bound; lia).
    destruct (hex_digit_cases _ Hd) as [Hv Hh].
    assert (Hacc' : forallb is_hex_digit (hex_digit (z mod 16) :: acc) = true)
      by (simpl; rewrite Hh, Hacc; reflexivity).
    assert (Hfold : fold_left (fun n c => 16 * n + hex_value_of c)
                              (hex_digit (z mod 16) :: acc) (z / 16)
                    = fold_left (fun n c => 16 * n + hex_value_of c) acc z).
    { simpl. rewrite Hv. f_equal. pose proof (Z.div_mod z 16). lia. }
    destruct (Z.eqb_spec (z / 16) 0) as [E|E].
    + rewrite <- Hfold, E.
      repeat split; [exact Hacc' | simpl; lia | simpl; lia].
    + assert (Hq : 0 <= z / 16 < 16 ^ Z.of_nat fuel).
      { split; [apply Z.div_pos; lia|].
        apply Z.div_lt_upper_bound; [lia|].
        replace (Z.of_nat (S fuel)) with (Z.of_nat fuel + 1) in Hz by lia.
        rewrite Z.pow_add_r in Hz by lia. lia. }
      destruct (IH (z / 16) _ Hq Hacc') as (F & D & L & G).
      rewrite <- Hfold.
      repeat split; [exact F | exact D | simpl in L; lia |].
      intros _. destruct fuel as [|fuel'].
      * simpl in Hq. lia.
      * assert (0 < S fuel')%nat by lia. specialize (G H). cbn [length] in G. lia.
Qed.

Lemma hashString_digits (s : string) :
  chars (hashString s) = to_hex 8 (hash_value s) [].
Proof.
  unfold hashString, hash_value, chars, str.
  apply list_ascii_of_string_of_list_ascii.
Qed.

Lemma chars_inj (s t : string) : chars s = chars t -> s = t.
Proof.
  intros H. rewrite <- (string_of_list_ascii_of_string s),
                    <- (string_of_list_ascii_of_string t).
  unfold chars in H. rewrite H. reflexivity.
Qed.

End Djb2.

(** X12. [hashString] prints, in one to eight lower-case hexadecimal digits
    and without loss, the DJB2-xor hash of the string reduced modulo 2^32:
    the signed 32-bit arithmetic of the loop does not change the value, and
    two strings get the same hash text exactly when these values agree. *)
Theorem hashString_prints_djb2 (s : string) :
  let digits := chars (hashString s) in
  (1 <= length digits <= 8)%nat /\
  forallb is_hex_digit digits = true /\
  hex_number digits = djb2 (chars s) /\
  forall t, hashString s = hashString t <-> djb2 (chars s) = djb2 (chars t).
Proof.
  assert (R : forall u, 0 <= hash_value u < 16 ^ Z.of_nat 8).
  { intros u. unfold hash_value. change (16 ^ Z.of_nat 8) with (2 ^ 32).
    apply Z.mod_pos_bound. lia. }
  assert (N : forall u, hex_number (chars (hashString u)) = djb2 (chars u)).
  { intros u. rewrite hashString_digits. unfold hex_number.
    destruct (to_hex_spec 8 (hash_value u) [] (R u) eq_refl) as (F & _).
    rewrite F. simpl. apply hash_value_djb2. }
  cbv zeta. rewrite hashString_digits.
  destruct (to_hex_spec 8 (hash_value s) [] (R s) eq_refl) as (F & D & L & G).
  split; [|split; [exact D|split]].
  - cbn [length] in L, G. lia.
  - rewrite <- hashString_digits. apply N.
  - intros t. split.
    + intros E. rewrite <- !N, E. reflexivity.
    + intros E. apply chars_inj. rewrite !hashString_digits.
      rewrite !hash_value_djb2, E. reflexivity.
Qed.

(* ================================================================== *)
(** * Normal forms of URLs *)
(* ================================================================== *)

Section Fallback.

Lemma chars_str (l : list ascii) : chars (str l) = l.
Proof. apply list_ascii_of_string_of_list_ascii. Qed.

Lemma cut_fst_In (c x : ascii) (l : list ascii) :
  In x (fst (cut c l)) -> In x l.
Proof.
  induction l as [|d l IH]; simpl; [tauto|].
  destruct (Ascii.eqb d c); simpl; [tauto|].
  destruct (cut c l) as [a b]. simpl in *. intros [H|H]; auto.
Qed.

Lemma cut_snd_Some (c : ascii) (l rest : list ascii) :
  snd (cut c l) = Some rest -> In c l.
Proof.
  induction l as [|d l IH]; simpl; [discriminate|].
  destruct (Ascii.eqb_spec d c) as [->|_]; [auto|].
  destruct (cut c l) as [a b]. simpl in *. auto.
Qed.

(** The URL constructor refuses a string that has no colon. *)
Lemma URL_parse_needs_colon (url : string) :
  ~ In ":"%char (chars url) -> URL_parse url = Rejected.
Proof.
  intros H. unfold URL_parse.
  destruct (existsb (Ascii.eqb ":") (chars url)) eqn:E; [|reflexivity].
  exfalso. apply H. apply existsb_exists in E. destruct E as (c & Hc & Heq).
  apply Ascii.eqb_eq in Heq. subst c. exact Hc.
Qed.

Lemma lower_char_idem (c : ascii) : lower_char (lower_char c) = lower_char c.
Proof. destruct c as [[] [] [] [] [] [] [] []]; vm_compute; reflexivity. Qed.

Lemma lower_char_colon (c : ascii) : lower_char c = ":"%char -> c = ":"%char.
Proof.
  destruct c as [[] [] [] [] [] [] [] []]; vm_compute; intros H;
    first [reflexivity | discriminate H].
Qed.

Lemma drop_leading_slashes_In (x : ascii) (l : list ascii) :
  In x (drop_leading_slashes l) -> In x l.
Proof.
  induction l as [|c l IH]; simpl; [tauto|].
  destruct (Ascii.eqb c "/"); simpl; tauto.
Qed.

Lemma drop_leading_slashes_idem (l : list ascii) :
  drop_leading_slashes (drop_leading_slashes l) = drop_leading_slashes l.
Proof.
  induction l as [|c l IH]; simpl; [reflexivity|].
  destruct (Ascii.eqb c "/") eqn:E; [exact IH|].
  simpl. rewrite E. reflexivity.
Qed.

Lemma map_fixed {A} (f : A -> A) (l : list A) :
  (forall x, In x l -> f x = x) -> map f l = l.
Proof.
  induction l as [|x l IH]; intros H; simpl; [reflexivity|].
  rewrite H, IH; [reflexivity | intros y Hy; apply H; right; exact Hy | left; reflexivity].
Qed.

Lemma stripped_In (x : ascii) (s : string) :
  In x (chars (stripTrailingSlashes s)) -> In x (chars s).
Proof.
  unfold stripTrailingSlashes. rewrite chars_str.
  intros H. apply in_rev in H. apply drop_leading_slashes_In in H.
  apply in_rev in H. exact H.
Qed.

Lemma lowered_In (x : ascii) (s : string) :
  In x (chars (toLowerCase s)) -> exists c, In c (chars s) /\ x = lower_char c.
Proof.
  unfold toLowerCase. rewrite chars_str. intros H.
  apply in_map_iff in H. destruct H as (c & <- & Hc). eauto.
Qed.

(** Lower-casing and stripping once more changes nothing. *)
Lemma fallback_idem (url : string) :
  let once := stripTrailingSlashes (toLowerCase url) in
  stripTrailingSlashes (toLowerCase once) = once.
Proof.
  cbv zeta.
  assert (L : toLowerCase (stripTrailingSlashes (toLowerCase url))
              = stripTrailingSlashes (toLowerCase url)).
  { apply chars_inj. unfold toLowerCase at 1. rewrite chars_str.
    apply map_fixed. intros x Hx.
    apply stripped_In, lowered_In in Hx. destruct Hx as (c & _ & ->).
    apply lower_char_idem. }
  rewrite L. unfold stripTrailingSlashes. rewrite chars_str.
  rewrite rev_involutive, drop_leading_slashes_idem. reflexivity.
Qed.

End Fallback.

(** X13. A string without a colon cannot be parsed as a URL, so
    [normalizeUrl] answers from its [catch] branch: the string in lower case
    without its trailing slashes.  On such strings normalising is idempotent
    and [urlsMatch] compares them up to case and trailing slashes. *)
Theorem normalizeUrl_without_scheme (url : string)
  (Hcolon : ~ In ":"%char (chars url)) :
  normalizeUrl url = stripTrailingSlashes (toLowerCase url) /\
  normalizeUrl (normalizeUrl url) = normalizeUrl url /\
  urlsMatch url (normalizeUrl url) = true.
Proof.
  assert (E : normalizeUrl url = stripTrailingSlashes (toLowerCase url))
    by (apply normalizeUrl_fallback, URL_parse_needs_colon, Hcolon).
  assert (I : normalizeUrl (normalizeUrl url) = normalizeUrl url).
  { rewrite E.
    rewrite normalizeUrl_fallback.
    - apply fallback_idem.
    - apply URL_parse_needs_colon. intros H.
      apply stripped_In, lowered_In in H. destruct H as (c & Hc & Hx).
      symmetry in Hx. apply lower_char_colon in Hx. subst c. exact (Hcolon Hc). }
  split; [exact E|]. split; [exact I|].
  unfold urlsMatch. rewrite I. apply String.eqb_refl.
Qed.

Section ParamOrder.










Lemma filter_filter {A} (f g : A -> bool) (l : list A) :
  List.filter f (List.filter g l) = List.filter (fun x => g x && f x) l.
Proof.
  induction l as [|x l IH]; simpl; [reflexivity|].
  destruct (g x); simpl; [destruct (f x)|]; rewrite IH; reflexivity.
Qed.



End ParamOrder.


(* ================================================================== *)
(** * The pull pass and the registry *)
(* ================================================================== *)

Section PullRegistry.

Lemma inv_for_of_In (P : World -> Prop) {A St} (body : St -> A -> M St)
  (l : list A) (st : St) :
  (forall st x, In x l -> invariant P (body st x)) -> invariant P (for_of body l st).
Proof.
  revert st. induction l as [|x l IH]; intros st Hbody; simpl.
  - apply inv_ret.
  - apply inv_bind; [apply Hbody; left; reflexivity|].
    intros st'. apply IH. intros st'' y Hy. apply Hbody. right. exact Hy.
Qed.

Lemma index_id_fold_None (rs : list Raindrop) (m : gmap Z Raindrop) (k : Z) :
  fold_left (fun m r => <[ _id r := r ]> m) rs m !! k = None <->
  m !! k = None /\ forall r, In r rs -> _id r <> k.
Proof.
  revert m. induction rs as [|r rs IH]; intros m; simpl.
  - split; [intros H; split; [exact H | intros r []] | intros [H _]; exact H].
  - rewrite IH. rewrite lookup_insert_None. split.
    + intros [[Hm Hne] Hrest]. split; [exact Hm|].
      intros r' [<-|Hin]; [exact Hne | exact (Hrest r' Hin)].
    + intros [Hm Hall]. split; [split; [exact Hm | apply Hall; left; reflexivity]|].
      intros r' Hin. apply Hall. right. exact Hin.
Qed.

(** [raindropById.has(id)] fails exactly for the links that [vanished]
    names. *)
Lemma index_by_id_vanished (fetched : list Raindrop) (l : BookmarkLink) :
  index_by_id fetched !! raindropId l = None <-> vanished fetched l = true.
Proof.
  unfold index_by_id, vanished. rewrite index_id_fold_None, lookup_empty.
  rewrite negb_true_iff, <- not_true_iff_false, existsb_exists.
  split.
  - intros [_ H] (k & Hk & E). apply in_map_iff in Hk as (r & <- & Hr).
    apply Z.eqb_eq in E. exact (H r Hr (eq_sym E)).
  - intros H. split; [reflexivity|]. intros r Hr E. apply H.
    exists (_id r). split; [apply in_map; exact Hr | apply Z.eqb_eq; auto].
Qed.

Lemma index_fold_Some (links : list BookmarkLink) (m : gmap Z BookmarkLink)
  (k : Z) (l : BookmarkLink) :
  fold_left (fun m l => <[ raindropId l := l ]> m) links m !! k = Some l ->
  m !! k = Some l \/ (In l links /\ raindropId l = k).
Proof.
  revert m. induction links as [|x links IH]; intros m; simpl; [auto|].
  intros H. apply IH in H as [H|[H E]]; [|right; auto].
  destruct (Z.eq_dec (raindropId x) k) as [Ek|Ek].
  - subst k. rewrite lookup_insert_eq in H. injection H as <-. right. auto.
  - rewrite lookup_insert_ne in H by exact Ek. left. exact H.
Qed.

Lemma index_by_raindropId_Some (links : list BookmarkLink) (k : Z) (l : BookmarkLink) :
  index_by_raindropId links !! k = Some l -> In l links /\ raindropId l = k.
Proof.
  intros H. apply index_fold_Some in H as [H|H]; [|exact H].
  rewrite lookup_empty in H. discriminate H.
Qed.

Lemma links_of_mapping_In (mapping : FolderMapping) (w : World) (l : BookmarkLink) :
  In l (links_of_mapping mapping w) <->
  In l (links_of w) /\ mappingId l = fm_id mapping.
Proof.
  unfold links_of_mapping. rewrite filter_In, String.eqb_eq. reflexivity.
Qed.

Lemma removeBookmarkLink_run (linkId : string) (w : World) :
  exists w', removeBookmarkLink linkId w = (Returned tt, w') /\
    trace w' = trace w /\
    links_of w'
    = List.filter (fun l => negb (String.eqb (bl_id l) linkId)) (links_of w).
Proof.
  unfold removeBookmarkLink, bind, getBookmarkLinks, gets, _saveBookmarkLinks, modify.
  cbv beta iota zeta. eexists. split; [reflexivity|]. split; reflexivity.
Qed.

(** One step of the deletion loop. *)
Lemma pull_deleted_run (fetched : list Raindrop) st (l0 : BookmarkLink) (w : World) :
  exists st' w', pull_deleted (index_by_id fetched) st l0 w = (Returned st', w') /\
    if vanished fetched l0
    then deleted (result st') = deleted (result st) + 1 /\
         links_of w'
         = List.filter (fun l => negb (String.eqb (bl_id l) (bl_id l0))) (links_of w)
    else st' = st /\ w' = w.
Proof.
  unfold pull_deleted.
  destruct (index_by_id fetched !! raindropId l0) as [r|] eqn:E.
  - assert (V : vanished fetched l0 = false).
    { apply not_true_iff_false. intros V. apply index_by_id_vanished in V. congruence. }
    rewrite V. exists st, w. auto.
  - apply index_by_id_vanished in E. rewrite E.
    unfold try_catch, bind at 1, bookmarks_remove, call_with.
    destruct (on_void _ _ _) as [[]|e].
    + unfold bind.
      match goal with |- context [removeBookmarkLink ?i ?w0] =>
        destruct (removeBookmarkLink_run i w0) as (w' & -> & _ & Hl)
      end.
      eexists _, _. split; [reflexivity|]. split; [reflexivity | exact Hl].
    + unfold bind.
      match goal with |- context [removeBookmarkLink ?i ?w0] =>
        destruct (removeBookmarkLink_run i w0) as (w' & -> & _ & Hl)
      end.
      eexists _, _. split; [reflexivity|]. split; [reflexivity | exact Hl].
Qed.

(** The deletion loop returns; it only removes links, it removes every link
    that has the id of a vanished link of its list, and it counts one
    deletion for each vanished link. *)
Lemma for_of_pull_deleted (fetched : list Raindrop) (locals : list BookmarkLink)
  st (w : World) :
  exists st' w', for_of (pull_deleted (index_by_id fetched)) locals st w
                 = (Returned st', w') /\
    (forall l, In l (links_of w') -> In l (links_of w)) /\
    (forall l0 l, In l0 locals -> vanished fetched l0 = true ->
       In l (links_of w') -> bl_id l <> bl_id l0) /\
    deleted (result st')
    = deleted (result st) + Z.of_nat (length (List.filter (vanished fetched) locals)).
Proof.
  revert st w. induction locals as [|l0 locals IH]; intros st w.
  - exists st, w. split; [reflexivity|]. split; [auto|]. split; [intros ? ? []|].
    simpl. lia.
  - destruct (pull_deleted_run fetched st l0 w) as (st1 & w1 & Hstep & Hres).
    destruct (IH st1 w1) as (st' & w' & Hrest & Hsub & Hgone & Hcount).
    exists st', w'. split.
    { simpl. unfold bind. rewrite Hstep. exact Hrest. }
    cbn [List.filter]. destruct (vanished fetched l0) eqn:V.
    + destruct Hres as [Hd Hl]. split; [|split].
      * intros l Hl'. apply Hsub in Hl'. rewrite Hl in Hl'.
        apply filter_In in Hl'. tauto.
      * intros l1 l [<-|Hin] V1 Hl'.
        -- apply Hsub in Hl'. rewrite Hl in Hl'. apply filter_In in Hl' as [_ Hne].
           apply negb_true_iff, String.eqb_neq in Hne. exact Hne.
        -- exact (Hgone l1 l Hin V1 Hl').
      * rewrite Hcount, Hd. cbn [length]. lia.
    + destruct Hres as [-> ->]. split; [exact Hsub|]. split; [|exact Hcount].
      intros l1 l [<-|Hin] V1 Hl'; [congruence | exact (Hgone l1 l Hin V1 Hl')].
Qed.

Lemma updateFolderMapping_run (mappingId' : string) (t : Z) (w : World) :
  exists r w', updateFolderMapping mappingId' t w = (Returned r, w') /\
    links_of w' = links_of w /\ trace w' = trace w.
Proof.
  unfold updateFolderMapping, getFolderMappings, bind, gets, saveFolderMappings, modify.
  cbv beta iota zeta.
  destruct (find _ (mappings_of w)); eexists _, _; split; try reflexivity;
    split; reflexivity.
Qed.

(** After the loops the pass only stamps the mapping. *)
Lemma pass_end_run (mapping : FolderMapping) (w : World) (fetched : list Raindrop)
  st1 (w1 : World) :
  exists st2 w2 w',
    for_of (pull_deleted (index_by_id fetched)) (links_of_mapping mapping w) st1 w1
      = (Returned st2, w2) /\
    pass_end mapping w fetched st1 w1 = (Returned (result st2), w') /\
    links_of w' = links_of w2 /\ trace w' = trace w2.
Proof.
  destruct (for_of_pull_deleted fetched (links_of_mapping mapping w) st1 w1)
    as (st2 & w2 & Hloop & _).
  unfold pass_end, bind at 1. rewrite Hloop.
  unfold bind at 1, Date_now. cbv beta iota.
  destruct (updateFolderMapping_run (fm_id mapping) (clock w2 (ticks w2))
              (set_ticks (S (ticks w2)) w2)) as (r & w' & Hu & Hl & Ht).
  exists st2, w2, w'. split; [reflexivity|]. split; [|split].
  - unfold bind. rewrite Hu. reflexivity.
  - exact Hl.
  - exact Ht.
Qed.

End PullRegistry.

Section PullInvariants.

Lemma update_first_elements {A} (p : A -> bool) (f : A -> A) (l : list A) (x : A) :
  In x (update_first p f l) -> In x l \/ exists y, In y l /\ x = f y.
Proof.
  induction l as [|y l IH]; simpl; [tauto|].
  destruct (p y); simpl.
  - intros [<-|H]; [right; exists y; auto | auto].
  - intros [<-|H]; [auto|]. destruct (IH H) as [H'|(z & Hz & ->)]; [auto|].
    right. exists z. auto.
Qed.

Lemma update_first_keeps {A} (p : A -> bool) (f : A -> A) (l : list A) (x : A) :
  p x = false -> In x l -> In x (update_first p f l).
Proof.
  intros Hp. induction l as [|y l IH]; simpl; [tauto|].
  intros [->|H].
  - rewrite Hp. left. reflexivity.
  - destruct (p y); [right; exact H | right; exact (IH H)].
Qed.

Lemma updateBookmarkLink_run (linkId : string) (u : LinkUpdates) (w : World) :
  exists r w', updateBookmarkLink linkId u w = (Returned r, w') /\
    trace w' = trace w /\
    (links_of w' = links_of w \/
     links_of w' = update_first (fun l => String.eqb (bl_id l) linkId)
                                (apply_updates u) (links_of w)).
Proof.
  unfold updateBookmarkLink, getBookmarkLinks, bind, gets, _saveBookmarkLinks, modify.
  cbv beta iota zeta.
  destruct (find _ (links_of w)); eexists _, _; (split; [reflexivity|]);
    (split; [reflexivity|]); [right | left]; reflexivity.
Qed.

Variable mapping : FolderMapping.
Variable fetched : list Raindrop.
Variable locals : list BookmarkLink.

Let K := accounted mapping fetched locals.

Lemma accounted_addBookmarkLink (link : BookmarkLink) :
  vanished fetched link = false -> invariant K (addBookmarkLink link).
Proof.
  intros V w H. destruct (addBookmarkLink_run link w) as (w' & -> & _ & Hl).
  cbn [snd]. intros l Hin Hm. rewrite Hl in Hin.
  destruct (existsb _ (links_of w)); [exact (H l Hin Hm)|].
  apply in_app_or in Hin as [Hin|[<-|[]]]; [exact (H l Hin Hm) | left; exact V].
Qed.

Lemma accounted_updateBookmarkLink (linkId : string) (u : LinkUpdates) :
  u_mappingId u = None -> invariant K (updateBookmarkLink linkId u).
Proof.
  intros Hu w H. destruct (updateBookmarkLink_run linkId u w) as (r & w' & -> & _ & Hl).
  cbn [snd]. intros l Hin Hm. destruct Hl as [Hl|Hl]; rewrite Hl in Hin.
  - exact (H l Hin Hm).
  - apply update_first_elements in Hin as [Hin|(y & Hy & ->)]; [exact (H l Hin Hm)|].
    unfold apply_updates in Hm. cbn [mappingId] in Hm. rewrite Hu in Hm.
    exact (H y Hy Hm).
Qed.

Lemma accounted_removeBookmarkLink (linkId : string) :
  invariant K (removeBookmarkLink linkId).
Proof.
  intros w H. destruct (removeBookmarkLink_run linkId w) as (w' & -> & _ & Hl).
  cbn [snd]. intros l Hin Hm. rewrite Hl in Hin. apply filter_In in Hin as [Hin _].
  exact (H l Hin Hm).
Qed.

Lemma vanished_of_item (item : Raindrop) (l : BookmarkLink) :
  In item fetched -> raindropId l = _id item -> vanished fetched l = false.
Proof.
  intros Hin E. unfold vanished. apply negb_false_iff, existsb_exists.
  exists (_id item). split; [apply in_map; exact Hin | apply Z.eqb_eq; exact E].
Qed.

Lemma vanished_false (l : BookmarkLink) :
  vanished fetched l = false -> exists item, In item fetched /\ _id item = raindropId l.
Proof.
  unfold vanished. intros H. apply negb_false_iff, existsb_exists in H.
  destruct H as (k & Hk & E). apply in_map_iff in Hk as (item & <- & Hin).
  apply Z.eqb_eq in E. eauto.
Qed.

Lemma accounted_pull_item (G L : gmap Z BookmarkLink) st (item : Raindrop) :
  In item fetched -> invariant K (pull_item mapping G L st item).
Proof.
  intros Hin. unfold pull_item.
  inv_search
    ltac:(first [ apply accounted_addBookmarkLink;
                  apply (vanished_of_item item); [exact Hin | reflexivity]
                | apply accounted_updateBookmarkLink; reflexivity ]).
Qed.

Lemma accounted_pull_deleted (R : gmap Z Raindrop) st (l0 : BookmarkLink) :
  invariant K (pull_deleted R st l0).
Proof.
  unfold pull_deleted. inv_search ltac:(apply accounted_removeBookmarkLink).
Qed.

(** The part of the result that the item loop leaves alone. *)
Lemma pull_item_keeps_deleted (G L : gmap Z BookmarkLink) st item w st' w' :
  pull_item mapping G L st item w = (Returned st', w') ->
  deleted (result st') = deleted (result st).
Proof.
  unfold pull_item.
  destruct (G !! _id item).
  - destruct (L !! _id item) as [l|]; [|intros [= <- _]; reflexivity].
    destruct (negb _); [|intros [= <- _]; reflexivity].
    unfold try_catch, bind at 1, bookmarks_update, call_with.
    destruct (on_void _ _ _) as [[]|e]; [|intros [= <- _]; reflexivity].
    unfold bind, Date_now. cbv beta iota.
    match goal with |- context [updateBookmarkLink ?i ?u ?w0] =>
      destruct (updateBookmarkLink_returns i u w0) as (r & w1 & ->)
    end.
    intros [= <- _]. reflexivity.
  - destruct (bool_decide _); [intros [= <- _]; reflexivity|].
    unfold try_catch, bind at 1, bookmarks_create, call_with.
    destruct (on_bookmark _ _ _) as [b|e]; [|intros [= <- _]; reflexivity].
    unfold bind, generateId, Date_now. cbv beta iota.
    match goal with |- context [addBookmarkLink ?l ?w0] =>
      destruct (addBookmarkLink_run l w0) as (w1 & -> & _)
    end.
    intros [= <- _]. reflexivity.
Qed.

Lemma for_of_pull_keeps_deleted (G L : gmap Z BookmarkLink) items st w st' w' :
  for_of (pull_item mapping G L) items st w = (Returned st', w') ->
  deleted (result st') = deleted (result st).
Proof.
  revert st w. induction items as [|i items IH]; intros st w; simpl.
  - intros [= <- _]. reflexivity.
  - unfold bind. destruct (pull_item mapping G L st i w) as [[st1|e] w1] eqn:E;
      [|discriminate].
    intros H. rewrite (IH _ _ H). exact (pull_item_keeps_deleted _ _ _ _ _ _ _ E).
Qed.

End PullInvariants.

(** X15. When the remote service lists the items of the collection, the
    pull pass returns, whatever the bookmark store answers; afterwards every
    link of the mapping points to a listed item, and the result counts as
    deleted the links that the mapping had for items no longer listed. *)
Theorem pull_forgets_vanished_items
  (mapping : FolderMapping) (w : World) (fetched : list Raindrop)
  (Hfetch : on_raindrops (env w) (trace w) (fetch_call mapping) = Returned fetched) :
  exists r w', pullSyncForMapping mapping w = (Returned r, w') /\
    (forall l, In l (links_of_mapping mapping w') ->
       exists item, In item fetched /\ _id item = raindropId l) /\
    deleted r
    = Z.of_nat (length (List.filter (vanished fetched) (links_of_mapping mapping w))).
Proof.
  rewrite (pull_unfold mapping w fetched Hfetch).
  destruct (for_of_pull_returns mapping (index_by_raindropId (links_of w))
              (index_by_raindropId (links_of_mapping mapping w)) fetched (pass_start w)
              (after_fetch mapping w)) as (st1 & w1 & Hloop & _).
  fold (pass_body mapping w) in Hloop.
  assert (K1 : accounted mapping fetched (links_of_mapping mapping w) w1).
  { pose proof (inv_for_of_In (accounted mapping fetched (links_of_mapping mapping w))
                  (pass_body mapping w) fetched (pass_start w)
                  (fun st x Hx => accounted_pull_item mapping fetched (links_of_mapping mapping w) _ _ st x Hx)
                  (after_fetch mapping w)) as H.
    rewrite Hloop in H. apply H.
    intros l Hl Hm. right. exists l. split; [|split; reflexivity].
    apply links_of_mapping_In. split; assumption. }
  assert (D1 : deleted (result st1) = 0)
    by exact (for_of_pull_keeps_deleted mapping _ _ _ _ _ _ _ Hloop).
  destruct (pass_end_run mapping w fetched st1 w1)
    as (st2 & w2 & w' & Hdel & Hend & Hlinks & _).
  destruct (for_of_pull_deleted fetched (links_of_mapping mapping w) st1 w1)
    as (st2' & w2' & Hdel' & Hsub & Hgone & Hcount).
  rewrite Hdel in Hdel'. injection Hdel' as <- <-.
  exists (result st2), w'. split.
  { unfold bind. rewrite Hloop. exact Hend. }
  split.
  - intros l Hl. apply links_of_mapping_In in Hl as [Hl Hm].
    rewrite Hlinks in Hl.
    destruct (K1 l (Hsub l Hl) Hm) as [V|(l0 & Hl0 & Eid & Erid)].
    + exact (vanished_false fetched l V).
    + destruct (vanished fetched l0) eqn:V0.
      * exfalso. exact (Hgone l0 l Hl0 V0 Hl (eq_sym Eid)).
      * destruct (vanished_false fetched l0 V0) as (item & Hi & E).
        exists item. split; [exact Hi | congruence].
  - rewrite Hcount, D1. reflexivity.
Qed.

Example pull_of_a_moving_collection :
  let run := pullSyncForMapping SamplePull.mapping_1 SampleRest.world_moving in
  fst run = Returned (mkPull 1 0 1 []) /\
  map raindropId (links_of (snd run)) = [9; 7; 8].
Proof. vm_compute. split; reflexivity. Qed.

Section PullIsolation.

Variable kept : BookmarkLink.

Let J := holds kept.

Lemma holds_addBookmarkLink (link : BookmarkLink) : invariant J (addBookmarkLink link).
Proof.
  intros w H. destruct (addBookmarkLink_run link w) as (w' & -> & _ & Hl).
  cbn [snd]. unfold J, holds. rewrite Hl.
  destruct (existsb _ (links_of w)); [exact H | apply in_or_app; left; exact H].
Qed.

Lemma holds_updateBookmarkLink (linkId : string) (u : LinkUpdates) :
  linkId <> bl_id kept -> invariant J (updateBookmarkLink linkId u).
Proof.
  intros Hne w H. destruct (updateBookmarkLink_run linkId u w) as (r & w' & -> & _ & Hl).
  cbn [snd]. unfold J, holds. destruct Hl as [-> | ->]; [exact H|].
  apply update_first_keeps; [|exact H].
  apply String.eqb_neq. intros E. apply Hne. symmetry. exact E.
Qed.

Lemma holds_removeBookmarkLink (linkId : string) :
  linkId <> bl_id kept -> invariant J (removeBookmarkLink linkId).
Proof.
  intros Hne w H. destruct (removeBookmarkLink_run linkId w) as (w' & -> & _ & Hl).
  cbn [snd]. unfold J, holds. rewrite Hl. apply filter_In. split; [exact H|].
  apply negb_true_iff, String.eqb_neq. intros E. apply Hne. symmetry. exact E.
Qed.

Lemma holds_pull_item mapping (G L : gmap Z BookmarkLink) st (item : Raindrop) :
  (forall k l0, L !! k = Some l0 -> bl_id l0 <> bl_id kept) ->
  invariant J (pull_item mapping G L st item).
Proof.
  intros HL. unfold pull_item.
  destruct (G !! _id item); [destruct (L !! _id item) as [localLink|] eqn:E|];
    inv_search
      ltac:(first [ apply holds_addBookmarkLink
                  | apply holds_updateBookmarkLink; exact (HL _ _ E) ]).
Qed.

Lemma holds_pull_deleted (R : gmap Z Raindrop) st (l0 : BookmarkLink) :
  bl_id l0 <> bl_id kept -> invariant J (pull_deleted R st l0).
Proof.
  intros Hne. unfold pull_deleted.
  inv_search ltac:(apply holds_removeBookmarkLink; exact Hne).
Qed.

Lemma holds_updateFolderMapping i t : invariant J (updateFolderMapping i t).
Proof.
  intros w H. destruct (updateFolderMapping_run i t w) as (r & w' & -> & Hl & _).
  cbn [snd]. unfold J, holds. rewrite Hl. exact H.
Qed.

End PullIsolation.

(** X16. A pull pass rewrites and removes links by their link id, and only
    with the ids of the links that the mapping had when the pass started: a
    stored link whose id none of those links has is still stored,
    unchanged, after the pass, whether the pass returns or throws. *)
Theorem pull_keeps_links_of_other_mappings
  (mapping : FolderMapping) (w : World) (l : BookmarkLink)
  (Hstored : In l (links_of w))
  (Hid : forall l0, In l0 (links_of_mapping mapping w) -> bl_id l0 <> bl_id l) :
  In l (links_of (snd (pullSyncForMapping mapping w))).
Proof.
  destruct (on_raindrops (env w) (trace w) (fetch_call mapping)) as [fetched|e] eqn:Hfetch.
  - rewrite (pull_unfold mapping w fetched Hfetch).
    apply (inv_bind (holds l)); [| |exact Hstored].
    + apply inv_for_of. intros st item. apply holds_pull_item.
      intros k l0 H. apply index_by_raindropId_Some in H as [H _]. exact (Hid l0 H).
    + intros st1. unfold pass_end.
      apply inv_bind; [|intros st2; apply inv_bind; [|intros now; apply inv_bind]].
      * apply inv_for_of_In. intros st l0 Hl0. apply holds_pull_deleted.
        exact (Hid l0 Hl0).
      * intros w1 H. exact H.
      * apply holds_updateFolderMapping.
      * intros r. apply inv_ret.
  - unfold pullSyncForMapping, bind at 1, getAllRaindropsInCollection, call_with.
    fold (fetch_call mapping). rewrite Hfetch. exact Hstored.
Qed.

Section PullAtRest.

Variable mapping : FolderMapping.
Variable fetched : list Raindrop.
Variable w : World.
Hypothesis Hrest : at_rest mapping fetched w.

Lemma pull_item_at_rest st item w1 :
  In item fetched -> pass_body mapping w st item w1 = (Returned st, w1).
Proof.
  intros Hin. destruct Hrest as (Hlinked & Hhash & _).
  unfold pass_body, pull_item.
  destruct (index_by_raindropId (links_of w) !! _id item) as [g|] eqn:EG.
  - destruct (index_by_raindropId (links_of_mapping mapping w) !! _id item)
      as [localLink|] eqn:EL; [|reflexivity].
    apply index_by_raindropId_Some in EL as [Hl Hr].
    rewrite (Hhash item localLink Hin Hl Hr), String.eqb_refl. reflexivity.
  - exfalso. destruct (Hlinked item Hin) as (l & Hl & Hr).
    exact (proj1 (index_by_raindropId_None _ _) EG l Hl Hr).
Qed.

Lemma for_of_items_at_rest items st w1 :
  (forall item, In item items -> In item fetched) ->
  for_of (pass_body mapping w) items st w1 = (Returned st, w1).
Proof.
  induction items as [|item items IH]; intros Hsub; simpl; [reflexivity|].
  unfold bind. rewrite pull_item_at_rest by (apply Hsub; left; reflexivity).
  apply IH. intros i Hi. apply Hsub. right. exact Hi.
Qed.

Lemma for_of_deleted_at_rest locals st w1 :
  (forall l, In l locals -> vanished fetched l = false) ->
  for_of (pull_deleted (index_by_id fetched)) locals st w1 = (Returned st, w1).
Proof.
  induction locals as [|l0 locals IH]; intros Hall; simpl; [reflexivity|].
  destruct (pull_deleted_run fetched st l0 w1) as (st' & w' & Hstep & Hres).
  rewrite (Hall l0 (or_introl eq_refl)) in Hres. destruct Hres as [-> ->].
  unfold bind. rewrite Hstep. apply IH. intros l Hl. apply Hall. right. exact Hl.
Qed.

End PullAtRest.

(** X17. A pull pass over a mapping that is at rest -- every listed item is
    linked, the links of the mapping carry the content hashes of their
    items, and every link of the mapping has its item listed -- calls
    nothing but the listing, leaves the registry as it is and reports no
    creation, update, deletion or error. *)
Theorem pull_at_rest_changes_nothing
  (mapping : FolderMapping) (w : World) (fetched : list Raindrop)
  (Hfetch : on_raindrops (env w) (trace w) (fetch_call mapping) = Returned fetched)
  (Hrest : at_rest mapping fetched w) :
  exists w', pullSyncForMapping mapping w = (Returned (mkPull 0 0 0 []), w') /\
    links_of w' = links_of w /\
    trace w' = trace w ++ [fetch_call mapping].
Proof.
  rewrite (pull_unfold mapping w fetched Hfetch).
  unfold bind at 1.
  rewrite (for_of_items_at_rest mapping fetched w Hrest) by auto.
  destruct (pass_end_run mapping w fetched (pass_start w) (after_fetch mapping w))
    as (st2 & w2 & w' & Hdel & Hend & Hlinks & Htrace).
  rewrite (for_of_deleted_at_rest fetched) in Hdel by (apply Hrest).
  injection Hdel as <- <-.
  exists w'. split; [exact Hend|]. split; [rewrite Hlinks | rewrite Htrace]; reflexivity.
Qed.

(* ================================================================== *)
(** * The matching of the initial sync *)
(* ================================================================== *)

Section JsMapFacts.

Context {V : Type}.

Lemma map_set_absent (k : string) (v : V) (m : JsMap V) :
  ~ In k (map fst m) -> map_set k v m = m ++ [(k, v)].
Proof.
  induction m as [|[k' v'] m IH]; simpl; intros H; [reflexivity|].
  destruct (String.eqb_spec k' k) as [->|Hne]; [exfalso; apply H; left; reflexivity|].
  rewrite IH; [reflexivity|]. intros Hin. apply H. right. exact Hin.
Qed.

Lemma map_set_keys (k : string) (v : V) (m : JsMap V) :
  In k (map fst m) -> map fst (map_set k v m) = map fst m.
Proof.
  induction m as [|[k' v'] m IH]; simpl; [tauto|].
  destruct (String.eqb_spec k' k) as [->|Hne]; [reflexivity|].
  intros [E|H]; [contradiction|]. simpl. rewrite IH by exact H. reflexivity.
Qed.

Lemma map_set_NoDup (k : string) (v : V) (m : JsMap V) :
  NoDup (map fst m) -> NoDup (map fst (map_set k v m)).
Proof.
  intros H. destruct (in_dec string_dec k (map fst m)) as [Hin|Hout].
  - rewrite map_set_keys by exact Hin. exact H.
  - rewrite map_set_absent by exact Hout.
    apply NoDup_map_snoc; [exact H | exact Hout].
Qed.

Lemma map_set_In (k : string) (v : V) (m : JsMap V) (e : string * V) :
  NoDup (map fst m) ->
  (In e (map_set k v m) <-> e = (k, v) \/ (fst e <> k /\ In e m)).
Proof.
  induction m as [|[k' v'] m IH]; simpl; intros H.
  - split; [intros [<-|[]]; left; reflexivity | intros [->|[_ []]]; left; reflexivity].
  - apply NoDup_cons in H as [Hk Hm]. rewrite list_elem_of_In in Hk.
    destruct (String.eqb_spec k' k) as [->|Hne]; simpl.
    + split.
      * intros [<-|Hin]; [left; reflexivity|]. right. split; [|right; exact Hin].
        intros E. apply Hk. rewrite <- E. apply in_map. exact Hin.
      * intros [->|[Hne [<-|Hin]]]; [left; reflexivity | | right; exact Hin].
        exfalso. apply Hne. reflexivity.
    + rewrite (IH Hm). split.
      * intros [<-|[->|[Hk' Hin]]].
        -- right. split; [exact Hne | left; reflexivity].
        -- left. reflexivity.
        -- right. split; [exact Hk' | right; exact Hin].
      * intros [->|[Hk' [<-|Hin]]].
        -- right. left. reflexivity.
        -- left. reflexivity.
        -- right. right. split; assumption.
Qed.

Lemma map_get_Some (k : string) (m : JsMap V) (r : V) :
  map_get k m = Some r -> In (k, r) m.
Proof.
  unfold map_get. destruct (find _ m) as [[k' v']|] eqn:E; [|discriminate].
  intros [= <-]. apply find_some in E as [Hin Hk]. simpl in Hk.
  apply String.eqb_eq in Hk. subst k'. exact Hin.
Qed.

Lemma map_get_None (k : string) (m : JsMap V) :
  map_get k m = None -> ~ In k (map fst m).
Proof.
  unfold map_get. destruct (find _ m) as [e|] eqn:E; [discriminate|].
  intros _ Hin. apply in_map_iff in Hin as (e & He & Hin).
  pose proof (find_none _ _ E e Hin) as H. simpl in H.
  apply String.eqb_neq in H. contradiction.
Qed.

Lemma map_delete_absent (k : string) (m : JsMap V) :
  ~ In k (map fst m) -> map_delete k m = m.
Proof.
  unfold map_delete.
  induction m as [|[k' v'] m IH]; simpl; intros H; [reflexivity|].
  destruct (String.eqb_spec k' k) as [->|Hne]; simpl.
  - exfalso. apply H. left. reflexivity.
  - rewrite IH; [reflexivity|].
    intros Hin. apply H. right. exact Hin.
Qed.

(** Deleting the key that [get] has found takes exactly that entry away. *)
Lemma map_delete_perm (k : string) (m : JsMap V) (r : V) :
  NoDup (map fst m) -> map_get k m = Some r ->
  Permutation ((k, r) :: map_delete k m) m.
Proof.
  induction m as [|[k' v'] m IH]; intros H Hget; [discriminate|].
  simpl in H. apply NoDup_cons in H as [Hk Hm]. rewrite list_elem_of_In in Hk.
  unfold map_get in Hget. simpl in Hget. unfold map_delete. simpl.
  destruct (String.eqb_spec k' k) as [->|Hne]; simpl.
  - injection Hget as <-. fold (map_delete k m).
    rewrite map_delete_absent by exact Hk. reflexivity.
  - fold (map_delete k m). rewrite perm_swap. apply perm_skip.
    apply IH; [exact Hm | exact Hget].
Qed.

Lemma map_set_length (k : string) (v : V) (m : JsMap V) :
  (length (map_set k v m) <= S (length m))%nat.
Proof.
  induction m as [|[k' v'] m IH]; simpl; [lia|].
  destruct (String.eqb k' k); simpl; lia.
Qed.

End JsMapFacts.

Section KeyedMaps.

Context {A : Type} (key : A -> string).

Lemma last_with_snoc (l : list A) (x v : A) :
  last_with key (l ++ [x]) v <->
  v = x \/ (last_with key l v /\ key x <> key v).
Proof.
  split.
  - intros (before & after & E & Hafter).
    induction after as [|y after' _] using rev_ind.
    + left. apply app_inj_tail in E as [_ E]. symmetry. exact E.
    + right. rewrite app_comm_cons, app_assoc in E.
      apply app_inj_tail in E as [El Ex]. subst y. split.
      * exists before, after'. split; [exact El|].
        intros z Hz. apply Hafter. apply in_or_app. left. exact Hz.
      * apply Hafter. apply in_or_app. right. left. reflexivity.
  - intros [->|((before & after & -> & Hafter) & Hne)].
    + exists l, []. split; [reflexivity | intros z []].
    + exists before, (after ++ [x]). split.
      * rewrite <- app_assoc. reflexivity.
      * intros z Hz. apply in_app_or in Hz as [Hz|[<-|[]]]; [exact (Hafter z Hz) | exact Hne].
Qed.

Lemma last_with_In (l : list A) (v : A) : last_with key l v -> In v l.
Proof.
  intros (before & after & -> & _). apply in_or_app. right. left. reflexivity.
Qed.

(** A loop of [set] calls leaves one entry for each key, with the last
    element that has it. *)
Lemma keyed_map_spec (l : list A) :
  NoDup (map fst (keyed_map key l)) /\
  forall k v, In (k, v) (keyed_map key l) <-> k = key v /\ last_with key l v.
Proof.
  unfold keyed_map.
  induction l as [|x l IH] using rev_ind.
  - split; [apply NoDup_nil_2|]. intros k v. simpl. split; [intros []|].
    intros [_ (before & after & E & _)]. destruct before; discriminate E.
  - destruct IH as [Hnd Hin]. rewrite fold_left_app. simpl. split.
    + apply map_set_NoDup. exact Hnd.
    + intros k v. rewrite (map_set_In _ _ _ _ Hnd), last_with_snoc. simpl.
      rewrite Hin. split.
      * intros [[= -> ->]|[Hk [-> Hlast]]]; [split; [reflexivity | left; reflexivity]|].
        split; [reflexivity|]. right. split; [exact Hlast|].
        intros E. apply Hk. symmetry. exact E.
      * intros [-> [->|[Hlast Hne]]]; [left; reflexivity|].
        right. split; [|split; [reflexivity | exact Hlast]].
        intros E. apply Hne. symmetry. exact E.
Qed.

Lemma keyed_map_length (l : list A) : (length (keyed_map key l) <= length l)%nat.
Proof.
  unfold keyed_map. induction l as [|x l IH] using rev_ind; [simpl; lia|].
  rewrite fold_left_app, length_app. simpl.
  pose proof (map_set_length (key x) x (fold_left (fun m x => map_set (key x) x m) l [])).
  lia.
Qed.

(** Every key of the list has a last element. *)
Lemma last_with_exists (l : list A) (r : A) :
  In r l -> exists v, last_with key l v /\ key v = key r.
Proof.
  induction l as [|x l IH] using rev_ind; [intros []|].
  intros Hin. destruct (string_dec (key x) (key r)) as [E|Hne].
  - exists x. split; [apply last_with_snoc; left; reflexivity | exact E].
  - apply in_app_or in Hin as [Hin|[->|[]]]; [|contradiction].
    destruct (IH Hin) as (v & Hlast & Ev). exists v. split; [|exact Ev].
    apply last_with_snoc. right. split; [exact Hlast | congruence].
Qed.

End KeyedMaps.

Section RemoteSide.

Lemma raindropByUrl_of_spec (raindrops : list Raindrop) :
  NoDup (map fst (raindropByUrl_of raindrops)) /\
  forall k v, In (k, v) (raindropByUrl_of raindrops) <->
              k = remote_url v /\ last_with_url raindrops v.
Proof. exact (keyed_map_spec remote_url raindrops). Qed.

Lemma raindropByUrl_of_length (raindrops : list Raindrop) :
  (length (raindropByUrl_of raindrops) <= length raindrops)%nat.
Proof. exact (keyed_map_length remote_url raindrops). Qed.

End RemoteSide.

Section MatchingLoop.

Lemma match_bookmark_cases (st : Matching) (b : BookmarkTreeNode) :
  (valid b = false /\ match_bookmark st b = st) \/
  (valid b = true /\ exists r,
     map_get (local_url b) (raindropByUrl st) = Some r /\
     match_bookmark st b
     = mkMatching (matched st ++ [(b, r)]) (onlyInFirefox st)
                  (map_delete (local_url b) (raindropByUrl st))) \/
  (valid b = true /\
     map_get (local_url b) (raindropByUrl st) = None /\
     match_bookmark st b
     = mkMatching (matched st) (onlyInFirefox st ++ [b]) (raindropByUrl st)).
Proof.
  unfold match_bookmark, valid, local_url.
  destruct (truthy_str (n_url b)); cbn [negb andb]; [|left; auto].
  destruct (isValidSyncUrl (default "" (n_url b))); cbn [negb]; [|left; auto].
  cbv zeta.
  destruct (map_get _ (raindropByUrl st)) as [r|]; right; [left | right].
  - split; [reflexivity|]. exists r. auto.
  - auto.
Qed.

Lemma entries_values (l : list Raindrop) : map snd (map entry_of l) = l.
Proof. induction l as [|x l IH]; simpl; [reflexivity | rewrite IH; reflexivity]. Qed.

Lemma entries_keys (l : list Raindrop) : map fst (map entry_of l) = map remote_url l.
Proof. induction l as [|x l IH]; simpl; [reflexivity | rewrite IH; reflexivity]. Qed.

Lemma keyed_entries (m : JsMap Raindrop) :
  (forall k v, In (k, v) m -> k = remote_url v) ->
  map fst m = map remote_url (map snd m).
Proof.
  induction m as [|[k v] m IH]; intros H; simpl; [reflexivity|].
  rewrite (H k v (or_introl eq_refl)), IH; [reflexivity|].
  intros k' v' Hin. apply H. right. exact Hin.
Qed.

Variable m0 : JsMap Raindrop.
Hypothesis Hnd0 : NoDup (map fst m0).
Hypothesis Hkey0 : forall k v, In (k, v) m0 -> k = remote_url v.

Lemma good_keys (st : Matching) :
  good m0 st ->
  NoDup (map fst (raindropByUrl st)) /\
  (forall k v, In (k, v) (raindropByUrl st) -> In (k, v) m0) /\
  (forall k, In k (map fst m0) ->
     In k (map remote_url (map snd (matched st))) \/ In k (map fst (raindropByUrl st))).
Proof.
  intros [P _].
  assert (Pk : Permutation (map remote_url (map snd (matched st))
                            ++ map fst (raindropByUrl st)) (map fst m0)).
  { rewrite <- entries_keys, <- map_app. apply Permutation_map. exact P. }
  split; [|split].
  - rewrite <- Pk in Hnd0. apply NoDup_app in Hnd0. tauto.
  - intros k v Hin. apply (Permutation_in _ P). apply in_or_app. right. exact Hin.
  - intros k Hk. apply (Permutation_in _ (Permutation_sym Pk)) in Hk.
    apply in_app_or in Hk. exact Hk.
Qed.

Lemma match_step (st : Matching) (b : BookmarkTreeNode) :
  good m0 st ->
  let st1 := match_bookmark st b in
  good m0 st1 /\
  Permutation (map fst (matched st1) ++ onlyInFirefox st1)
              ((map fst (matched st) ++ onlyInFirefox st)
               ++ (if valid b then [b] else [])) /\
  (forall p, In p (matched st) -> In p (matched st1)) /\
  (forall b', In b' (onlyInFirefox st1) ->
     In b' (onlyInFirefox st) \/
     (b' = b /\ (In (local_url b) (map fst m0) ->
                 exists b2 r2, In (b2, r2) (matched st1) /\ local_url b2 = local_url b))) /\
  (forall b' r, In (b', r) (matched st1) -> In (b', r) (matched st) \/ b' = b).
Proof.
  intros Hgood. cbv zeta.
  destruct (good_keys st Hgood) as (Hnd & Hsub & Hcover).
  destruct Hgood as [P Hpairs].
  destruct (match_bookmark_cases st b)
    as [[Hv ->]|[(Hv & r & Hget & ->)|(Hv & Hget & ->)]]; rewrite Hv;
    unfold good; cbn [matched onlyInFirefox raindropByUrl].
  - split; [exact (conj P Hpairs)|]. split; [rewrite app_nil_r; reflexivity|].
    split; [auto|]. split; [auto | auto].
  - assert (Hkey : local_url b = remote_url r)
      by (apply Hkey0, Hsub, map_get_Some, Hget).
    split; [split|].
    + rewrite !map_app, <- app_assoc. cbn [map app snd].
      unfold entry_of at 2. rewrite <- Hkey.
      rewrite (map_delete_perm _ _ _ Hnd Hget). exact P.
    + intros b' r' Hin. apply in_app_or in Hin as [Hin|[[= <- <-]|[]]];
        [exact (Hpairs b' r' Hin) | split; [exact Hv | exact Hkey]].
    + split; [|split; [|split]].
      * rewrite map_app, <- !app_assoc. apply Permutation_app_head.
        cbn [map fst]. apply Permutation_app_comm.
      * intros p Hp. apply in_or_app. left. exact Hp.
      * intros b' Hb'. left. exact Hb'.
      * intros b' r' Hin. apply in_app_or in Hin as [Hin|[[= <- <-]|[]]]; auto.
  - split; [exact (conj P Hpairs)|]. split; [|split; [|split]].
    + rewrite app_assoc. reflexivity.
    + auto.
    + intros b' Hb'. apply in_app_or in Hb' as [Hb'|[<-|[]]]; [left; exact Hb'|].
      right. split; [reflexivity|]. intros Hk.
      destruct (Hcover _ Hk) as [Hm|Hm]; [|exfalso; exact (map_get_None _ _ Hget Hm)].
      apply in_map_iff in Hm as (r2 & Hr2 & Hm).
      apply in_map_iff in Hm as ([b2 r2'] & E & Hm). simpl in E. subst r2'.
      exists b2, r2. split; [exact Hm|].
      rewrite (proj2 (Hpairs b2 r2 Hm)). exact Hr2.
    + auto.
Qed.

Lemma match_loop (bs : list BookmarkTreeNode) (st : Matching) :
  good m0 st ->
  let st' := fold_left match_bookmark bs st in
  good m0 st' /\
  Permutation (map fst (matched st') ++ onlyInFirefox st')
              ((map fst (matched st) ++ onlyInFirefox st) ++ List.filter valid bs) /\
  (forall p, In p (matched st) -> In p (matched st')) /\
  (forall b, In b (onlyInFirefox st') ->
     In b (onlyInFirefox st) \/
     (In b bs /\ (In (local_url b) (map fst m0) ->
                  exists b2 r2, In (b2, r2) (matched st') /\ local_url b2 = local_url b))) /\
  (forall b r, In (b, r) (matched st') -> In (b, r) (matched st) \/ In b bs).
Proof.
  revert st. induction bs as [|b bs IH]; intros st Hgood; cbv zeta.
  - simpl. split; [exact Hgood|]. split; [rewrite app_nil_r; reflexivity|].
    split; [auto|]. split; [auto | auto].
  - destruct (match_step st b Hgood) as (G1 & P1 & I1 & O1 & M1).
    destruct (IH _ G1) as (G & P & I & O & M).
    cbn [fold_left]. split; [exact G|]. split; [|split; [|split]].
    + rewrite P, P1. cbn [List.filter].
      destruct (valid b); [|rewrite app_nil_r; reflexivity].
      rewrite <- !app_assoc. reflexivity.
    + intros p Hp. apply I, I1, Hp.
    + intros b' Hb'. destruct (O b' Hb') as [H1|[Hin Hk]].
      * destruct (O1 b' H1) as [H0|[-> Hk]]; [left; exact H0|].
        right. split; [left; reflexivity|]. intros Hm.
        destruct (Hk Hm) as (b2 & r2 & H2 & E). exists b2, r2. split; [apply I, H2 | exact E].
      * right. split; [right; exact Hin | exact Hk].
    + intros b' r Hin. destruct (M b' r Hin) as [H1|H1]; [|right; right; exact H1].
      destruct (M1 b' r H1) as [H0| ->]; [left; exact H0 | right; left; reflexivity].
Qed.

End MatchingLoop.

Section MatchingResult.

Lemma syncable_filter (firefoxBookmarks : list BookmarkTreeNode) :
  List.filter valid (List.filter is_bookmark firefoxBookmarks)
  = List.filter syncable firefoxBookmarks.
Proof.
  rewrite filter_filter. apply filter_ext. intros b.
  unfold syncable, valid, is_bookmark.
  destruct (truthy_str (n_url b)); [|rewrite !andb_false_r; reflexivity].
  rewrite !andb_true_r. reflexivity.
Qed.

(** What the loop has established when the three arrays are built. *)
Lemma initial_match_run (firefoxBookmarks : list BookmarkTreeNode)
  (raindrops : list Raindrop) :
  let res := initial_match firefoxBookmarks raindrops in
  let m0 := raindropByUrl_of raindrops in
  exists st,
    im_matched res = matched st /\ im_onlyInFirefox res = onlyInFirefox st /\
    im_onlyInRaindrop res = map snd (raindropByUrl st) /\
    good m0 st /\
    Permutation (map fst (matched st) ++ onlyInFirefox st)
                (List.filter syncable firefoxBookmarks) /\
    (forall b, In b (onlyInFirefox st) ->
       In (local_url b) (map fst m0) ->
       exists b2 r2, In (b2, r2) (matched st) /\ local_url b2 = local_url b) /\
    (forall b r, In (b, r) (matched st) -> In b firefoxBookmarks /\ is_bookmark b = true).
Proof.
  cbv zeta. destruct (raindropByUrl_of_spec raindrops) as [Hnd Hin].
  assert (Hkey : forall k v, In (k, v) (raindropByUrl_of raindrops) -> k = remote_url v)
    by (intros k v H; apply Hin in H; tauto).
  assert (G0 : good (raindropByUrl_of raindrops)
                    (mkMatching [] [] (raindropByUrl_of raindrops))).
  { split; [reflexivity | intros b r []]. }
  destruct (match_loop _ Hnd Hkey (List.filter is_bookmark firefoxBookmarks) _ G0)
    as (G & P & _ & O & M).
  eexists. split; [reflexivity|]. split; [reflexivity|]. split; [reflexivity|].
  split; [exact G|]. split; [|split].
  - rewrite P. cbn [matched onlyInFirefox map app]. apply Permutation_refl'.
    apply syncable_filter.
  - intros b Hb Hk. destruct (O b Hb) as [[]|[_ H]]. exact (H Hk).
  - intros b r Hbr. destruct (M b r Hbr) as [[]|H].
    apply filter_In in H. exact H.
Qed.

End MatchingResult.

(** X18. The matching of the initial sync goes on with one remote item for
    each normalized URL of the collection, the last one that has it: the
    items matched and the items only in Raindrop have pairwise distinct
    normalized URLs and are exactly those last items, so an item that a later
    item repeats is neither linked nor created locally.  A matched pair is a
    child of the folder that is a bookmark with a syncable URL, and an item
    with the same normalized URL. *)
Theorem initial_match_uses_last_item_of_each_url
  (firefoxBookmarks : list BookmarkTreeNode) (raindrops : list Raindrop) :
  let res := initial_match firefoxBookmarks raindrops in
  NoDup (map remote_url (used_items res)) /\
  (forall r, In r (used_items res) <-> last_with_url raindrops r) /\
  (length (used_items res) <= length raindrops)%nat /\
  (forall b r, In (b, r) (im_matched res) ->
     In b firefoxBookmarks /\ syncable b = true /\ local_url b = remote_url r).
Proof.
  cbv zeta.
  destruct (initial_match_run firefoxBookmarks raindrops)
    as (st & Em & _ & Er & G & _ & _ & M).
  destruct (raindropByUrl_of_spec raindrops) as [Hnd Hin].
  assert (Hkey : forall k v, In (k, v) (raindropByUrl_of raindrops) -> k = remote_url v)
    by (intros k v H; apply Hin in H; tauto).
  destruct (good_keys _ Hnd st G) as (_ & Hsub & _).
  destruct G as [P Hpairs].
  unfold used_items. rewrite Em, Er.
  set (E := map entry_of (map snd (matched st)) ++ raindropByUrl st) in P.
  assert (Hvalues : map snd E = map snd (matched st) ++ map snd (raindropByUrl st))
    by (unfold E; rewrite map_app, entries_values; reflexivity).
  assert (Hkeys : map fst E = map remote_url (map snd E)).
  { rewrite Hvalues. unfold E. rewrite !map_app, entries_keys. f_equal.
    apply keyed_entries. intros k v H. apply Hkey, Hsub, H. }
  rewrite <- Hvalues, <- Hkeys.
  split; [|split; [|split]].
  - rewrite (Permutation_map fst P). exact Hnd.
  - intros r. split.
    + intros H. apply (Permutation_in _ (Permutation_map snd P)) in H.
      apply in_map_iff in H as ([k v] & <- & H). apply Hin in H. tauto.
    + intros H. apply (Permutation_in _ (Permutation_sym (Permutation_map snd P))).
      apply in_map_iff. exists (remote_url r, r). split; [reflexivity|].
      apply Hin. auto.
  - rewrite length_map, (Permutation_length P). apply raindropByUrl_of_length.
  - intros b r Hbr. destruct (M b r Hbr) as [Hb Hbm].
    destruct (Hpairs b r Hbr) as [Hv Hu].
    split; [exact Hb|]. split; [|exact Hu].
    unfold syncable. rewrite Hbm. unfold valid in Hv.
    apply andb_true_iff in Hv as [_ Hv]. exact Hv.
Qed.

(** X19. The matching puts every child of the folder that is a bookmark
    with a syncable URL either among the matched pairs or among the
    bookmarks only in Firefox, once.  A bookmark is only in Firefox although
    an item of the collection has its normalized URL exactly when another
    bookmark with that normalized URL has taken the item: the pass then
    sends it to Raindrop as a new item. *)
Theorem initial_match_splits_bookmarks
  (firefoxBookmarks : list BookmarkTreeNode) (raindrops : list Raindrop) :
  let res := initial_match firefoxBookmarks raindrops in
  Permutation (map fst (im_matched res) ++ im_onlyInFirefox res)
              (List.filter syncable firefoxBookmarks) /\
  (forall b r, In b (im_onlyInFirefox res) -> In r raindrops ->
     remote_url r = local_url b ->
     exists b2 r2, In (b2, r2) (im_matched res) /\ local_url b2 = local_url b).
Proof.
  cbv zeta.
  destruct (initial_match_run firefoxBookmarks raindrops)
    as (st & -> & -> & _ & _ & P & O & _).
  split; [exact P|].
  intros b r Hb Hr Hu. apply (O b Hb).
  destruct (last_with_exists remote_url raindrops r Hr) as (v & Hlast & Ev).
  destruct (raindropByUrl_of_spec raindrops) as [_ Hin].
  apply in_map_iff. exists (remote_url v, v). split; [simpl; congruence|].
  apply Hin. auto.
Qed.

Example initial_match_sample :
  let res := initial_match SampleMatch.children SampleMatch.items in
  map (fun p => (n_id (fst p), _id (snd p))) (im_matched res) = [("b1", 3)] /\
  map n_id (im_onlyInFirefox res) = ["b3"; "b4"] /\
  map _id (im_onlyInRaindrop res) = [2].
Proof. vm_compute. repeat split. Qed.

(* ================================================================== *)
(** * The folder mappings stay free of duplicates *)
(* ================================================================== *)

Section MappingKeys.

Lemma mapping_conflict_none (mapping : FolderMapping) (mappings : list FolderMapping) :
  find (mapping_conflict mapping) mappings = None ->
  ~ In (firefoxFolderId mapping) (map firefoxFolderId mappings) /\
  ~ In (raindropCollectionId mapping) (map raindropCollectionId mappings).
Proof.
  intros H. split; intros Hin; apply in_map_iff in Hin as (m & E & Hm);
    pose proof (find_none _ _ H m Hm) as Hc; unfold mapping_conflict in Hc;
    apply orb_false_iff in Hc as [Hf Hr].
  - apply String.eqb_neq in Hf. contradiction.
  - apply Z.eqb_neq in Hr. contradiction.
Qed.

End MappingKeys.

(** X20. The three functions that rewrite the stored folder mappings keep
    them free of two mappings of one folder and of two mappings of one
    collection: [addFolderMapping], whether it stores the mapping or throws,
    [removeFolderMapping] with its cascade, and the time stamp that a pass
    writes with [updateFolderMapping]. *)
Theorem mapping_keys_stay_unique
  (mapping : FolderMapping) (mappingId' : string) (lastSync' : Z) (w : World)
  (Hw : unique_keys (mappings_of w)) :
  unique_keys (mappings_of (snd (addFolderMapping mapping w))) /\
  unique_keys (mappings_of (snd (removeFolderMapping mappingId' w))) /\
  unique_keys (mappings_of (snd (updateFolderMapping mappingId' lastSync' w))).
Proof.
  destruct Hw as [Hf Hr]. split; [|split].
  - unfold addFolderMapping, getFolderMappings, saveFolderMappings, bind, gets,
      modify, throw, ret. cbv beta iota zeta.
    destruct (find (mapping_conflict mapping) (mappings_of w)) eqn:E;
      [exact (conj Hf Hr)|].
    destruct (mapping_conflict_none _ _ E) as [Hnf Hnr].
    split; [exact (NoDup_map_snoc firefoxFolderId _ _ Hf Hnf)
           | exact (NoDup_map_snoc raindropCollectionId _ _ Hr Hnr)].
  - destruct (removeFolderMapping_run mappingId' w) as (w' & -> & Hm & _).
    cbn [snd]. rewrite Hm. split; apply NoDup_map_filter; assumption.
  - unfold updateFolderMapping, getFolderMappings, saveFolderMappings, bind, gets,
      modify, ret. cbv beta iota zeta.
    destruct (find _ (mappings_of w)); [|exact (conj Hf Hr)].
    change (unique_keys (update_first (fun m => String.eqb (fm_id m) mappingId')
                                      (with_lastSync lastSync') (mappings_of w))).
    unfold unique_keys.
    rewrite !update_first_map by (intros x; reflexivity). split; assumption.
Qed.

Lemma mapping_keys_stay_unique_witness :
  unique_keys (mappings_of (snd (addFolderMapping (SampleTree.folder "a" None 1)
                                                  SampleTree.world_tree))) /\
  unique_keys (mappings_of (snd (removeFolderMapping "a" SampleTree.world_tree))).
Proof.
  assert (H : unique_keys (mappings_of SampleTree.world_tree)).
  { split; vm_compute;
      repeat (apply NoDup_cons; split;
              [rewrite ?not_elem_of_cons; repeat split;
               first [discriminate | apply not_elem_of_nil]|]);
      apply NoDup_nil_2. }
  destruct (mapping_keys_stay_unique (SampleTree.folder "a" None 1) "a" 0
              SampleTree.world_tree H) as (Ha & Hr & _).
  split; [exact Ha | exact Hr].
Defined.

(* ================================================================== *)
(** * The logger *)
(* ================================================================== *)

Section LoggerHistory.

Import LoggerModel.

Lemma addToHistory_run level message data (s : Logger) :
  logger_ok s ->
  let s' := addToHistory level message data s in
  let entry := mkLogEntry (date s (dates s)) level message data in
  logger_ok s' /\
  last (logHistory s') = Some entry /\
  length (logHistory s') = Nat.min 100 (S (length (logHistory s))) /\
  logHistory s' = drop (S (length (logHistory s)) - 100) (logHistory s ++ [entry]) /\
  debugMode s' = debugMode s /\ prefix s' = prefix s /\ date s' = date s /\
  dates s' = S (dates s) /\ console s' = console s.
Proof.
  intros [Hlen Hmax]. cbv zeta. unfold addToHistory, toISOString_now.
  cbn [logHistory maxHistorySize debugMode prefix date dates console].
  rewrite Hmax, length_app. cbn [length].
  destruct (Z.gtb_spec (Z.of_nat (length (logHistory s) + 1)) 100) as [Hgt|Hle].
  - assert (E : length (logHistory s) = 100%nat) by lia.
    destruct (logHistory s) as [|x l] eqn:El; [discriminate E|].
    cbn [app tl]. rewrite last_snoc, length_app. cbn [length] in *.
    replace (S (S (length l)) - 100)%nat with 1%nat by lia.
    unfold logger_ok. cbn [logHistory maxHistorySize]. rewrite length_app. cbn [length].
    repeat split; try reflexivity; lia.
  - rewrite last_snoc, length_app. cbn [length].
    replace (S (length (logHistory s)) - 100)%nat with 0%nat by lia.
    unfold logger_ok. cbn [logHistory maxHistorySize]. rewrite length_app. cbn [length].
    repeat split; try reflexivity; lia.
Qed.

Lemma print_history level message data (s : Logger) :
  logHistory (print level message data s) = logHistory s /\
  maxHistorySize (print level message data s) = maxHistorySize s.
Proof. split; reflexivity. Qed.

Lemma logger_call_ok (c : LoggerCall) (s : Logger) :
  logger_ok s -> logger_ok (logger_call c s).
Proof.
  intros H. destruct c as [enabled|level message data|]; simpl.
  - exact H.
  - assert (Hlog : logger_ok (print level message data
                                (addToHistory level message data s))).
    { destruct (addToHistory_run level message data s H) as (Hok & _). exact Hok. }
    destruct level; unfold debug, info, warn, error; try exact Hlog.
    destruct (debugMode s); [exact Hlog | exact H].
  - destruct H as [_ Hmax]. split; [simpl; lia | exact Hmax].
Qed.

Lemma logger_calls_ok (cs : list LoggerCall) (s : Logger) :
  logger_ok s -> logger_ok (logger_calls cs s).
Proof.
  revert s. induction cs as [|c cs IH]; intros s H; [exact H|].
  apply IH, logger_call_ok, H.
Qed.

End LoggerHistory.

(** X21. After any sequence of calls on a new logger the history holds at
    most a hundred entries.  A call that is recorded -- every level but
    debug, and debug while the debug mode is on -- puts its entry last and
    drops the oldest entry of a full history; a debug call while the debug
    mode is off leaves the logger as it was: no entry, no line on the
    console, no reading of the clock. *)
Theorem logger_history_is_bounded
  (date' : nat -> string) (cs : list LoggerCall)
  (level : LoggerModel.LogLevel) (message : string) (data : option string) :
  let s := logger_calls cs (LoggerModel.initial_logger date') in
  let s' := logger_call (CallLog level message data) s in
  let entry := LoggerModel.mkLogEntry (LoggerModel.date s (LoggerModel.dates s))
                                      level message data in
  (length (LoggerModel.logHistory s) <= 100)%nat /\
  if recorded (CallLog level message data) s
  then LoggerModel.logHistory s'
       = drop (S (length (LoggerModel.logHistory s)) - 100)
              (LoggerModel.logHistory s ++ [entry]) /\
       last (LoggerModel.logHistory s') = Some entry /\
       (length (LoggerModel.logHistory s') <= 100)%nat /\
       length (LoggerModel.console s') = S (length (LoggerModel.console s))
  else s' = s.
Proof.
  cbv zeta.
  assert (Hok : logger_ok (logger_calls cs (LoggerModel.initial_logger date'))).
  { apply logger_calls_ok. split; [simpl; lia | reflexivity]. }
  set (s := logger_calls cs (LoggerModel.initial_logger date')) in *.
  split; [exact (proj1 Hok)|].
  destruct (addToHistory_run level message data s Hok)
    as ([Hlen _] & Hlast & _ & Hdrop & _ & _ & _ & _ & Hconsole).
  assert (Hrec : LoggerModel.logHistory
                   (LoggerModel.print level message data
                      (LoggerModel.addToHistory level message data s))
                 = drop (S (length (LoggerModel.logHistory s)) - 100)
                        (LoggerModel.logHistory s
                         ++ [LoggerModel.mkLogEntry
                               (LoggerModel.date s (LoggerModel.dates s))
                               level message data]) /\
                 last (LoggerModel.logHistory
                         (LoggerModel.print level message data
                            (LoggerModel.addToHistory level message data s)))
                 = Some (LoggerModel.mkLogEntry
                           (LoggerModel.date s (LoggerModel.dates s))
                           level message data) /\
                 (length (LoggerModel.logHistory
                            (LoggerModel.print level message data
                               (LoggerModel.addToHistory level message data s)))
                  <= 100)%nat /\
                 length (LoggerModel.console
                           (LoggerModel.print level message data
                              (LoggerModel.addToHistory level message data s)))
                 = S (length (LoggerModel.console s))).
  { split; [exact Hdrop|]. split; [exact Hlast|]. split; [exact Hlen|].
    unfold LoggerModel.print, LoggerModel.formatMessage, LoggerModel.toISOString_now.
    cbn [LoggerModel.console]. rewrite length_app, Hconsole. simpl. lia. }
  destruct level; simpl; try exact Hrec.
  unfold LoggerModel.debug. destruct (LoggerModel.debugMode s); [exact Hrec | reflexivity].
Qed.

Example logger_sample :
  let s := logger_calls
             [CallLog LoggerModel.lvl_debug "quiet" None;
              CallLog LoggerModel.lvl_info "started" None;
              CallSetDebugMode true;
              CallLog LoggerModel.lvl_debug "details" (Some "{}")]
             (LoggerModel.initial_logger Sample.tag) in
  map LoggerModel.le_message (LoggerModel.logHistory s) = ["started"; "details"] /\
  map LoggerModel.cl_text (LoggerModel.console s)
  = ["[RaindropSync] [i] [INFO] started"; "[RaindropSync] [iii] [DEBUG] details"].
Proof. vm_compute. split; reflexivity. Qed.

(* ================================================================== *)
(** * The pending operations stay free of duplicates *)
(* ================================================================== *)

Section PendingKeys.

Lemma unique_pending_saved (q : SyncQueue) :
  NoDup (map op_key (pending q)) -> forall w, unique_pending (snd (mutate_and_saveQueue q w)).
Proof. intros H w. unfold unique_pending. rewrite queue_of_saved. exact H. Qed.

Lemma unique_addToQueue operation : invariant unique_pending (addToQueue operation).
Proof.
  intros w H. unfold addToQueue, bind, getQueue, gets.
  destruct (find (same_key operation) (pending (queue_of w))) eqn:E; [exact H|].
  apply unique_pending_saved. cbn [pending].
  apply NoDup_map_snoc; [exact H|].
  intros Hin. apply in_map_iff in Hin as (op & Hk & Hop).
  pose proof (find_none _ _ E op Hop) as Hne.
  apply same_key_spec in Hk. congruence.
Qed.

Lemma unique_removeFromQueue operationId :
  invariant unique_pending (removeFromQueue operationId).
Proof.
  intros w H. unfold removeFromQueue, bind, getQueue, gets.
  apply unique_pending_saved. cbn [pending]. apply NoDup_map_filter. exact H.
Qed.

Lemma unique_moveToFailed operationId errorMessage :
  invariant unique_pending (moveToFailed operationId errorMessage).
Proof.
  intros w H.
  destruct (find (has_id operationId) (pending (queue_of w))) as [operation|] eqn:E.
  - destruct (moveToFailed_run operationId errorMessage operation w E)
      as (w' & -> & Hq).
    cbn [snd]. unfold unique_pending. rewrite Hq.
    destruct (retries operation + 1 >=? maxRetries operation); cbn [pending].
    + apply NoDup_map_filter. exact H.
    + rewrite update_first_map by (intros x; reflexivity). exact H.
  - rewrite (moveToFailed_absent _ _ _ E). exact H.
Qed.

Lemma unique_processOperation operation :
  invariant unique_pending (processOperation operation).
Proof.
  intros w H. unfold unique_pending.
  rewrite processOperation_keeps_queue_of. exact H.
Qed.

Lemma unique_iteration queue i operation :
  invariant unique_pending (iteration queue i operation).
Proof.
  unfold iteration.
  inv_search ltac:(first [ apply unique_processOperation
                         | apply unique_removeFromQueue
                         | apply unique_moveToFailed ]).
Qed.

Lemma unique_process_from fuel queue i :
  invariant unique_pending (process_from fuel queue i).
Proof.
  revert i. induction fuel as [|fuel IH]; intros i; simpl.
  - apply inv_ret.
  - inv_search ltac:(first [apply unique_iteration | apply IH]).
Qed.

End PendingKeys.

(** X22. The deduplication of [addToQueue] is an invariant of the queue:
    when no two pending operations have the same type, source, local id and
    remote id, this is still so after [addToQueue], [removeFromQueue] and
    [moveToFailed], and after a whole run of [processQueue], whatever the
    handlers do. *)
Theorem pending_keys_stay_unique
  (operation : SyncOperation) (operationId errorMessage : string) (w : World)
  (Hw : unique_pending w) :
  unique_pending (snd (addToQueue operation w)) /\
  unique_pending (snd (removeFromQueue operationId w)) /\
  unique_pending (snd (moveToFailed operationId errorMessage w)) /\
  unique_pending (snd (processQueue w)).
Proof.
  split; [exact (unique_addToQueue operation w Hw)|].
  split; [exact (unique_removeFromQueue operationId w Hw)|].
  split; [exact (unique_moveToFailed operationId errorMessage w Hw)|].
  revert w Hw. change (invariant unique_pending processQueue).
  unfold processQueue, process_pending, acquireLock, releaseLock, setSyncing,
    getQueue_ref.
  inv_search ltac:(apply unique_process_from).
Qed.

End OnPlatform.

(** [retryFailed] is not among them: an operation parked as failed comes
    back beside a pending operation that was queued for the same key in the
    meantime. *)
Example retryFailed_can_repeat_a_key :
  let again := mkOp "op-3" delete firefox bookmark (data Sample.delete_7) 5 0 3 None in
  let parked := Sample.world_with
                  (mkLocal None None (Some (mkQueue [again] [Sample.delete_7])) None None)
                  Sample.quiet in
  let q := pending (queue_of (snd (retryFailed parked))) in
  map op_id q = ["op-3"; "op-1"] /\ forallb (same_key Sample.delete_7) q = true.
Proof. vm_compute. split; reflexivity. Qed.

(* ================================================================== *)
(** * The walk over nested folders *)
(* ================================================================== *)

Section NestedWalk.

Lemma addFolderMapping_cases (mapping : FolderMapping) (w : World) :
  (exists err, addFolderMapping mapping w = (Throws err, w)) \/
  (exists ms w', addFolderMapping mapping w = (Returned ms, w') /\
     mappings_of w' = mappings_of w ++ [mapping]).
Proof.
  unfold addFolderMapping, getFolderMappings, saveFolderMappings, bind, gets, modify,
    throw, ret. cbv beta iota zeta.
  destruct (find (mapping_conflict mapping) (mappings_of w));
    [left; eauto | right; eexists _, _; split; reflexivity].
Qed.

Lemma within_depth_below (depth' : Z) (m : FolderMapping) :
  within_depth (depth' + 1) m -> within_depth depth' m.
Proof. unfold within_depth. lia. Qed.

Lemma for_of_ext {A St} (body1 body2 : St -> A -> M St) (l : list A) (st : St) (w : World) :
  (forall st x w, body1 st x w = body2 st x w) ->
  for_of body1 l st w = for_of body2 l st w.
Proof.
  intros H. revert st w. induction l as [|x l IH]; intros st w; simpl; [reflexivity|].
  unfold bind. rewrite H. destruct (body2 st x w) as [[st'|err] w']; [apply IH | reflexivity].
Qed.

Variable e : TreeEnv.

Lemma sync_child_ext
  (recur1 recur2 : string -> option Z -> option string -> Z -> TreeState -> M Walk)
  raindropParentId parentMappingId' depth' acc child w :
  (forall f p pm ts w, recur1 f p pm (depth' + 1) ts w = recur2 f p pm (depth' + 1) ts w) ->
  sync_child recur1 e raindropParentId parentMappingId' depth' acc child w
  = sync_child recur2 e raindropParentId parentMappingId' depth' acc child w.
Proof.
  intros H. unfold sync_child. destruct acc as [mappings ts].
  destruct (opt_str_eqb (n_type child) (Some "folder")); [|reflexivity].
  cbv zeta. unfold bind at 1 5.
  match goal with |- context [match ?m w with _ => _ end] => destruct (m w) as [[[[cid cname] ts1]|err] w1] end;
    [|reflexivity].
  unfold bind at 1 4. destruct (generateId w1) as [[id|err] w2]; [|reflexivity].
  cbv zeta. unfold bind at 1 3.
  destruct (addFolderMapping _ w2) as [[ms|err] w3]; [|reflexivity].
  unfold bind. rewrite H. reflexivity.
Qed.

(** Fuel beyond the levels that the depth test lets through changes
    nothing. *)
Lemma fuel_is_enough (fuel1 fuel2 : nat) folder parent pm depth' ts w :
  (Z.to_nat (MAX_SYNC_DEPTH - depth') <= fuel1)%nat ->
  (Z.to_nat (MAX_SYNC_DEPTH - depth') <= fuel2)%nat ->
  _syncFolderWithChildrenCached fuel1 e folder parent pm depth' ts w
  = _syncFolderWithChildrenCached fuel2 e folder parent pm depth' ts w.
Proof.
  revert fuel2 folder parent pm depth' ts w.
  induction fuel1 as [|fuel1 IH]; intros fuel2 folder parent pm depth' ts w H1 H2.
  - destruct fuel2; simpl; [reflexivity|].
    destruct (Z.geb_spec depth' MAX_SYNC_DEPTH) as [|Hlt]; [reflexivity|].
    unfold MAX_SYNC_DEPTH in *. lia.
  - destruct fuel2 as [|fuel2]; simpl.
    + destruct (Z.geb_spec depth' MAX_SYNC_DEPTH) as [|Hlt]; [reflexivity|].
      unfold MAX_SYNC_DEPTH in *. lia.
    + destruct (Z.geb_spec depth' MAX_SYNC_DEPTH) as [|Hlt]; [reflexivity|].
      destruct (on_children e (tree_trace ts) folder) as [children|err]; [|reflexivity].
      apply for_of_ext. intros acc child w0. apply sync_child_ext.
      intros f p pm0 ts0 w1. apply IH; unfold MAX_SYNC_DEPTH in *; lia.
Qed.

Lemma stores_nothing (depth' : Z) (w : World) : stores depth' w [] w.
Proof. split; [rewrite app_nil_r; reflexivity | constructor]. Qed.

Lemma generateId_mappings (w : World) :
  mappings_of (snd (generateId w)) = mappings_of w.
Proof. reflexivity. Qed.

Lemma walk_ok_run (depth' : Z) (m : M Walk) (w : World) out w' :
  walk_ok depth' m -> m w = (out, w') ->
  exists added, stores depth' w added w' /\
    forall ms ts', out = Returned (ms, ts') -> ms = added.
Proof.
  intros H E. destruct (H w) as (added & Hs & Hr). rewrite E in Hs, Hr.
  exists added. split; [exact Hs | exact Hr].
Qed.

Lemma sync_child_ok
  (recur : string -> option Z -> option string -> Z -> TreeState -> M Walk)
  raindropParentId parentMappingId' depth' mappings ts child w out w' :
  depth' < MAX_SYNC_DEPTH ->
  (forall f p pm ts0, walk_ok (depth' + 1) (recur f p pm (depth' + 1) ts0)) ->
  sync_child recur e raindropParentId parentMappingId' depth' (mappings, ts) child w
    = (out, w') ->
  exists added, stores depth' w added w' /\
    forall ms ts', out = Returned (ms, ts') -> ms = mappings ++ added.
Proof.
  intros Hdepth Hrec H. unfold sync_child in H.
  destruct (opt_str_eqb (n_type child) (Some "folder")).
  2:{ injection H as <- <-. exists []. split; [apply stores_nothing|].
      intros ms ts' [= <- _]. rewrite app_nil_r. reflexivity. }
  cbv zeta in H.
  lazymatch type of H with
  | @bind _ _ ?m ?k w = _ => set (found := m) in H; set (rest := k) in H
  end.
  assert (Hw1 : snd (found w) = w).
  { unfold found. destruct (find _ (collectionsCache ts)); [reflexivity|].
    destruct (on_collection e _ _ _); reflexivity. }
  unfold bind in H.
  destruct (found w) as [[[[collectionId collectionName] ts1]|err] w1];
    cbn [snd] in Hw1; subst w1.
  2:{ injection H as <- <-. exists []. split; [apply stores_nothing|].
      intros ms ts' H. discriminate H. }
  unfold rest in H. clear found rest. unfold bind, generateId in H.
  cbv beta iota zeta in H.
  set (w2 := set_next_id (S (next_id w)) w) in H.
  set (mapping := mkFolderMapping (ids w (next_id w)) (n_id child) collectionId
                    (n_title child) collectionName
                    (if truthy_str parentMappingId' then parentMappingId' else None)
                    (depth' + 1) 0 true) in H.
  destruct (addFolderMapping_cases mapping w2) as [(err & E)|(stored & w3 & E & Hadd)];
    rewrite E in H.
  { injection H as <- <-. exists [].
    split; [split; [rewrite app_nil_r; reflexivity | constructor]|].
    intros ms ts' H. discriminate H. }
  destruct (recur (n_id child) (Some collectionId) (Some (fm_id mapping))
                  (depth' + 1) ts1 w3) as [below w4] eqn:Er.
  destruct (walk_ok_run _ _ _ _ _ (Hrec _ _ _ _) Er) as (added & [Hbelow Hwithin] & Hret).
  exists (mapping :: added). split; [split|].
  - destruct below as [[childMappings ts2]|err]; injection H as <- <-;
      rewrite Hbelow, Hadd, <- app_assoc; reflexivity.
  - constructor; [unfold within_depth, MAX_SYNC_DEPTH in *; simpl; lia|].
    eapply Forall_impl; [exact Hwithin|]. intros m. apply within_depth_below.
  - intros ms ts' ->. destruct below as [[childMappings ts2]|err]; [|discriminate H].
    injection H as <- <- <-. rewrite (Hret _ _ eq_refl), <- app_assoc. reflexivity.
Qed.

Lemma for_of_sync_child_ok
  (recur : string -> option Z -> option string -> Z -> TreeState -> M Walk)
  raindropParentId parentMappingId' depth' children mappings ts w out w' :
  depth' < MAX_SYNC_DEPTH ->
  (forall f p pm ts0, walk_ok (depth' + 1) (recur f p pm (depth' + 1) ts0)) ->
  for_of (sync_child recur e raindropParentId parentMappingId' depth')
         children (mappings, ts) w = (out, w') ->
  exists added, stores depth' w added w' /\
    forall ms ts', out = Returned (ms, ts') -> ms = mappings ++ added.
Proof.
  intros Hdepth Hrec.
  revert mappings ts w. induction children as [|child children IH];
    intros mappings ts w H.
  - injection H as <- <-. exists []. split; [apply stores_nothing|].
    intros ms ts' [= <- _]. rewrite app_nil_r. reflexivity.
  - cbn [for_of] in H. unfold bind in H.
    destruct (sync_child recur e raindropParentId parentMappingId' depth'
                         (mappings, ts) child w) as [step w1] eqn:E.
    destruct (sync_child_ok _ _ _ _ _ _ _ _ _ _ Hdepth Hrec E)
      as (first & [Hfirst Hwithin] & Hret).
    destruct step as [[ms1 ts1]|err].
    + destruct (IH ms1 ts1 w1 H) as (rest & [Hrest Hwithin'] & Hret').
      exists (first ++ rest). split; [split|].
      * rewrite Hrest, Hfirst, <- app_assoc. reflexivity.
      * apply Forall_app. split; assumption.
      * intros ms ts' Hout. rewrite (Hret' ms ts' Hout), (Hret _ _ eq_refl), <- app_assoc.
        reflexivity.
    + injection H as <- <-. exists first. split; [split; assumption|].
      intros ms ts' Hout. discriminate Hout.
Qed.

Lemma walk_is_ok (fuel : nat) folder parent pm depth' ts :
  walk_ok depth' (_syncFolderWithChildrenCached fuel e folder parent pm depth' ts).
Proof.
  revert folder parent pm depth' ts.
  induction fuel as [|fuel IH]; intros folder parent pm depth' ts w; simpl.
  - destruct (depth' >=? MAX_SYNC_DEPTH); exists []; (split; [apply stores_nothing|]);
      intros ms ts' [= <- _]; reflexivity.
  - destruct (Z.geb_spec depth' MAX_SYNC_DEPTH) as [|Hlt].
    { exists []. split; [apply stores_nothing|]. intros ms ts' [= <- _]. reflexivity. }
    destruct (on_children e (tree_trace ts) folder) as [children|err].
    2:{ exists []. split; [apply stores_nothing|]. intros ms ts' H. discriminate H. }
    destruct (for_of _ children _ w) as [out w'] eqn:E.
    destruct (for_of_sync_child_ok _ _ _ _ _ _ _ _ _ _ Hlt
                (fun f p pm0 ts0 => IH f p pm0 (depth' + 1) ts0) E)
      as (added & Hstores & Hret).
    exists added. split; [exact Hstores|]. intros ms ts' H. exact (Hret ms ts' H).
Qed.

End NestedWalk.

(** X23. [syncFolderWithChildren] only appends to the stored mappings, and
    every mapping that it appends lies deeper than the starting depth and not
    deeper than [MAX_SYNC_DEPTH], also when the walk is cut short by an
    error; when it returns, the mappings returned are the ones appended, in
    their order.  At the maximal depth it returns the empty list without a
    call.  The test on the depth bounds the nesting of the calls. *)
Theorem syncFolderWithChildren_stays_within_depth
  (e : TreeEnv) (firefoxFolderId' : string) (raindropParentId : option Z)
  (parentMappingId' : option string) (depth' : Z) (w : World) :
  let run := syncFolderWithChildren e firefoxFolderId' raindropParentId
                                    parentMappingId' depth' w in
  (exists added, stores depth' w added (snd run) /\
     forall ms, fst run = Returned ms -> ms = added) /\
  (MAX_SYNC_DEPTH <= depth' -> run = (Returned [], w)) /\
  (forall fuel ts, (Z.to_nat (MAX_SYNC_DEPTH - depth') <= fuel)%nat ->
     _syncFolderWithChildrenCached fuel e firefoxFolderId' raindropParentId
                                   parentMappingId' depth' ts w
     = _syncFolderWithChildrenCached (Z.to_nat (MAX_SYNC_DEPTH - depth')) e
         firefoxFolderId' raindropParentId parentMappingId' depth' ts w).
Proof.
  cbv zeta. split; [|split].
  - unfold syncFolderWithChildren.
    destruct (depth' >=? MAX_SYNC_DEPTH).
    { exists []. split; [apply stores_nothing|]. intros ms [= <-]. reflexivity. }
    destruct (on_collections e []) as [cache|err].
    2:{ exists []. split; [apply stores_nothing|]. intros ms H. simpl in H. discriminate H. }
    unfold bind.
    destruct (walk_is_ok e (Z.to_nat (MAX_SYNC_DEPTH - depth')) firefoxFolderId'
                raindropParentId parentMappingId' depth'
                (mkTreeState cache [GetAllCollections]) w) as (added & Hstores & Hret).
    destruct (_syncFolderWithChildrenCached _ e firefoxFolderId' raindropParentId
                parentMappingId' depth' (mkTreeState cache [GetAllCollections]) w)
      as [[[ms ts']|err] w']; cbn [fst snd] in *; exists added;
      (split; [exact Hstores|]).
    + intros ms0 [= <-]. exact (Hret ms ts' eq_refl).
    + intros ms0 H. simpl in H. discriminate H.
  - intros Hmax. unfold syncFolderWithChildren.
    destruct (Z.geb_spec depth' MAX_SYNC_DEPTH) as [|Hlt]; [reflexivity | lia].
  - intros fuel ts Hfuel. apply fuel_is_enough; [exact Hfuel | lia].
Qed.

Lemma syncFolderWithChildren_stays_within_depth_witness :
  syncFolderWithChildren SampleNested.endless "root" None None 5 SampleNested.world_empty
  = (Returned [], SampleNested.world_empty).
Proof.
  destruct (syncFolderWithChildren_stays_within_depth SampleNested.endless "root"
              None None 5 SampleNested.world_empty) as (_ & H & _).
  apply H. unfold MAX_SYNC_DEPTH. lia.
Defined.

Example syncFolderWithChildren_of_an_endless_tree :
  let run := syncFolderWithChildren SampleNested.endless "root" None None 0
                                    SampleNested.world_empty in
  option_map (map depth) (match fst run with Returned ms => Some ms | Throws _ => None end)
  = Some [1; 2; 3; 4; 5] /\
  map raindropCollectionId (mappings_of (snd run)) = [1; 103; 105; 107; 109] /\
  map parentMappingId (mappings_of (snd run))
  = [None; Some "link-"; Some "link-i"; Some "link-ii"; Some "link-iii"].
Proof. vm_compute. repeat split. Qed.

(* ================================================================== *)
(** * The further properties at sample inputs *)
(* ================================================================== *)

Lemma removeFolderMapping_cascades_witness :
  exists w', removeFolderMapping "a" SampleTree.world_tree = (Returned tt, w') /\
    (forall m, In m (mappings_of w') <->
       In m (mappings_of SampleTree.world_tree) /\
       ~ Descends (mappings_of SampleTree.world_tree) "a" (fm_id m)) /\
    (forall l, In l (links_of w') <->
       In l (links_of SampleTree.world_tree) /\
       ~ Descends (mappings_of SampleTree.world_tree) "a" (mappingId l)) /\
    (forall m p, In m (mappings_of w') -> parentMappingId m = Some p -> p <> "" ->
       ~ Descends (mappings_of SampleTree.world_tree) "a" p).
Proof. exact (removeFolderMapping_cascades "a" SampleTree.world_tree). Defined.

Lemma parked_operation_is_requeued_witness :
  exists w1 w2,
    moveToFailed "op-9" "boom" SampleQueue.world_untitled = (Returned tt, w1) /\
    retryFailed w1 = (Returned tt, w2) /\
    failed (queue_of w2) = [] /\
    last (pending (queue_of w2)) = Some (reset_retries SampleQueue.create_untitled).
Proof.
  assert (Hge : maxRetries SampleQueue.create_untitled
                <= retries SampleQueue.create_untitled + 1) by (simpl; lia).
  destruct (parked_operation_is_requeued "op-9" "boom" SampleQueue.create_untitled
              SampleQueue.world_untitled eq_refl Hge)
    as (w1 & w2 & Hmove & Hretry & Hf & _ & Hlast & _).
  exists w1, w2. split; [exact Hmove|]. split; [exact Hretry|].
  split; [exact Hf | exact Hlast].
Defined.

Lemma updateSyncStats_then_getSyncStats_witness :
  exists w' updated,
    updateSyncStats (mkStatsUpdates None (Some 3) None None None None)
                    SampleLock.world_linked = (Returned updated, w') /\
    getSyncStats w' = (Returned updated, w') /\
    totalSynced updated = 1 /\ pendingOperations updated = 3.
Proof.
  destruct (updateSyncStats_then_getSyncStats
              (mkStatsUpdates None (Some 3) None None None None)
              SampleLock.world_linked) as (w' & updated & Hrun & Hval & _ & Hread).
  exists w', updated. split; [exact Hrun|]. split; [exact (Hread eq_refl)|].
  rewrite Hval. split; reflexivity.
Defined.

Lemma cleared_storage_keeps_queued_operation_witness :
  exists w1 w2,
    addToQueue Sample.delete_7 (Sample.world_with Sample.empty_storage Sample.quiet)
      = (Returned tt, w1) /\
    clearAllData w1 = (Returned tt, w2) /\
    sync_queue (local w2) = None /\
    fst (getQueue w2) = Returned (mkQueue [Sample.delete_7] []).
Proof.
  destruct (cleared_storage_keeps_queued_operation Sample.delete_7
              (Sample.world_with Sample.empty_storage Sample.quiet) eq_refl eq_refl)
    as (w1 & w2 & Hadd & Hclear & Hnone & Hget).
  exists w1, w2. split; [exact Hadd|]. split; [exact Hclear|].
  split; [exact Hnone|]. rewrite Hget. reflexivity.
Defined.

Lemma hashString_prints_djb2_witness :
  hex_number (chars (hashString "a")) = djb2 (chars "a") /\
  (hashString "a" = hashString "b" <-> djb2 (chars "a") = djb2 (chars "b")).
Proof.
  destruct (hashString_prints_djb2 "a") as (_ & _ & Hn & Hiff).
  split; [exact Hn | exact (Hiff "b")].
Defined.

(* ================================================================== *)
(** * The sync guard and the batching of the listeners *)
(* ================================================================== *)

Section SyncGuard.

Lemma depth_after_nonneg (calls : list bool) (d : Z) :
  0 <= d -> 0 <= depth_after calls d.
Proof.
  unfold depth_after. revert d. induction calls as [|value calls IH]; intros d H; simpl.
  - exact H.
  - apply IH. unfold Listeners.setSyncing. destruct value; lia.
Qed.

Lemma depth_after_running (calls : list bool) (n m : nat) :
  running_after calls n = Some m ->
  depth_after calls (Z.of_nat n) = Z.of_nat m.
Proof.
  unfold depth_after. revert n. induction calls as [|value calls IH]; intros n H; simpl in *.
  - injection H as <-. reflexivity.
  - destruct value.
    + rewrite <- (IH (S n) H). f_equal. unfold Listeners.setSyncing. lia.
    + destruct n as [|n']; [discriminate|].
      rewrite <- (IH n' H). f_equal. unfold Listeners.setSyncing. lia.
Qed.

End SyncGuard.

(** X24. The guard of the listeners counts the passes that run: after the
    calls of passes that each start with [setSyncing(true)] and end with
    [setSyncing(false)], in any interleaving, [syncDepth] is the number of
    passes that have started and not ended, so [isSyncInProgress] holds
    until the last of them has ended.  The counter is never negative: an end
    without a start is ignored.  The [setSyncing] that the queue processor
    calls returns, and is this step on the counter of the world, in every
    world and for both values. *)
Theorem sync_depth_counts_running_passes (calls : list bool) (n : nat)
  (Hcalls : running_after calls 0 = Some n) :
  depth_after calls 0 = Z.of_nat n /\
  Listeners.isSyncInProgress (depth_after calls 0) = negb (Nat.eqb n 0) /\
  (forall more d, 0 <= d -> 0 <= depth_after more d) /\
  (forall value w,
     setSyncing value w
     = (Returned tt, set_syncDepth (Listeners.setSyncing value (syncDepth w)) w)).
Proof.
  pose proof (depth_after_running calls 0 n Hcalls) as H.
  change (Z.of_nat 0) with 0 in H. split; [exact H|].
  split; [|split].
  - rewrite H. unfold Listeners.isSyncInProgress.
    destruct n; [reflexivity|]. simpl. apply Z.ltb_lt. lia.
  - intros more d. apply depth_after_nonneg.
  - intros value w. unfold setSyncing, modify, Listeners.setSyncing.
    destruct value; reflexivity.
Qed.

Lemma sync_depth_counts_running_passes_witness :
  depth_after [true; true; false] 0 = 1 /\
  Listeners.isSyncInProgress (depth_after [true; true; false] 0) = true.
Proof.
  destruct (sync_depth_counts_running_passes [true; true; false] 1 eq_refl)
    as (Hd & Hp & _).
  split; [exact Hd | exact Hp].
Defined.

Section Batching.

Lemma batch_after_operations (operations : list SyncOperation) :
  Listeners.pendingOperations (batch_after operations)
  = keyed_map Listeners.batch_key operations.
Proof.
  unfold batch_after, keyed_map.
  assert (G : forall b,
            Listeners.pendingOperations
              (fold_left (fun b op => Listeners.batchAddToQueue op b) operations b)
            = fold_left (fun m x => map_set (Listeners.batch_key x) x m) operations
                        (Listeners.pendingOperations b)).
  { induction operations as [|op ops IH]; intros b; simpl; [reflexivity|].
    rewrite IH. f_equal. unfold Listeners.batchAddToQueue, Listeners.scheduleQueueFlush.
    simpl. destruct (Listeners.flushTimer b); reflexivity. }
  apply G.
Qed.

Lemma flush_run (b : Listeners.Batch) (w : World) :
  Listeners.flush b w
  = (let* _ := for_of (fun _ op => addToQueue op)
                      (map snd (Listeners.pendingOperations b)) tt in
     ret Listeners.empty_batch) w.
Proof. reflexivity. Qed.

Lemma for_of_addToQueue_returns (operations : list SyncOperation) (w : World) :
  exists w', for_of (fun _ op => addToQueue op) operations tt w = (Returned tt, w').
Proof.
  revert w. induction operations as [|op ops IH]; intros w; simpl; [eauto|].
  unfold bind.
  assert (H : exists w1, addToQueue op w = (Returned tt, w1)).
  { unfold addToQueue, bind, getQueue, gets.
    destruct (find _ (pending (queue_of w))); [eexists; reflexivity|].
    eexists. reflexivity. }
  destruct H as (w1 & ->). apply IH.
Qed.

End Batching.

(** X25. The batching of the listeners keeps one operation for each
    bookmark: of the operations batched before the timer fires, the flush
    hands to [addToQueue] exactly those that are the last one batched with
    their key (the Firefox id, or the operation id without one), each once;
    the flush returns, and leaves the batch empty with no timer. *)
Theorem batch_keeps_latest_operation_per_bookmark
  (operations : list SyncOperation) (w : World) :
  let b := batch_after operations in
  let flushed := map snd (Listeners.pendingOperations b) in
  NoDup (map Listeners.batch_key flushed) /\
  (forall op, In op flushed <-> last_with Listeners.batch_key operations op) /\
  (length flushed <= length operations)%nat /\
  exists w', Listeners.flush b w = (Returned Listeners.empty_batch, w') /\
    for_of (fun _ op => addToQueue op) flushed tt w = (Returned tt, w').
Proof.
  cbv zeta. rewrite batch_after_operations.
  destruct (keyed_map_spec Listeners.batch_key operations) as [Hnd Hin].
  assert (Hkeys : map fst (keyed_map Listeners.batch_key operations)
                  = map Listeners.batch_key
                        (map snd (keyed_map Listeners.batch_key operations))).
  { assert (G : forall m : JsMap SyncOperation,
              (forall k v, In (k, v) m -> k = Listeners.batch_key v) ->
              map fst m = map Listeners.batch_key (map snd m)).
    { induction m as [|[k v] m IH]; intros H; simpl; [reflexivity|].
      rewrite (H k v (or_introl eq_refl)), IH; [reflexivity|].
      intros k' v' Hin'. apply H. right. exact Hin'. }
    apply G. intros k v H. apply Hin in H. tauto. }
  split; [rewrite <- Hkeys; exact Hnd|]. split; [|split].
  - intros op. rewrite in_map_iff. split.
    + intros ([k v] & <- & H). apply Hin in H. tauto.
    + intros H. exists (Listeners.batch_key op, op). split; [reflexivity|].
      apply Hin. auto.
  - rewrite length_map. apply keyed_map_length.
  - destruct (for_of_addToQueue_returns
                (map snd (keyed_map Listeners.batch_key operations)) w) as (w' & Hrun).
    exists w'. split; [|exact Hrun].
    rewrite flush_run, batch_after_operations. unfold bind. rewrite Hrun. reflexivity.
Qed.

Lemma batch_keeps_latest_operation_per_bookmark_witness :
  In SampleKeys.update_7
     (map snd (Listeners.pendingOperations
                 (batch_after [Sample.delete_7; SampleKeys.update_7]))) /\
  ~ In Sample.delete_7
       (map snd (Listeners.pendingOperations
                   (batch_after [Sample.delete_7; SampleKeys.update_7]))).
Proof.
  destruct (batch_keeps_latest_operation_per_bookmark
              [Sample.delete_7; SampleKeys.update_7] SampleNested.world_empty)
    as (_ & Hin & _).
  split.
  - apply Hin. exists [Sample.delete_7], []. split; [reflexivity | intros y []].
  - intros H. apply Hin in H. destruct H as (before & after & E & Hafter).
    destruct before as [|x before]; simpl in E.
    + injection E as <-. apply (Hafter SampleKeys.update_7); [left|]; reflexivity.
    + injection E as _ E. destruct before as [|y before]; simpl in E.
      * injection E as E _. discriminate E.
      * injection E as _ E. destruct before; discriminate E.
Defined.

(* ================================================================== *)
(** * The API client: collections, pages and chunks *)
(* ================================================================== *)

Section Collections.

Lemma first_with_id_snoc (l : list Collection) (x c : Collection) :
  first_with_id (l ++ [x]) c <->
  first_with_id l c \/ (c = x /\ ~ In (c_id x) (map c_id l)).
Proof.
  split.
  - intros (before & after & E & Hbefore).
    induction after as [|y after' _] using rev_ind.
    + right. apply app_inj_tail in E as [-> ->]. split; [reflexivity|].
      intros Hin. apply in_map_iff in Hin as (y & Ey & Hy).
      exact (Hbefore y Hy Ey).
    + left. rewrite app_comm_cons, app_assoc in E.
      apply app_inj_tail in E as [-> _]. exists before, after'. auto.
  - intros [(before & after & -> & Hbefore)|[-> Hnew]].
    + exists before, (after ++ [x]). split; [rewrite <- app_assoc; reflexivity|].
      exact Hbefore.
    + exists l, []. split; [reflexivity|].
      intros y Hy E. apply Hnew. rewrite <- E. apply in_map. exact Hy.
Qed.

Lemma first_with_id_In (l : list Collection) (c : Collection) :
  first_with_id l c -> In c l.
Proof.
  intros (before & after & -> & _). apply in_or_app. right. left. reflexivity.
Qed.

(** The loop has seen the ids of the collections gone through, and kept
    the first collection of each. *)
Lemma dedup_spec (l : list Collection) :
  let st := fold_left Api.dedup_step l (∅, []) in
  (forall k, k ∈ fst st <-> In k (map c_id l)) /\
  NoDup (map c_id (snd st)) /\
  forall c, In c (snd st) <-> first_with_id l c.
Proof.
  cbv zeta. induction l as [|x l IH] using rev_ind.
  - simpl. split; [intros k; split; [intros H; apply not_elem_of_empty in H as [] | intros []]|].
    split; [apply NoDup_nil_2|]. intros c. split; [intros []|].
    intros (before & after & E & _). destruct before; discriminate E.
  - destruct IH as (Hseen & Hnd & Hin). rewrite fold_left_app. simpl.
    destruct (fold_left Api.dedup_step l (∅, [])) as [seen all]. simpl in *.
    unfold Api.dedup_step. cbn [fst snd].
    destruct (bool_decide (c_id x ∈ seen)) eqn:E; cbn [fst snd].
    + apply bool_decide_eq_true in E. apply Hseen in E.
      split; [|split; [exact Hnd|]].
      * intros k. rewrite Hseen, map_app, in_app_iff. simpl.
        split; [auto | intros [H|[<-|[]]]; [exact H | exact E]].
      * intros c. rewrite first_with_id_snoc, Hin. split; [auto|].
        intros [H|[_ H]]; [exact H | contradiction].
    + apply bool_decide_eq_false in E. rewrite Hseen in E.
      split; [|split].
      * intros k. rewrite elem_of_union, elem_of_singleton, Hseen, map_app, in_app_iff.
        simpl. split; [intros [->|H]; auto | intros [H|[<-|[]]]; auto].
      * apply NoDup_map_snoc; [exact Hnd|].
        intros H. apply in_map_iff in H as (y & Ey & Hy).
        apply Hin, first_with_id_In in Hy. apply E. rewrite <- Ey.
        apply in_map. exact Hy.
      * intros c. rewrite first_with_id_snoc, in_app_iff, Hin. simpl.
        split; [intros [H|[<-|[]]]; auto | intros [H|[-> _]]; auto].
Qed.

End Collections.

(** X26. [getAllCollections] fails only when the root collections cannot
    be listed; a failure to list the child collections counts as an empty
    list.  Its result has no two collections with one id and holds, of the
    root collections followed by the child collections, exactly those that
    are the first with their id: every id listed is kept once. *)
Theorem getAllCollections_keeps_first_of_each_id
  (root children : Outcome (list Collection)) :
  match root with
  | Throws err => Api.getAllCollections root children = Throws err
  | Returned root' =>
      let listed := root' ++ match children with
                             | Returned l => l
                             | Throws _ => []
                             end in
      exists all, Api.getAllCollections root children = Returned all /\
        NoDup (map c_id all) /\
        (forall c, In c all <-> first_with_id listed c) /\
        (forall c, In c listed -> In (c_id c) (map c_id all))
  end.
Proof.
  destruct root as [root'|err]; [|reflexivity].
  cbv zeta. unfold Api.getAllCollections.
  set (listed := root' ++ match children with Returned l => l | Throws _ => [] end).
  destruct (dedup_spec listed) as (Hseen & Hnd & Hin).
  eexists. split; [reflexivity|]. split; [exact Hnd|]. split; [exact Hin|].
  intros c Hc. induction listed as [|x l IH] using rev_ind; [destruct Hc|].
  clear IH.
  assert (Hk : In (c_id c) (map c_id (l ++ [x]))) by (apply in_map; exact Hc).
  clear Hc. revert Hk. generalize (c_id c). intros k Hk.
  assert (Hfirst : forall (l0 : list Collection) k0, In k0 (map c_id l0) ->
            exists c0, first_with_id l0 c0 /\ c_id c0 = k0).
  { clear. induction l0 as [|y l0 IH] using rev_ind; intros k0 H; [destruct H|].
    rewrite map_app, in_app_iff in H.
    destruct (in_dec Z.eq_dec k0 (map c_id l0)) as [Hin|Hout].
    - destruct (IH k0 Hin) as (c0 & Hc0 & E). exists c0. split; [|exact E].
      apply first_with_id_snoc. left. exact Hc0.
    - destruct H as [H|[<-|[]]]; [contradiction|].
      exists y. split; [|reflexivity]. apply first_with_id_snoc. right. auto. }
  destruct (Hfirst _ _ Hk) as (c0 & Hc0 & <-).
  apply in_map, Hin, Hc0.
Qed.

Section Pages.

Variable on_page : Z -> nat -> Outcome (list Raindrop).
Variable collectionId : Z.

(** Full pages are gone through, one unit of fuel each. *)
Lemma pages_from_full (k fuel page : nat) (allRaindrops : list Raindrop) :
  (forall j, (j < k)%nat -> full_page on_page collectionId (page + j)) ->
  Api.pages_from (k + fuel) on_page collectionId page allRaindrops
  = Api.pages_from fuel on_page collectionId (page + k)
      (allRaindrops
       ++ concat (map (page_items on_page collectionId) (seq page k))).
Proof.
  revert page allRaindrops. induction k as [|k IH]; intros page allRaindrops Hfull.
  - simpl. rewrite app_nil_r, Nat.add_0_r. reflexivity.
  - destruct (Hfull 0%nat) as (l & El & Hl); [lia|]. rewrite Nat.add_0_r in El.
    cbn [Nat.add Api.pages_from]. rewrite El.
    replace (Z.of_nat (length l) <? Api.perPage) with false
      by (symmetry; apply Z.ltb_ge; exact Hl).
    rewrite IH.
    + replace (S page + k)%nat with (page + S k)%nat by lia.
      cbn [seq map concat]. unfold page_items at 2. rewrite El, <- app_assoc.
      reflexivity.
    + intros j Hj. replace (S page + j)%nat with (page + S j)%nat by lia.
      apply Hfull. lia.
Qed.

End Pages.

(** X27. [getAllRaindropsInCollection] asks for the pages in order, and
    ends on the first page that is short or fails: when the pages before
    [last_page] each hold at least fifty items, a page [last_page] of fewer
    items makes it return the items of the pages 0 to [last_page] in order,
    and a failure of that page makes it throw, dropping the items fetched.
    It relies on the service for its end: while every page holds at least
    fifty items the loop goes on. *)
Theorem getAllRaindropsInCollection_ends_on_short_page
  (on_page : Z -> nat -> Outcome (list Raindrop)) (collectionId : Z)
  (last_page : nat)
  (Hfull : forall j, (j < last_page)%nat -> full_page on_page collectionId j) :
  (forall l fuel, on_page collectionId last_page = Returned l ->
     Z.of_nat (length l) < Api.perPage -> (last_page < fuel)%nat ->
     Api.getAllRaindropsInCollection fuel on_page collectionId
     = Some (Returned (pages_up_to on_page collectionId last_page))) /\
  (forall err fuel, on_page collectionId last_page = Throws err ->
     (last_page < fuel)%nat ->
     Api.getAllRaindropsInCollection fuel on_page collectionId = Some (Throws err)) /\
  (full_page on_page collectionId last_page ->
     Api.getAllRaindropsInCollection (S last_page) on_page collectionId = None).
Proof.
  assert (Hrun : forall fuel,
            Api.getAllRaindropsInCollection (last_page + fuel) on_page collectionId
            = Api.pages_from fuel on_page collectionId last_page
                (concat (map (page_items on_page collectionId) (seq 0 last_page)))).
  { intros fuel. unfold Api.getAllRaindropsInCollection.
    rewrite pages_from_full by exact Hfull. reflexivity. }
  split; [|split].
  - intros l fuel El Hshort Hfuel.
    replace fuel with (last_page + S (fuel - S last_page))%nat by lia.
    rewrite Hrun. cbn [Api.pages_from]. rewrite El.
    replace (Z.of_nat (length l) <? Api.perPage) with true
      by (symmetry; apply Z.ltb_lt; exact Hshort).
    unfold pages_up_to. rewrite seq_S, map_app, concat_app. cbn [map concat Nat.add].
    unfold page_items at 3. rewrite El, app_nil_r. reflexivity.
  - intros err fuel El Hfuel.
    replace fuel with (last_page + S (fuel - S last_page))%nat by lia.
    rewrite Hrun. cbn [Api.pages_from]. rewrite El. reflexivity.
  - intros (l & El & Hl).
    replace (S last_page) with (last_page + 1)%nat by lia.
    rewrite Hrun. cbn [Api.pages_from]. rewrite El.
    replace (Z.of_nat (length l) <? Api.perPage) with false
      by (symmetry; apply Z.ltb_ge; exact Hl).
    reflexivity.
Qed.

Lemma getAllRaindropsInCollection_ends_on_short_page_witness :
  Api.getAllRaindropsInCollection 5 SampleApi.two_pages 7
  = Some (Returned (pages_up_to SampleApi.two_pages 7 1)) /\
  Api.getAllRaindropsInCollection 2 SampleApi.always_full 7 = None.
Proof.
  split.
  - assert (Hfull : forall j, (j < 1)%nat -> full_page SampleApi.two_pages 7 j).
    { intros j Hj. assert (j = 0%nat) by lia. subst j.
      eexists. split; [reflexivity|]. vm_compute. discriminate. }
    destruct (getAllRaindropsInCollection_ends_on_short_page
                SampleApi.two_pages 7 1 Hfull) as (H & _).
    apply (H (map SampleApi.item (seq 50 3))); [reflexivity | reflexivity | lia].
  - assert (Hfull : forall j, (j < 1)%nat -> full_page SampleApi.always_full 7 j).
    { intros j Hj. eexists. split; [reflexivity|].
      rewrite length_map, length_seq. unfold Api.perPage. lia. }
    destruct (getAllRaindropsInCollection_ends_on_short_page
                SampleApi.always_full 7 1 Hfull) as (_ & _ & H).
    apply H. eexists. split; [reflexivity|].
    rewrite length_map, length_seq. unfold Api.perPage. lia.
Defined.

Section Chunks.

Variable on_bulk : list (list Api.CreateRaindropData) -> list Api.CreateRaindropData
                   -> Outcome Api.BulkResponse.
Variable items : list Api.CreateRaindropData.

(** The loop from index [i]: with a unit of fuel for each hundred items
    left, it ends; the chunks that it sends are the items from [i] on, cut
    every hundred, as far as it gets.  It goes on after a request that
    returns and stops at the first request that throws. *)
Lemma bulk_from_spec (fuel i : nat) results sent :
  (length items - i <= Api.CHUNK_SIZE * fuel)%nat ->
  exists out new rest,
    Api.bulk_from fuel on_bulk items i results sent = Some (out, sent ++ new) /\
    Forall chunk_ok new /\
    drop i items = concat new ++ rest /\
    (forall r, out = Returned r ->
       rest = [] /\
       (length items - i <= Api.CHUNK_SIZE * length new
        < length items - i + Api.CHUNK_SIZE)%nat) /\
    (forall err, out = Throws err ->
       exists before chunk, new = before ++ [chunk] /\
         on_bulk (sent ++ before) chunk = Throws err) /\
    (forall before chunk after, new = before ++ chunk :: after ->
       after <> [] \/ (exists r, out = Returned r) ->
       exists response, on_bulk (sent ++ before) chunk = Returned response).
Proof.
  unfold Api.CHUNK_SIZE.
  revert i results sent. induction fuel as [|fuel IH]; intros i results sent Hfuel.
  - exists (Returned results), [], []. unfold Api.bulk_from.
    destruct (Nat.ltb_spec i (length items)) as [Hlt|Hge]; [lia|].
    rewrite app_nil_r. split; [reflexivity|]. split; [constructor|].
    split; [simpl; apply drop_ge; lia|].
    split; [intros r _; simpl; split; [reflexivity | lia]|].
    split; [intros err H; discriminate H|].
    intros before chunk after H. destruct before; discriminate H.
  - cbn [Api.bulk_from]. destruct (Nat.ltb_spec i (length items)) as [Hlt|Hge].
    2:{ exists (Returned results), [], []. rewrite app_nil_r.
        split; [reflexivity|]. split; [constructor|].
        split; [simpl; apply drop_ge; lia|].
        split; [intros r _; simpl; split; [reflexivity | lia]|].
        split; [intros err H; discriminate H|].
        intros before chunk after H. destruct before; discriminate H. }
    set (chunk := take Api.CHUNK_SIZE (drop i items)).
    assert (Hchunk : chunk_ok chunk).
    { unfold chunk_ok, chunk, Api.CHUNK_SIZE. rewrite length_take, length_drop. lia. }
    assert (Hcut : drop i items = chunk ++ drop (i + Api.CHUNK_SIZE) items).
    { unfold chunk. rewrite <- (take_drop Api.CHUNK_SIZE (drop i items)) at 1.
      rewrite drop_drop. reflexivity. }
    assert (Hlen : length chunk = Nat.min 100 (length items - i)).
    { unfold chunk, Api.CHUNK_SIZE. rewrite length_take, length_drop. reflexivity. }
    destruct (on_bulk sent chunk) as [response|err] eqn:Hanswer.
    + match goal with |- context [Api.bulk_from fuel on_bulk items ?j ?r ?s] =>
        destruct (IH j r s)
          as (out & new & rest & Hrun & Hok & Hdrop & Hret & Hthrows & Hbefore)
      end.
      { unfold Api.CHUNK_SIZE. lia. }
      exists out, (chunk :: new), rest.
      split; [|split; [|split; [|split; [|split]]]].
      * rewrite Hrun, <- app_assoc. reflexivity.
      * constructor; assumption.
      * rewrite Hcut, Hdrop. simpl. rewrite app_assoc. reflexivity.
      * intros r Hr. destruct (Hret r Hr) as [-> Hcount]. split; [reflexivity|].
        unfold Api.CHUNK_SIZE in *. cbn [length]. lia.
      * intros e He. destruct (Hthrows e He) as (before & last & -> & Hlast).
        exists (chunk :: before), last. split; [reflexivity|].
        rewrite <- Hlast, <- app_assoc. reflexivity.
      * intros before c after Hsplit Hwhy.
        destruct before as [|c0 before]; cbn [app] in Hsplit.
        -- injection Hsplit as <- _. rewrite app_nil_r. eauto.
        -- injection Hsplit as <- ->.
           destruct (Hbefore before c after eq_refl Hwhy) as (r & Hr).
           exists r. rewrite <- Hr, <- app_assoc. reflexivity.
    + exists (Throws err), [chunk], (drop (i + Api.CHUNK_SIZE) items).
      split; [reflexivity|]. split; [constructor; [exact Hchunk | constructor]|].
      split; [rewrite Hcut; simpl; rewrite app_nil_r; reflexivity|].
      split; [intros r H; discriminate H|].
      split.
      * intros e [= <-]. exists [], chunk. split; [reflexivity|].
        rewrite app_nil_r. exact Hanswer.
      * intros before c after Hsplit [Hafter|[r Hr]]; [|discriminate Hr].
        destruct before as [|c0 [|c1 before]]; cbn [app] in Hsplit.
        -- injection Hsplit as _ <-. contradiction.
        -- injection Hsplit as _ Hnil. discriminate Hnil.
        -- injection Hsplit as _ Hnil. discriminate Hnil.
Qed.

Lemma bulk_from_fuel (fuel1 fuel2 i : nat) results sent :
  (length items - i <= Api.CHUNK_SIZE * fuel1)%nat ->
  (length items - i <= Api.CHUNK_SIZE * fuel2)%nat ->
  Api.bulk_from fuel1 on_bulk items i results sent
  = Api.bulk_from fuel2 on_bulk items i results sent.
Proof.
  unfold Api.CHUNK_SIZE.
  revert fuel2 i results sent.
  induction fuel1 as [|fuel1 IH]; intros fuel2 i results sent H1 H2.
  - destruct fuel2; cbn [Api.bulk_from];
      destruct (Nat.ltb_spec i (length items)); [reflexivity | reflexivity | lia | reflexivity].
  - destruct fuel2 as [|fuel2]; cbn [Api.bulk_from];
      destruct (Nat.ltb_spec i (length items)) as [Hlt|Hge]; try reflexivity; [lia|].
    destruct (on_bulk sent _) as [response|err]; [|reflexivity].
    apply IH; unfold Api.CHUNK_SIZE; lia.
Qed.

End Chunks.

(** X28. [createRaindrops] ends, with one request for each hundred items:
    every request carries at least one and at most a hundred items, the
    chunks sent are the items in order, as far as the loop gets, and when it
    returns they are all the items, in as few chunks as a hundred each
    allows.  A request that throws ends it with that error: it is the last
    request sent, and every request before it has returned. *)
Theorem createRaindrops_sends_chunks_of_a_hundred
  (on_bulk : list (list Api.CreateRaindropData) -> list Api.CreateRaindropData
             -> Outcome Api.BulkResponse)
  (items : list Api.CreateRaindropData) :
  exists out sent,
    Api.createRaindrops (length items) on_bulk items = Some (out, sent) /\
    (forall fuel, (length items <= fuel)%nat ->
       Api.createRaindrops fuel on_bulk items = Some (out, sent)) /\
    Forall chunk_ok sent /\
    (exists rest, items = concat sent ++ rest) /\
    (forall results, out = Returned results ->
       concat sent = items /\
       (length items <= 100 * length sent < length items + 100)%nat) /\
    (forall err, out = Throws err ->
       exists before chunk, sent = before ++ [chunk] /\
         on_bulk before chunk = Throws err) /\
    (forall before chunk after, sent = before ++ chunk :: after ->
       after <> [] \/ (exists results, out = Returned results) ->
       exists response, on_bulk before chunk = Returned response).
Proof.
  assert (Hfuel : forall fuel, (length items <= fuel)%nat ->
            (length items - 0 <= Api.CHUNK_SIZE * fuel)%nat)
    by (intros fuel H; unfold Api.CHUNK_SIZE; lia).
  destruct (bulk_from_spec on_bulk items (length items) 0 [] [] (Hfuel _ (le_n _)))
    as (out & new & rest & Hrun & Hok & Hdrop & Hret & Hthrows & Hbefore).
  cbn [app drop] in Hrun, Hdrop, Hthrows, Hbefore.
  unfold Api.createRaindrops.
  destruct (Nat.eqb_spec (length items) 0) as [Hempty|Hsome].
  - exists (Returned []), []. split; [reflexivity|]. split; [reflexivity|].
    split; [constructor|]. split; [exists items; reflexivity|].
    split; [|split].
    + intros results _. destruct items; [|discriminate Hempty].
      simpl. split; [reflexivity | lia].
    + intros err H. discriminate H.
    + intros before chunk after H. destruct before; discriminate H.
  - exists out, new. split; [exact Hrun|].
    split; [|split; [exact Hok|split; [|split; [|split]]]].
    + intros fuel H. rewrite <- Hrun. apply bulk_from_fuel; [apply Hfuel, H | apply Hfuel; lia].
    + exists rest. exact Hdrop.
    + intros results Hres. destruct (Hret results Hres) as [-> Hcount].
      rewrite app_nil_r in Hdrop. split; [symmetry; exact Hdrop|].
      unfold Api.CHUNK_SIZE in Hcount. lia.
    + exact Hthrows.
    + exact Hbefore.
Qed.

Example createRaindrops_sample :
  let items := map (fun n => Api.mkCreate (Sample.tag n) None None) (seq 0 250) in
  option_map (fun r => map (@length _) (snd r))
             (Api.createRaindrops 3 SampleApi.accepts_all items)
  = Some [100; 100; 50]%nat.
Proof. vm_compute. reflexivity. Qed.

(* ================================================================== *)
(** * The rate limiter *)
(* ================================================================== *)

Section Limiter.

Lemma filter_split {A} (p : A -> bool) (l : list A) :
  Permutation l (List.filter (fun x => negb (p x)) l ++ List.filter p l).
Proof.
  induction l as [|x l IH]; simpl; [reflexivity|].
  destruct (p x); simpl.
  - apply Permutation_cons_app. exact IH.
  - apply perm_skip. exact IH.
Qed.

Lemma filter_length_perm {A} (p : A -> bool) (l l' : list A) :
  Permutation l l' -> length (List.filter p l) = length (List.filter p l').
Proof.
  induction 1 as [|x l l' _ IH|x y l|l l' l'' _ IH1 _ IH2]; simpl.
  - reflexivity.
  - destruct (p x); simpl; congruence.
  - destruct (p x), (p y); reflexivity.
  - congruence.
Qed.

Lemma filter_none_of {A} (p : A -> bool) (l : list A) :
  (forall x, In x l -> p x = false) -> List.filter p l = [].
Proof.
  induction l as [|x l IH]; intros H; simpl; [reflexivity|].
  rewrite (H x (or_introl eq_refl)). apply IH. intros y Hy. apply H. right. exact Hy.
Qed.

Lemma filter_incl_length {A} (p q : A -> bool) (l : list A) :
  (forall x, p x = true -> q x = true) ->
  (length (List.filter p l) <= length (List.filter q l))%nat.
Proof.
  intros H. induction l as [|x l IH]; simpl; [lia|].
  destruct (p x) eqn:Ep; [rewrite (H x Ep); simpl; lia|].
  destruct (q x); simpl; lia.
Qed.

Lemma in_window_old (t : Z) (old : list Z) (last : Z) :
  last <= t ->
  (forall x, In x old -> RateLimiter.RATE_LIMIT_WINDOW <= last - x) ->
  in_window t old = [].
Proof.
  intros Hlast Hold. apply filter_none_of. intros x Hx.
  apply Z.ltb_ge. specialize (Hold x Hx). lia.
Qed.

(** One call of [wait] at the right times keeps the account. *)
Lemma limiter_step (made : list Z) (last now pushed : Z) (requests : list Z) :
  limiter_ok made last requests ->
  last <= now ->
  now + default 0 (RateLimiter.waitTime now requests) <= pushed ->
  limiter_ok (made ++ [pushed]) pushed (RateLimiter.wait now pushed requests) /\
  (length (in_window pushed (made ++ [pushed])) <= 120)%nat.
Proof.
  intros [(old & Hperm & Hold) Hcount] Hnow Hpushed.
  set (kept := RateLimiter.recent now requests) in *.
  set (dropped := List.filter
                    (fun time => negb (now - time <? RateLimiter.RATE_LIMIT_WINDOW))
                    requests).
  assert (Hkept : (length kept <= 120)%nat).
  { etransitivity; [|exact Hcount]. apply filter_incl_length.
    intros x Hx. apply Z.ltb_lt in Hx. apply Z.ltb_lt. lia. }
  assert (Hle : now <= pushed).
  { unfold RateLimiter.waitTime in Hpushed. fold kept in Hpushed. cbv zeta in Hpushed.
    destruct (Z.of_nat (length kept) >=? RateLimiter.MAX_REQUESTS_PER_WINDOW) eqn:E;
      simpl in Hpushed; [|lia].
    destruct kept as [|h tl] eqn:Ek; [discriminate E|].
    assert (Hh : In h (RateLimiter.recent now requests))
      by (fold kept; rewrite Ek; left; reflexivity).
    apply filter_In in Hh as [_ Hh]. apply Z.ltb_lt in Hh.
    simpl in Hpushed. unfold RateLimiter.RATE_LIMIT_WINDOW in *. lia. }
  assert (Hwindow : (length (in_window pushed (kept ++ [pushed])) <= 120)%nat).
  { unfold in_window. rewrite List.filter_app, length_app.
    assert (Hself : (length (List.filter
                               (fun time : Z => (pushed - time <? RateLimiter.RATE_LIMIT_WINDOW)%Z)
                               [pushed]) <= 1)%nat)
      by (simpl; destruct (_ <? _); simpl; lia).
    unfold RateLimiter.waitTime in Hpushed. fold kept in Hpushed. cbv zeta in Hpushed.
    destruct (Z.geb_spec (Z.of_nat (length kept)) RateLimiter.MAX_REQUESTS_PER_WINDOW)
      as [Hfull|Hroom].
    - destruct kept as [|h tl] eqn:Ek;
        [unfold RateLimiter.MAX_REQUESTS_PER_WINDOW in Hfull; simpl in Hfull; lia|].
      simpl in Hpushed. cbn [List.filter].
      replace (pushed - h <? RateLimiter.RATE_LIMIT_WINDOW) with false
        by (symmetry; apply Z.ltb_ge; unfold RateLimiter.RATE_LIMIT_WINDOW in *; lia).
      pose proof (filter_length_le
                    (fun time : Z => (pushed - time <? RateLimiter.RATE_LIMIT_WINDOW)%Z) tl).
      cbn [length] in Hkept. cbn [List.filter] in Hself. lia.
    - pose proof (filter_length_le
                    (fun time : Z => (pushed - time <? RateLimiter.RATE_LIMIT_WINDOW)%Z) kept).
      unfold RateLimiter.MAX_REQUESTS_PER_WINDOW in Hroom. lia. }
  assert (Hperm' : Permutation (made ++ [pushed])
                     ((old ++ dropped) ++ RateLimiter.wait now pushed requests)).
  { unfold RateLimiter.wait. fold kept. rewrite Hperm, <- !app_assoc.
    apply Permutation_app_head. rewrite app_assoc. apply Permutation_app_tail.
    apply filter_split. }
  assert (Hold' : forall t, In t (old ++ dropped) ->
                            RateLimiter.RATE_LIMIT_WINDOW <= pushed - t).
  { intros t Ht. apply in_app_or in Ht as [Ht|Ht].
    - specialize (Hold t Ht). lia.
    - apply filter_In in Ht as [_ Ht]. apply negb_true_iff, Z.ltb_ge in Ht. lia. }
  split; [split|].
  - exists (old ++ dropped). split; [exact Hperm' | exact Hold'].
  - exact Hwindow.
  - unfold in_window in *.
    rewrite (filter_length_perm _ _ _ Hperm'), List.filter_app, length_app.
    fold (in_window pushed (old ++ dropped)).
    rewrite (in_window_old pushed (old ++ dropped) pushed (Z.le_refl _) Hold').
    exact Hwindow.
Qed.

Lemma limiter_run (calls : list (Z * Z)) (made : list Z) (last : Z) (requests : list Z) :
  limiter_ok made last requests ->
  timely calls last requests ->
  forall before now pushed later, calls = before ++ (now, pushed) :: later ->
    (length (in_window pushed (made ++ map snd before ++ [pushed])) <= 120)%nat.
Proof.
  revert made last requests.
  induction calls as [|[now0 pushed0] calls IH];
    intros made last requests Hok Htimely before now pushed later E.
  - destruct before; discriminate E.
  - destruct Htimely as (Hnow & Hpushed & Hrest).
    destruct (limiter_step made last now0 pushed0 requests Hok Hnow Hpushed)
      as [Hok' Hwindow].
    destruct before as [|[n p] before]; simpl in E.
    + injection E as <- <- _. exact Hwindow.
    + injection E as <- <- E.
      specialize (IH _ _ _ Hok' Hrest before now pushed later E).
      simpl. rewrite <- app_assoc in IH. exact IH.
Qed.

End Limiter.

(** X29. The rate limiter keeps its promise when its calls do not overlap,
    the clock does not run backwards and a sleep lasts at least the time
    asked for: whenever [wait] lets a request through, at most 120 of the
    requests let through so far, this one included, lie less than a minute
    before it. *)
Theorem rate_limiter_allows_120_per_window
  (calls before later : list (Z * Z)) (start now pushed : Z)
  (Htimely : timely calls start [])
  (Hcall : calls = before ++ (now, pushed) :: later) :
  (length (in_window pushed (map snd before ++ [pushed])) <= 120)%nat.
Proof.
  assert (Hok : limiter_ok [] start []).
  { split; [|simpl; lia]. exists []. split; [reflexivity | intros t []]. }
  exact (limiter_run calls [] start [] Hok Htimely before now pushed later Hcall).
Qed.

Lemma rate_limiter_allows_120_per_window_witness :
  (length (in_window SampleLimiter.late
                     (map snd SampleLimiter.earlier ++ [SampleLimiter.late])) <= 120)%nat.
Proof.
  apply (rate_limiter_allows_120_per_window
           (SampleLimiter.earlier ++ [(SampleLimiter.late, SampleLimiter.late)])
           SampleLimiter.earlier [] 0 SampleLimiter.late SampleLimiter.late).
  - unfold SampleLimiter.earlier, SampleLimiter.late. simpl.
    unfold RateLimiter.waitTime. simpl. lia.
  - reflexivity.
Defined.

(* ================================================================== *)
(** * The retries of a request *)
(* ================================================================== *)

Section Retries.

Variable parseInt : string -> option Z.
Variable on_fetch : nat -> ApiRequest.Fetched.
Variables method endpoint : string.

Ltac flags :=
  repeat match goal with
         | H : (_ <? _) = true |- _ => apply Z.ltb_lt in H
         | H : (_ <? _) = false |- _ => apply Z.ltb_ge in H
         | H : (_ >=? _) = true |- _ => apply Z.geb_le in H
         | H : (_ >=? _) = false |- _ => rewrite Z.geb_leb in H; apply Z.leb_gt in H
         | H : (_ =? _) = true |- _ => apply Z.eqb_eq in H
         | H : (_ =? _) = false |- _ => apply Z.eqb_neq in H
         end.

(** An attempt that can be tried again is, while fewer than three retries
    have been made. *)
Lemma attempt_retries (r : nat) (c : ApiRequest.Client) :
  truthy_str (ApiRequest.token c) = true ->
  (r < 3)%nat ->
  retryable (on_fetch (ApiRequest.fetches c)) = true ->
  forall fuel,
    ApiRequest.apiRequest (S fuel) parseInt on_fetch method endpoint r c
    = ApiRequest.apiRequest fuel parseInt on_fetch method endpoint (S r)
        (ApiRequest.slept (delay parseInt r (on_fetch (ApiRequest.fetches c)))
                          (attempted c)).
Proof.
  intros Htoken Hr Hretry.
  assert (Hlt : (Z.of_nat r <? ApiRequest.MAX_RETRIES) = true)
    by (apply Z.ltb_lt; unfold ApiRequest.MAX_RETRIES; lia).
  assert (Hge : (Z.of_nat r >=? ApiRequest.MAX_RETRIES) = false)
    by (rewrite Z.geb_leb; apply Z.leb_gt; unfold ApiRequest.MAX_RETRIES; lia).
  intros fuel.
  unfold retryable in Hretry. unfold delay. cbn [ApiRequest.apiRequest]. cbn [ApiRequest.token].
  rewrite Htoken. cbn [negb]. cbv zeta. cbn [ApiRequest.fetches ApiRequest.token
    ApiRequest.waits ApiRequest.sleeps].
  fold (attempted c).
  destruct (on_fetch (ApiRequest.fetches c)) as [f|status statusText retryAfter json].
  - rewrite Hlt, Hretry. cbn [andb]. reflexivity.
  - destruct (status =? 429) eqn:E429.
    + rewrite Hge. reflexivity.
    + destruct (ApiRequest.ok status) eqn:Eok; cbn [negb orb andb] in *.
      * destruct json as [f|result]; [|discriminate Hretry].
        rewrite Hlt, Hretry. cbn [andb]. reflexivity.
      * rewrite orb_false_r in Hretry.
        destruct (status =? 401) eqn:E401; [discriminate Hretry|].
        cbn [negb andb] in Hretry. rewrite Hretry, Hlt. cbn [andb].
        reflexivity.
Qed.

(** Any other attempt ends the request. *)
Lemma attempt_ends (r : nat) (c : ApiRequest.Client) :
  truthy_str (ApiRequest.token c) = true ->
  (3 <= r)%nat \/ retryable (on_fetch (ApiRequest.fetches c)) = false ->
  exists out tok, (forall fuel,
    ApiRequest.apiRequest fuel parseInt on_fetch method endpoint r c
    = Some (out, with_token tok (attempted c))) /\
    (forall result, out = Returned result ->
       answered (on_fetch (ApiRequest.fetches c)) result) /\
    (tok = ApiRequest.token c \/
     (tok = None /\ unauthorized (on_fetch (ApiRequest.fetches c)))).
Proof.
  intros Htoken Hstop.
  unfold retryable in Hstop.
  destruct (on_fetch (ApiRequest.fetches c)) as [f|status statusText retryAfter json] eqn:Ef.
  - exists (Throws (ApiRequest.failure f)), (ApiRequest.token c).
    split; [|split; [intros result H; discriminate H | left; reflexivity]].
    intros fuel. destruct fuel; cbn [ApiRequest.apiRequest]; cbn [ApiRequest.token];
      rewrite Htoken; cbn [negb]; cbv zeta;
      cbn [ApiRequest.fetches ApiRequest.token ApiRequest.waits ApiRequest.sleeps];
      rewrite Ef;
      (destruct (Z.of_nat r <? ApiRequest.MAX_RETRIES) eqn:Er;
       [|reflexivity]);
      (destruct Hstop as [Hstop|Hstop];
       [flags; unfold ApiRequest.MAX_RETRIES in *; lia
       |rewrite Hstop; reflexivity]).
  - destruct (status =? 429) eqn:E429.
    { destruct Hstop as [Hstop|Hstop]; [|cbn [orb] in Hstop; discriminate Hstop].
      assert (Hge : (Z.of_nat r >=? ApiRequest.MAX_RETRIES) = true)
        by (apply Z.geb_le; unfold ApiRequest.MAX_RETRIES; lia).
      assert (Hlt : (Z.of_nat r <? ApiRequest.MAX_RETRIES) = false)
        by (apply Z.ltb_ge; unfold ApiRequest.MAX_RETRIES; lia).
      eexists _, (ApiRequest.token c). split.
      { intros fuel.
        destruct fuel; cbn [ApiRequest.apiRequest]; cbn [ApiRequest.token];
          rewrite Htoken; cbn [negb]; cbv zeta;
          cbn [ApiRequest.fetches ApiRequest.token ApiRequest.waits ApiRequest.sleeps];
          rewrite Ef, E429, Hge, Hlt; reflexivity. }
      split; [intros result H; discriminate H | left; reflexivity]. }
    destruct (ApiRequest.ok status) eqn:Eok.
    { destruct json as [f|result].
      - exists (Throws (ApiRequest.failure f)), (ApiRequest.token c).
        split; [|split; [intros result H; discriminate H | left; reflexivity]].
        intros fuel. destruct fuel; cbn [ApiRequest.apiRequest]; cbn [ApiRequest.token];
          rewrite Htoken; cbn [negb]; cbv zeta;
          cbn [ApiRequest.fetches ApiRequest.token ApiRequest.waits ApiRequest.sleeps];
          rewrite Ef, E429, Eok; cbn [negb];
          (destruct (Z.of_nat r <? ApiRequest.MAX_RETRIES) eqn:Er; [|reflexivity]);
          (destruct Hstop as [Hstop|Hstop];
           [flags; unfold ApiRequest.MAX_RETRIES in *; lia
           |cbn [negb orb andb] in Hstop; rewrite Hstop; reflexivity]).
      - exists (Returned result), (ApiRequest.token c).
        split; [|split; [|left; reflexivity]].
        + intros fuel. destruct fuel; cbn [ApiRequest.apiRequest]; cbn [ApiRequest.token];
            rewrite Htoken; cbn [negb]; cbv zeta;
            cbn [ApiRequest.fetches ApiRequest.token ApiRequest.waits ApiRequest.sleeps];
            rewrite Ef, E429, Eok; reflexivity.
        + intros result' [= <-]. exists status, statusText, retryAfter. auto. }
    destruct (status =? 401) eqn:E401.
    { eexists _, None. split; [|split].
      - intros fuel. destruct fuel; cbn [ApiRequest.apiRequest]; cbn [ApiRequest.token];
          rewrite Htoken; cbn [negb]; cbv zeta;
          cbn [ApiRequest.fetches ApiRequest.token ApiRequest.waits ApiRequest.sleeps];
          rewrite Ef, E429, Eok, E401; cbn [negb andb];
          rewrite andb_false_r; reflexivity.
      - intros result H; discriminate H.
      - right. split; [reflexivity|]. flags. subst status.
        exists statusText, retryAfter, json. reflexivity. }
    assert (Hno : (status >=? 500) && (Z.of_nat r <? ApiRequest.MAX_RETRIES) = false).
    { destruct Hstop as [Hstop|Hstop].
      - replace (Z.of_nat r <? ApiRequest.MAX_RETRIES) with false
          by (symmetry; apply Z.ltb_ge; unfold ApiRequest.MAX_RETRIES; lia).
        apply andb_false_r.
      - cbn [negb orb andb] in Hstop. rewrite orb_false_r in Hstop.
        rewrite Hstop. reflexivity. }
    eexists _, (ApiRequest.token c). split; [|split].
    + intros fuel.
      destruct fuel; cbn [ApiRequest.apiRequest]; cbn [ApiRequest.token];
        rewrite Htoken; cbn [negb]; cbv zeta;
        cbn [ApiRequest.fetches ApiRequest.token ApiRequest.waits ApiRequest.sleeps];
        rewrite Ef, E429, Eok, E401, Hno; cbn [negb andb];
        rewrite andb_false_r; reflexivity.
    + intros result H; discriminate H.
    + left; reflexivity.
Qed.

(** A request with [r] retries and as many fetches behind it. *)
Lemma request_from (n r : nat) (c : ApiRequest.Client) :
  (r + n = 3)%nat ->
  truthy_str (ApiRequest.token c) = true ->
  ApiRequest.fetches c = r ->
  exists out c',
    (forall fuel, (n <= fuel)%nat ->
       ApiRequest.apiRequest fuel parseInt on_fetch method endpoint r c
       = Some (out, c')) /\
    (r < ApiRequest.fetches c' <= 4)%nat /\
    (ApiRequest.waits c' + r = ApiRequest.waits c + ApiRequest.fetches c')%nat /\
    ApiRequest.sleeps c'
    = ApiRequest.sleeps c
      ++ map (fun k => delay parseInt k (on_fetch k))
             (seq r (ApiRequest.fetches c' - 1 - r)) /\
    (forall k, (r <= k < ApiRequest.fetches c' - 1)%nat ->
               retryable (on_fetch k) = true) /\
    ((ApiRequest.fetches c' < 4)%nat ->
     retryable (on_fetch (ApiRequest.fetches c' - 1)%nat) = false) /\
    (forall result, out = Returned result ->
       answered (on_fetch (ApiRequest.fetches c' - 1)%nat) result) /\
    (ApiRequest.token c' = ApiRequest.token c \/
     (ApiRequest.token c' = None /\
      unauthorized (on_fetch (ApiRequest.fetches c' - 1)%nat))).
Proof.
  revert r c. induction n as [|n IH]; intros r c Hrn Htoken Hfetches.
  - destruct (attempt_ends r c Htoken) as (out & tok & Hrun & Hret & Htok);
      [left; lia|].
    exists out, (with_token tok (attempted c)).
    cbn [with_token attempted ApiRequest.fetches ApiRequest.waits
         ApiRequest.sleeps ApiRequest.token].
    rewrite Hfetches in *.
    replace (S r - 1)%nat with r by lia. replace (r - r)%nat with 0%nat by lia.
    cbn [seq map]. rewrite app_nil_r.
    repeat split; try lia; auto.
  - destruct (retryable (on_fetch (ApiRequest.fetches c))) eqn:Hretry.
    + pose proof (attempt_retries r c Htoken ltac:(lia) Hretry) as Hstep.
      set (c1 := ApiRequest.slept
                   (delay parseInt r (on_fetch (ApiRequest.fetches c)))
                   (attempted c)) in *.
      destruct (IH (S r) c1 ltac:(lia) Htoken ltac:(cbn; lia))
        as (out & c' & Hrun & Hbound & Hwaits & Hsleeps & Hbefore & Hlast
            & Hret & Htok).
      exists out, c'. 
      cbn [c1 ApiRequest.slept attempted ApiRequest.fetches ApiRequest.waits
           ApiRequest.sleeps ApiRequest.token] in Hwaits, Hsleeps, Htok.
      split; [|split; [|split; [|split; [|split; [|split; [|split]]]]]].
      * intros fuel Hfuel. destruct fuel as [|fuel]; [lia|].
        rewrite Hstep. apply Hrun. lia.
      * lia.
      * lia.
      * rewrite Hsleeps, <- app_assoc. f_equal.
        replace (ApiRequest.fetches c' - 1 - r)%nat
          with (S (ApiRequest.fetches c' - 1 - S r)) by lia.
        cbn [seq map app]. rewrite Hfetches. reflexivity.
      * intros k Hk. destruct (Nat.eq_dec k r) as [->|Hne].
        -- rewrite <- Hfetches. exact Hretry.
        -- apply Hbefore. lia.
      * exact Hlast.
      * exact Hret.
      * exact Htok.
    + destruct (attempt_ends r c Htoken) as (out & tok & Hrun & Hret & Htok);
        [right; exact Hretry|].
      exists out, (with_token tok (attempted c)).
      cbn [with_token attempted ApiRequest.fetches ApiRequest.waits
           ApiRequest.sleeps ApiRequest.token].
      rewrite Hfetches in *.
      replace (S r - 1)%nat with r by lia. replace (r - r)%nat with 0%nat by lia.
      cbn [seq map]. rewrite app_nil_r.
      repeat split; try lia; auto.
Qed.

End Retries.

(** X30. A request made with a token stored ends, whatever the server and the
    network do, after at most four fetches: it fetches again exactly while
    the last fetch can be tried again (a 429, a status of 500 or more, a
    network error) and fewer than three retries have been made.  It has
    waited for the rate limiter once per fetch and slept between two fetches
    the time of the Retry-After header after a 429, and 1000 * 2^k ms after
    the k-th fetch otherwise.  It returns a result only from a fetch answered
    with an ok status whose body has been read, and the stored token is
    cleared only by a 401. *)
Theorem apiRequest_ends_within_four_fetches
  (parseInt : string -> option Z) (on_fetch : nat -> ApiRequest.Fetched)
  (method endpoint t : string) :
  truthy_str (Some t) = true ->
  exists out c,
    (forall fuel, (3 <= fuel)%nat ->
       ApiRequest.apiRequest fuel parseInt on_fetch method endpoint 0 (client_with t)
       = Some (out, c)) /\
    (1 <= ApiRequest.fetches c <= 4)%nat /\
    ApiRequest.waits c = ApiRequest.fetches c /\
    ApiRequest.sleeps c
    = map (fun k => delay parseInt k (on_fetch k))
          (seq 0 (ApiRequest.fetches c - 1)) /\
    (forall k, (k < ApiRequest.fetches c - 1)%nat -> retryable (on_fetch k) = true) /\
    ((ApiRequest.fetches c < 4)%nat ->
     retryable (on_fetch (ApiRequest.fetches c - 1)%nat) = false) /\
    (forall result, out = Returned result ->
       answered (on_fetch (ApiRequest.fetches c - 1)%nat) result) /\
    (ApiRequest.token c = Some t \/
     (ApiRequest.token c = None /\
      unauthorized (on_fetch (ApiRequest.fetches c - 1)%nat))).
Proof.
  intros Ht.
  destruct (request_from parseInt on_fetch method endpoint 3 0 (client_with t)
              eq_refl Ht eq_refl)
    as (out & c & Hrun & Hbound & Hwaits & Hsleeps & Hbefore & Hlast & Hret & Htok).
  cbn [client_with ApiRequest.waits ApiRequest.sleeps ApiRequest.token app]
    in Hwaits, Hsleeps, Htok.
  exists out, c.
  split; [exact Hrun|].
  split; [lia|].
  split; [lia|].
  split; [rewrite Hsleeps; f_equal; f_equal; lia|].
  split; [intros k Hk; apply Hbefore; lia|].
  split; [exact Hlast|].
  split; [exact Hret|exact Htok].
Qed.

Lemma apiRequest_ends_within_four_fetches_witness :
  truthy_str (Some "token") = true /\
  exists out c,
    (forall fuel, (3 <= fuel)%nat ->
       ApiRequest.apiRequest fuel SampleRequest.parse SampleRequest.recovers
         "GET" "/collections" 0 (client_with "token")
       = Some (out, c)) /\
    (1 <= ApiRequest.fetches c <= 4)%nat /\
    ApiRequest.waits c = ApiRequest.fetches c /\
    ApiRequest.sleeps c
    = map (fun k => delay SampleRequest.parse k (SampleRequest.recovers k))
          (seq 0 (ApiRequest.fetches c - 1)) /\
    (forall k, (k < ApiRequest.fetches c - 1)%nat ->
               retryable (SampleRequest.recovers k) = true) /\
    ((ApiRequest.fetches c < 4)%nat ->
     retryable (SampleRequest.recovers (ApiRequest.fetches c - 1)%nat) = false) /\
    (forall result, out = Returned result ->
       answered (SampleRequest.recovers (ApiRequest.fetches c - 1)%nat) result) /\
    (ApiRequest.token c = Some "token" \/
     (ApiRequest.token c = None /\
      unauthorized (SampleRequest.recovers (ApiRequest.fetches c - 1)%nat))).
Proof.
  split; [reflexivity|].
  apply (apiRequest_ends_within_four_fetches SampleRequest.parse
           SampleRequest.recovers "GET" "/collections" "token").
  reflexivity.
Defined.

(** A 429 with [Retry-After: 2], then a network error, then an answer. *)
Example apiRequest_recovers :
  ApiRequest.apiRequest 3 SampleRequest.parse SampleRequest.recovers
    "GET" "/collections" 0 (client_with "token")
  = Some (Returned "{}",
          ApiRequest.mkClient (Some "token") 3 3 [Some 2000; Some 2000]).
Proof. vm_compute. reflexivity. Qed.

(** A server that keeps answering 503 is asked four times. *)
Example apiRequest_gives_up :
  ApiRequest.apiRequest 3 SampleRequest.parse SampleRequest.busy
    "GET" "/collections" 0 (client_with "token")
  = Some (Throws (JsError "API request failed: 503 Service Unavailable"),
          ApiRequest.mkClient (Some "token") 4 4 [Some 1000; Some 2000; Some 4000]).
Proof. vm_compute. reflexivity. Qed.

(** Without a token nothing is fetched. *)
Example apiRequest_without_token :
  ApiRequest.apiRequest 3 SampleRequest.parse SampleRequest.busy
    "GET" "/collections" 0 (ApiRequest.mkClient None 0 0 [])
  = Some (Throws (JsError "Not authenticated. Please add your Test Token in Settings."),
          ApiRequest.mkClient None 1 0 []).
Proof. vm_compute. reflexivity. Qed.

(* ================================================================== *)
(** * The properties at sample inputs *)
(* ================================================================== *)

Section Samples.

#[local] Existing Instance sample_platform.

(** The claim C3 fails on a create operation for a bookmark with an empty
    title that has failed twice: one more run of [processQueue] brings its
    counter to three and puts it in the failed partition. *)
Lemma untitled_create_is_counted_and_parked :
  ~ never_counted SampleQueue.create_untitled SampleQueue.world_untitled.
Proof.
  intros [_ Hfailed].
  apply (Hfailed (record_failure MISSING_CREATE_DATA SampleQueue.create_untitled));
    [|reflexivity].
  vm_compute. left. reflexivity.
Qed.

(** The claim C2 fails on a local delete whose link is already gone: the
    handler still asks the remote service to delete the item; when the
    service rejects the request the handler throws, and when the service
    accepts it a second remote deletion has been made. *)
Lemma delete_replay_calls_remote_again :
  ~ replay_safe Sample.delete_7 (Sample.world_with Sample.empty_storage Sample.rejecting) /\
  ~ replay_safe Sample.delete_7 (Sample.world_with Sample.empty_storage Sample.quiet).
Proof.
  split; intros H; destruct (H eq_refl) as (w' & Hrun & Htrace).
  - assert (Hthrows :
      fst (processOperation Sample.delete_7
             (Sample.world_with Sample.empty_storage Sample.rejecting))
      = Throws (JsError "404")) by (vm_compute; reflexivity).
    rewrite Hrun in Hthrows. discriminate.
  - assert (Hcall :
      trace (snd (processOperation Sample.delete_7
                    (Sample.world_with Sample.empty_storage Sample.quiet)))
      = [DeleteRaindrop 7]) by (vm_compute; reflexivity).
    rewrite Hrun in Hcall. cbn [snd] in Hcall. rewrite Htrace in Hcall.
    discriminate.
Qed.



Lemma missing_fields_count_as_failure_witness :
  rejection SampleQueue.create_untitled = Some MISSING_CREATE_DATA /\
  lock_open SampleQueue.world_busy /\
  pending (queue_of SampleQueue.world_busy)
    = [Sample.delete_7] ++ SampleQueue.create_untitled :: [SampleQueue.delete_8] /\
  exists w', processQueue SampleQueue.world_busy = (Returned tt, w') /\
    ~ In "op-9" (map op_id (pending (queue_of w'))) /\
    In (record_failure MISSING_CREATE_DATA SampleQueue.create_untitled)
       (failed (queue_of w')).
Proof.
  split; [reflexivity|]. split; [exact I|]. split; [reflexivity|].
  assert (Hids : NoDup (map op_id [Sample.delete_7; SampleQueue.create_untitled;
                                   SampleQueue.delete_8])).
  { cbn [map op_id Sample.delete_7 SampleQueue.create_untitled SampleQueue.delete_8].
    repeat (apply NoDup_cons; split;
            [rewrite ?not_elem_of_cons; repeat split;
             try discriminate; apply not_elem_of_nil|]).
    apply NoDup_nil_2. }
  destruct (missing_fields_count_as_failure SampleQueue.create_untitled
              MISSING_CREATE_DATA SampleQueue.world_busy
              (mkQueue [Sample.delete_7; SampleQueue.create_untitled;
                        SampleQueue.delete_8] [])
              [Sample.delete_7] [SampleQueue.delete_8]
              eq_refl I eq_refl eq_refl Hids ltac:(cbn [length]; lia))
    as (_ & _ & w' & Hrun & _ & _ & Hparked & _).
  exists w'. split; [exact Hrun|].
  apply Hparked. cbn [maxRetries retries SampleQueue.create_untitled]. lia.
Defined.

Lemma handlers_and_registry_witness :
  truthy_num (d_raindropId (data Sample.delete_7)) = true /\
  looked_up (data Sample.delete_7) SampleLock.world_linked = Some Sample.link_7 /\
  (let r := pushDeleteToRaindrop (data Sample.delete_7) SampleLock.world_linked in
   fst r = Returned tt /\ trace (snd r) = [DeleteRaindrop 7] /\ links_of (snd r) = []).
Proof.
  split; [reflexivity|]. split; [reflexivity|].
  destruct (handlers_and_registry (data Sample.delete_7) SampleLock.world_linked)
    as (_ & _ & Hpush & _).
  destruct (Hpush eq_refl) as (_ & (Hout & Htrace & Hlinks) & _).
  split; [exact Hout|]. split; [exact Htrace | exact Hlinks].
Defined.


Lemma normalizeUrl_without_scheme_witness :
  normalizeUrl "Example.COM/Docs//" = "example.com/docs" /\
  normalizeUrl (normalizeUrl "Example.COM/Docs//") = normalizeUrl "Example.COM/Docs//".
Proof.
  assert (H : ~ In ":"%char (chars "Example.COM/Docs//")).
  { vm_compute. intros H.
    repeat (destruct H as [H|H]; [discriminate H|]). exact H. }
  destruct (normalizeUrl_without_scheme "Example.COM/Docs//" H) as (E & I & _).
  split; [rewrite E; vm_compute; reflexivity | exact I].
Defined.


Lemma pull_forgets_vanished_items_witness :
  exists r w',
    pullSyncForMapping SamplePull.mapping_1 SampleRest.world_moving = (Returned r, w') /\
    (forall l, In l (links_of_mapping SamplePull.mapping_1 w') ->
       exists item, In item [SampleRest.item_7; SampleRest.item_8] /\
                    _id item = raindropId l) /\
    deleted r
    = Z.of_nat (length (List.filter
                          (vanished [SampleRest.item_7; SampleRest.item_8])
                          (links_of_mapping SamplePull.mapping_1
                                            SampleRest.world_moving))).
Proof.
  apply (pull_forgets_vanished_items SamplePull.mapping_1 SampleRest.world_moving
           [SampleRest.item_7; SampleRest.item_8]).
  reflexivity.
Defined.

Lemma pull_keeps_links_of_other_mappings_witness :
  In SampleRest.link_elsewhere
     (links_of (snd (pullSyncForMapping SamplePull.mapping_1 SampleRest.world_moving))).
Proof.
  apply pull_keeps_links_of_other_mappings.
  - right. left. reflexivity.
  - intros l0 H. vm_compute in H.
    destruct H as [<-|[<-|[]]]; intros E; vm_compute in E; discriminate E.
Defined.

Lemma pull_at_rest_changes_nothing_witness :
  exists w',
    pullSyncForMapping SamplePull.mapping_1 SampleRest.world_rest
      = (Returned (mkPull 0 0 0 []), w') /\
    links_of w' = links_of SampleRest.world_rest /\
    trace w' = trace SampleRest.world_rest ++ [fetch_call SamplePull.mapping_1].
Proof.
  apply (pull_at_rest_changes_nothing SamplePull.mapping_1 SampleRest.world_rest
           [SampleRest.item_7]).
  - reflexivity.
  - split; [|split].
    + intros item [<-|[]]. exists SampleRest.link_of_7. split; [left|]; reflexivity.
    + intros item l [<-|[]] Hl _. vm_compute in Hl. destruct Hl as [<-|[]].
      vm_compute. reflexivity.
    + intros l Hl. vm_compute in Hl. destruct Hl as [<-|[]]. vm_compute. reflexivity.
Defined.

Lemma initial_match_splits_bookmarks_witness :
  exists b2 r2,
    In (b2, r2) (im_matched (initial_match SampleMatch.children SampleMatch.items)) /\
    local_url b2 = local_url (SampleMatch.page "b3" "https://Example.com/a").
Proof.
  destruct (initial_match_splits_bookmarks SampleMatch.children SampleMatch.items)
    as [_ H].
  apply (H (SampleMatch.page "b3" "https://Example.com/a")
           (mkRaindrop 1 "https://example.com/a" "A")).
  - vm_compute. left. reflexivity.
  - left. reflexivity.
  - vm_compute. reflexivity.
Defined.

Lemma initial_match_uses_last_item_of_each_url_witness :
  In (SampleMatch.page "b1" "https://example.com/a/") SampleMatch.children /\
  local_url (SampleMatch.page "b1" "https://example.com/a/")
  = remote_url (mkRaindrop 3 "https://example.com/a#top" "A again").
Proof.
  destruct (initial_match_uses_last_item_of_each_url SampleMatch.children
              SampleMatch.items) as (_ & _ & _ & H).
  destruct (H (SampleMatch.page "b1" "https://example.com/a/")
              (mkRaindrop 3 "https://example.com/a#top" "A again")) as (Hin & _ & Hu).
  - vm_compute. left. reflexivity.
  - split; [exact Hin | exact Hu].
Defined.

Lemma pending_keys_stay_unique_witness :
  unique_pending SampleKeys.world_two /\
  unique_pending (snd (addToQueue Sample.delete_7 SampleKeys.world_two)) /\
  unique_pending (snd (processQueue SampleKeys.world_two)).
Proof.
  assert (H : unique_pending SampleKeys.world_two).
  { unfold unique_pending. simpl.
    apply NoDup_cons. split.
    - rewrite not_elem_of_cons. split; [discriminate | apply not_elem_of_nil].
    - apply NoDup_cons. split; [apply not_elem_of_nil | apply NoDup_nil_2]. }
  destruct (pending_keys_stay_unique Sample.delete_7 "op-1" "boom"
              SampleKeys.world_two H) as (Ha & _ & _ & Hp).
  split; [exact H|]. split; [exact Ha | exact Hp].
Defined.

Lemma processQueue_keeps_registry_witness :
  unique_ids (links_of SampleLock.world_stale) /\
  unique_ids (links_of (snd (processOperation Sample.delete_7 SampleLock.world_stale))) /\
  unique_ids (links_of (snd (processQueue SampleLock.world_stale))).
Proof.
  assert (H : unique_ids (links_of SampleLock.world_stale)).
  { split; simpl; apply NoDup_cons; (split; [apply not_elem_of_nil | apply NoDup_nil_2]). }
  split; [exact H|].
  exact (processQueue_keeps_registry Sample.delete_7 SampleLock.world_stale H).
Defined.

Lemma pullSyncForMapping_keeps_registry_witness :
  unique_ids (links_of SampleLock.world_linked) /\
  unique_ids (links_of (snd (pullSyncForMapping SamplePull.mapping_1
                                                SampleLock.world_linked))).
Proof.
  assert (H : unique_ids (links_of SampleLock.world_linked)).
  { split; simpl; apply NoDup_cons; (split; [apply not_elem_of_nil | apply NoDup_nil_2]). }
  split; [exact H|].
  exact (pullSyncForMapping_keeps_registry SamplePull.mapping_1
           SampleLock.world_linked H).
Defined.

Lemma processed_operation_leaves_queue_witness :
  exists w',
    iteration (Stored (mkQueue [Sample.delete_7] [])) 0 Sample.delete_7
              SampleLock.world_stale = (Returned tt, w') /\
    pending (queue_of w') = [] /\ failed (queue_of w') = [].
Proof.
  assert (Hrun : processOperation Sample.delete_7 SampleLock.world_stale
                 = (Returned tt,
                    snd (processOperation Sample.delete_7 SampleLock.world_stale))).
  { assert (H : fst (processOperation Sample.delete_7 SampleLock.world_stale)
                = Returned tt) by (vm_compute; reflexivity).
    revert H.
    destruct (processOperation Sample.delete_7 SampleLock.world_stale) as [r w1].
    simpl. intros ->. reflexivity. }
  destruct (processed_operation_leaves_queue
              (Stored (mkQueue [Sample.delete_7] [])) 0 Sample.delete_7
              SampleLock.world_stale _ Hrun) as (w' & Hit & Hp & Hf & _).
  exists w'. split; [exact Hit|]. split; [exact Hp | exact Hf].
Defined.

End Samples.
